(** * Connection-pool stress harness: attempts, timeouts and the aggregate

    A shallow embedding of the load generators of the repository:
    - [run] of [src/load_test/mongo.js] and of [src/load_test/postgress.js]
      (the latter file holds the PostgreSQL and the MySQL generator), and
    - [testDatabase] of the stand-alone script, which races every whole
      attempt against [CONNECTION_TIMEOUT_MS].

    JavaScript runs every continuation between two [await]s without
    interruption, so an attempt is a small state machine that is resumed
    by an event (its pending adapter promise settles, or its timer fires)
    and then runs up to its next [await].  While it runs it mutates the
    shared [results] object; the machine applies those mutations in
    source order and also keeps them in a log.  The adapter (the database
    driver) and the event order are the environment: the former is a
    [Behavior] per attempt, the latter a schedule.

    Numbers: counters, memory samples and clock readings are integers;
    latencies, their sum and the averages are binary64 doubles, added
    and divided as IEEE 754 says (round to nearest, ties to even). *)

From Stdlib Require Import ZArith QArith Qround String List Lia DecimalString SpecFloat.
From stdpp Require Import base list strings sets.

Open Scope Z_scope.

(** ** JavaScript values reaching [results.errors] *)

Inductive JsVal :=
  | JUndefined
  | JNum (n : Z)
  | JStr (s : string).

#[global] Instance JsVal_eq_dec : EqDecision JsVal.
Proof. solve_decision. Defined.

(** ToBoolean on these values. *)
Definition truthy (v : JsVal) : bool :=
  match v with
  | JUndefined => false
  | JNum n => negb (n =? 0)
  | JStr s => negb (String.eqb s "")
  end.

(** [a || b] *)
Definition js_or (a b : JsVal) : JsVal := if truthy a then a else b.

(** [Array.prototype.includes] *)
Fixpoint includes (l : list JsVal) (v : JsVal) : bool :=
  match l with
  | [] => false
  | x :: l' => if decide (x = v) then true else includes l' v
  end.

(** A thrown value as the [catch] block sees it: reading [.code] of [null]
    or [undefined] raises a TypeError, every other value has a (possibly
    undefined) [code] and [message]. *)
Inductive Thrown :=
  | ThrownNullish
  | ThrownValue (code message : JsVal).

Definition is_nullish (e : Thrown) : bool :=
  match e with ThrownNullish => true | ThrownValue _ _ => false end.

(** The error [promiseTimeout.timeout] rejects with: an [Error] whose
    message is ['Timeout'] and which has no [code]. *)
Definition TimeoutError : Thrown := ThrownValue JUndefined (JStr "Timeout").

(** The delay [setTimeout] really uses: a delay below 1 or above 2^31-1
    is replaced by 1. *)
Definition timer_delay (ms : Z) : Z :=
  if (1 <=? ms) && (ms <=? 2147483647) then ms else 1.

(** ** Numbers *)

(** A Number that is not an integer counter: an IEEE 754 binary64 value
    (53 bits of precision, infinities at exponent 1024). *)
Definition double : Type := spec_float.

(** [Number(n)] for a BigInt or an integer literal [n]: the double
    nearest to [n]. *)
Definition Number_of_Z (n : Z) : double := binary_normalize 53 1024 n 0 false.

(** [x + y], [x - y] and [x / y] on doubles. *)
Definition js_add (x y : double) : double := SFadd 53 1024 x y.
Definition js_sub (x y : double) : double := SFsub 53 1024 x y.
Definition js_div (x y : double) : double := SFdiv 53 1024 x y.

(** The size of a finite double, as the rational it is. *)
Definition magnitude (m : positive) (e : Z) : Q :=
  if 0 <=? e then inject_Z (Z.pos m * 2 ^ e) else Qmake (Z.pos m) (Z.to_pos (2 ^ (- e))).

(** ** The [results] object *)

Inductive Driver := postgres | mysql | mongodb.

Record Results := mkResults {
  database : Driver;
  totalConnections : Z;
  successful : Z;
  failed : Z;
  errors : list JsVal;
  responseTimes : list double;
  startMemory : Z;
  peakMemory : Z;
  startTime : Z
}.

Definition set_successful (n : Z) (r : Results) : Results :=
  mkResults (database r) (totalConnections r) n (failed r) (errors r)
            (responseTimes r) (startMemory r) (peakMemory r) (startTime r).

Definition set_failed (n : Z) (r : Results) : Results :=
  mkResults (database r) (totalConnections r) (successful r) n (errors r)
            (responseTimes r) (startMemory r) (peakMemory r) (startTime r).

Definition set_errors (l : list JsVal) (r : Results) : Results :=
  mkResults (database r) (totalConnections r) (successful r) (failed r) l
            (responseTimes r) (startMemory r) (peakMemory r) (startTime r).

Definition set_responseTimes (l : list double) (r : Results) : Results :=
  mkResults (database r) (totalConnections r) (successful r) (failed r)
            (errors r) l (startMemory r) (peakMemory r) (startTime r).

Definition set_peakMemory (m : Z) (r : Results) : Results :=
  mkResults (database r) (totalConnections r) (successful r) (failed r)
            (errors r) (responseTimes r) (startMemory r) m (startTime r).

(** [Number(endTime - startTime) / 1_000_000] *)
Definition durationMs (ns : Z) : double :=
  js_div (Number_of_Z ns) (Number_of_Z 1000000).

(** [results.responseTimes.push(durationMs); results.successful++] *)
Definition record_success (d : double) (r : Results) : Results :=
  set_successful (successful r + 1)
    (set_responseTimes (responseTimes r ++ [d]) r).

(** [if (!results.errors.includes(k)) results.errors.push(k)] *)
Definition push_error (k : JsVal) (r : Results) : Results :=
  if includes (errors r) k then r else set_errors (errors r ++ [k]) r.

(** [error.code || error.message] *)
Definition error_key (code message : JsVal) : JsVal := js_or code message.

(** The [catch (error)] block.  On a nullish [error] the block stops at
    [error.code], after the increment. *)
Definition record_failure (e : Thrown) (r : Results) : Results :=
  let r1 := set_failed (failed r + 1) r in
  match e with
  | ThrownNullish => r1
  | ThrownValue c m => push_error (error_key c m) r1
  end.

(** The handler of the outer [promiseTimeout.timeout] in [testDatabase]. *)
Definition record_timeout (r : Results) : Results :=
  push_error (JStr "Connection Timeout") (set_failed (failed r + 1) r).

(** [if (currentMemory > results.peakMemory) results.peakMemory = currentMemory] *)
Definition sample_memory (m : Z) (r : Results) : Results :=
  if peakMemory r <? m then set_peakMemory m r else r.

(** ** What an attempt does to the world *)

Inductive Op := OpConstruct | OpConnect | OpRoundTrip | OpClose.

Inductive Outcome :=
  | Success (latencyMs : double)
  | Failure (e : Thrown)
  | TimedOut.

Inductive Action :=
  | ACall (op : Op)
  | ARecord (o : Outcome)
  | ASample (rss : Z).

Definition apply_action (r : Results) (a : Action) : Results :=
  match a with
  | ACall _ => r
  | ARecord (Success d) => record_success d r
  | ARecord (Failure e) => record_failure e r
  | ARecord TimedOut => record_timeout r
  | ASample m => sample_memory m r
  end.

(** ** The adapter *)

(** What one driver call does: throw before returning a promise, or
    return a promise that fulfils, rejects, or never settles. *)
Inductive CallResult :=
  | Throws (e : Thrown)
  | Resolves
  | Rejects (e : Thrown)
  | Hangs.

Record Behavior := mkBehavior {
  construct : option Thrown;  (* [new Client(...)]: [Some e] when it throws *)
  connect : CallResult;       (* [connect()] / [mysql.createConnection] *)
  roundTrip : CallResult;     (* [query] / [execute] / [db().command] *)
  close : CallResult;         (* [end()] / [close()] awaited in the [try] *)
  cleanup : CallResult;       (* [end()] / [close()] of the [finally] *)
  elapsed_ns : Z;             (* [endTime - startTime] of [process.hrtime.bigint()] *)
  rss : Z                     (* [process.memoryUsage().rss] in the [finally] *)
}.

Definition Adapter := nat -> Behavior.

(** Readings taken by the batch function itself. *)
Record Env := mkEnv {
  rss0 : Z;   (* [process.memoryUsage().rss] before the loop *)
  now0 : Z;   (* [Date.now()] before the loop *)
  now1 : Z    (* [Date.now()] after the join *)
}.

(** ** Events and the machine shared by both generators *)

Inductive Event :=
  | Settle (i : nat)               (* the promise attempt [i] awaits settles *)
  | Timer (i : nat) (elapsedMs : Z) (* the timer of attempt [i] fires, so long after it was armed *).

#[global] Instance Event_eq_dec : EqDecision Event.
Proof. solve_decision. Defined.

Definition target (ev : Event) : nat :=
  match ev with Settle i => i | Timer i _ => i end.

Record State (A : Type) := mkState {
  attempts : list A;             (* the [promises] array *)
  results : Results;
  log : list (nat * Action)
}.
Arguments mkState {A} _ _ _.
Arguments attempts {A} _.
Arguments results {A} _.
Arguments log {A} _.

Section Machine.
Context {A : Type}.
Variable launch_attempt : nat -> A * list Action.
Variable resume_attempt : nat -> A -> Event -> A * list Action.
Variable is_settled : A -> bool.

Definition tag (i : nat) (acts : list Action) : list (nat * Action) :=
  pair i <$> acts.

(** The body of the [for] loop: the async function runs up to its first
    [await], then its promise is pushed. *)
Definition spawn (st : State A) (i : nat) : State A :=
  let '(a, acts) := launch_attempt i in
  mkState (attempts st ++ [a])
          (foldl apply_action (results st) acts)
          (log st ++ tag i acts).

(** [for (let i = 0; i < total; i++)]: no iteration when [total <= 0]. *)
Definition spawn_all (total : Z) (st : State A) : State A :=
  foldl spawn st (seq 0 (Z.to_nat total)).

Definition step (st : State A) (ev : Event) : State A :=
  let i := target ev in
  match attempts st !! i with
  | None => st
  | Some a =>
      let '(a', acts) := resume_attempt i a ev in
      mkState (<[i := a']> (attempts st))
              (foldl apply_action (results st) acts)
              (log st ++ tag i acts)
  end.

Definition all_settled (st : State A) : bool :=
  forallb is_settled (attempts st).

(** [await Promise.allSettled(promises)]: the function goes on at the
    first moment every promise is settled, whether fulfilled or
    rejected; [None] when the schedule ends before that. *)
Fixpoint await_all (st : State A) (sched : list Event) : option (State A) :=
  if all_settled st then Some st
  else match sched with
       | [] => None
       | ev :: sched' => await_all (step st ev) sched'
       end.
End Machine.

(** ** [run] of [mongo.js] and [postgress.js] *)

Inductive Phase := AwaitConnect | AwaitRoundTrip | AwaitClose | AwaitCleanup.

(** An attempt is suspended at an [await] (with the variable [client]
    set or not, and possibly an exception of the [catch] block to
    rethrow after the [finally]), or its promise is settled. *)
Inductive Attempt :=
  | Waiting (p : Phase) (client rethrow : bool)
  | Fulfilled
  | Rejected.

Definition attempt_settled (a : Attempt) : bool :=
  match a with Waiting _ _ _ => false | Fulfilled | Rejected => true end.

Definition completion (rethrow : bool) : Attempt :=
  if rethrow then Rejected else Fulfilled.

(** The [finally] block (mongo.js 53-59, postgress.js 51-57 and 125-131):
    [if (client) await client.close().catch(() => {})], then the memory
    sample.  A close that throws instead of returning a promise ends the
    block at once, and the attempt's promise rejects; a pending close
    keeps the attempt waiting; once it settles, either way, the sample
    is taken and the attempt's promise settles. *)
Definition finally_block (b : Behavior) (client rethrow : bool)
  : Attempt * list Action :=
  if client then
    match cleanup b with
    | Throws _ => (Rejected, [ACall OpClose])
    | _ => (Waiting AwaitCleanup client rethrow, [ACall OpClose])
    end
  else (completion rethrow, [ASample (rss b)]).

(** [catch (error) { ... }] (mongo.js 47-52) followed by the [finally]. *)
Definition catch_block (b : Behavior) (client : bool) (e : Thrown)
  : Attempt * list Action :=
  let '(a, acts) := finally_block b client (is_nullish e) in
  (a, ARecord (Failure e) :: acts).

(** The end of the [try] (mongo.js 42-45): latency, [successful++], then
    the [finally]. *)
Definition success_path (b : Behavior) (client : bool) : Attempt * list Action :=
  let '(a, acts) := finally_block b client false in
  (a, ARecord (Success (durationMs (elapsed_ns b))) :: acts).

(** [await <call>] inside the [try]: a call that throws goes to the
    [catch] block at once, any other leaves the attempt waiting. *)
Definition await_call (b : Behavior) (client : bool) (op : Op)
    (res : CallResult) (p : Phase) : Attempt * list Action :=
  match res with
  | Throws e => let '(a, acts) := catch_block b client e in (a, ACall op :: acts)
  | _ => (Waiting p client false, [ACall op])
  end.

(** The attempt up to its first [await] (mongo.js 28-38).  PostgreSQL and
    MongoDB build the client first and race [client.connect()] against
    the timer; MySQL gets its connection only from the raced
    [createConnection] (postgress.js 107-110). *)
Definition launch (db : Driver) (b : Behavior) : Attempt * list Action :=
  match db with
  | mysql => await_call b false OpConnect (connect b) AwaitConnect
  | postgres | mongodb =>
      match construct b with
      | Some e =>
          let '(a, acts) := catch_block b false e in (a, ACall OpConstruct :: acts)
      | None =>
          let '(a, acts) := await_call b true OpConnect (connect b) AwaitConnect in
          (a, ACall OpConstruct :: acts)
      end
  end.

(** The attempt from one [await] to the next.  Only the [await] of the
    connect is raced against the timer (mongo.js 38); the round trip and
    the two closes have no deadline (39, 40, 54).  An event that does not
    concern the current [await] changes nothing. *)
Definition resume (timeoutMs : Z) (b : Behavior) (a : Attempt) (ev : Event)
  : Attempt * list Action :=
  match a, ev with
  | Waiting AwaitConnect client _, Settle _ =>
      match connect b with
      | Resolves => await_call b true OpRoundTrip (roundTrip b) AwaitRoundTrip
      | Rejects e => catch_block b client e
      | _ => (a, [])
      end
  | Waiting AwaitConnect client _, Timer _ t =>
      if timer_delay timeoutMs <=? t
      then catch_block b client TimeoutError
      else (a, [])
  | Waiting AwaitRoundTrip client _, Settle _ =>
      match roundTrip b with
      | Resolves => await_call b client OpClose (close b) AwaitClose
      | Rejects e => catch_block b client e
      | _ => (a, [])
      end
  | Waiting AwaitClose client _, Settle _ =>
      match close b with
      | Resolves => success_path b client
      | Rejects e => catch_block b client e
      | _ => (a, [])
      end
  | Waiting AwaitCleanup _ rethrow, Settle _ =>
      match cleanup b with
      | Resolves | Rejects _ => (completion rethrow, [ASample (rss b)])
      | _ => (a, [])
      end
  | _, _ => (a, [])
  end.

Definition init_results (db : Driver) (total : Z) (env : Env) : Results :=
  mkResults db total 0 0 [] [] (rss0 env) 0 (now0 env).

Definition init_state {A : Type} (r : Results) : State A := mkState [] r [].

(** [Math.round] on a rational: the nearest integer, halves upwards. *)
Definition Math_round (q : Q) : Z := Qfloor (q + (1 # 2))%Q.

(** [Math.round] on a double: a value that is not finite or is an
    integer already is returned as it is; otherwise the nearest
    integer, halves upwards, and a zero keeps the sign of the
    argument. *)
Definition Math_round_double (x : double) : double :=
  match x with
  | S754_finite s m e =>
      if 0 <=? e then x
      else
        let n := Math_round (if s then - magnitude m e else magnitude m e)%Q in
        if n =? 0 then S754_zero s else Number_of_Z n
  | _ => x
  end.

(** [l.reduce((a, b) => a + b, 0)] *)
Definition sum_times (l : list double) : double :=
  foldl js_add (S754_zero false) l.

(** [l.length > 0 ? Math.round(l.reduce(...) / l.length) : 0] *)
Definition average (l : list double) : double :=
  if (0 <? length l)%nat
  then Math_round_double (js_div (sum_times l) (Number_of_Z (Z.of_nat (length l))))
  else S754_zero false.

Record Summary := mkSummary {
  final : Results;
  endTime : Z;
  totalTime : double;
  avgResponseTime : double
}.

(** [(results.endTime - results.startTime) / 1000] *)
Definition elapsed_seconds (t1 t0 : Z) : double :=
  js_div (js_sub (Number_of_Z t1) (Number_of_Z t0)) (Number_of_Z 1000).

Definition summarize (env : Env) (r : Results) : Summary :=
  mkSummary r (now1 env)
            (elapsed_seconds (now1 env) (startTime r))
            (average (responseTimes r)).

(** The machine state at the moment [Promise.allSettled] lets [run] go on. *)
Definition run_state (db : Driver) (totalConnections timeoutMs : Z)
    (adapter : Adapter) (env : Env) (sched : list Event)
  : option (State Attempt) :=
  await_all (fun i a ev => resume timeoutMs (adapter i) a ev) attempt_settled
    (spawn_all (fun i => launch db (adapter i)) totalConnections
       (init_state (init_results db totalConnections env)))
    sched.

Definition run (db : Driver) (totalConnections timeoutMs : Z)
    (adapter : Adapter) (env : Env) (sched : list Event) : option Summary :=
  option_map (fun st => summarize env (results st))
    (run_state db totalConnections timeoutMs adapter env sched).

(** ** [testDatabase] of the stand-alone script *)

Definition TOTAL_CONNECTIONS : Z := 500.
Definition CONNECTION_TIMEOUT_MS : Z := 10000.

(** The inner async function (lines 69-117) has no timer of its own and
    no second close: it is at one of the three [await]s of the [switch],
    or done.
    Its trailing [.catch(e => console.error(...))] makes its promise
    fulfil whatever the [catch] block did. *)
Inductive Inner :=
  | Running (p : Phase)
  | Finished.

Definition inner_finished (a : Inner) : bool :=
  match a with Running _ => false | Finished => true end.

(** The promise pushed to [promises] (lines 120-127): the inner promise
    under [promiseTimeout.timeout(promise, CONNECTION_TIMEOUT_MS).catch(...)]. *)
Record Wrapped := mkWrapped {
  inner : Inner;
  outer_settled : bool
}.

(** Leaving the [try] either way: the counter, then the [finally] sample. *)
Definition t_finish (b : Behavior) (o : Outcome) : Inner * list Action :=
  (Finished, [ARecord o; ASample (rss b)]).

Definition t_await (b : Behavior) (op : Op) (res : CallResult) (p : Phase)
  : Inner * list Action :=
  match res with
  | Throws e => let '(a, acts) := t_finish b (Failure e) in (a, ACall op :: acts)
  | _ => (Running p, [ACall op])
  end.

Definition t_launch (dbName : Driver) (b : Behavior) : Inner * list Action :=
  match dbName with
  | mysql => t_await b OpConnect (connect b) AwaitConnect
  | postgres | mongodb =>
      match construct b with
      | Some e =>
          let '(a, acts) := t_finish b (Failure e) in (a, ACall OpConstruct :: acts)
      | None =>
          let '(a, acts) := t_await b OpConnect (connect b) AwaitConnect in
          (a, ACall OpConstruct :: acts)
      end
  end.

Definition t_resume (b : Behavior) (a : Inner) : Inner * list Action :=
  match a with
  | Running AwaitConnect =>
      match connect b with
      | Resolves => t_await b OpRoundTrip (roundTrip b) AwaitRoundTrip
      | Rejects e => t_finish b (Failure e)
      | _ => (a, [])
      end
  | Running AwaitRoundTrip =>
      match roundTrip b with
      | Resolves => t_await b OpClose (close b) AwaitClose
      | Rejects e => t_finish b (Failure e)
      | _ => (a, [])
      end
  | Running AwaitClose =>
      match close b with
      | Resolves => t_finish b (Success (durationMs (elapsed_ns b)))
      | Rejects e => t_finish b (Failure e)
      | _ => (a, [])
      end
  | _ => (a, [])
  end.

(** The outer promise settles with the inner one unless its timer was
    first. *)
Definition wrap (outer : bool) (x : Inner * list Action) : Wrapped * list Action :=
  let '(a, acts) := x in (mkWrapped a (outer || inner_finished a), acts).

Definition t_spawn (dbName : Driver) (b : Behavior) : Wrapped * list Action :=
  wrap false (t_launch dbName b).

(** A settling driver promise resumes the inner function even after the
    outer promise timed out; the timer only matters while the outer
    promise is pending, and its handler counts a failure under the fixed
    key. *)
Definition t_step (b : Behavior) (w : Wrapped) (ev : Event) : Wrapped * list Action :=
  match ev with
  | Settle _ => wrap (outer_settled w) (t_resume b (inner w))
  | Timer _ t =>
      if outer_settled w then (w, [])
      else if timer_delay CONNECTION_TIMEOUT_MS <=? t
           then (mkWrapped (inner w) true, [ARecord TimedOut])
           else (w, [])
  end.

(** The strings [x.toFixed(0)] returns: a sign and the digits of an
    integer, or [String(x)] when [x] is not finite or is at least
    10^21 in size. *)
Inductive Fixed :=
  | Digits (negative : bool) (n : Z)
  | NumberToString (x : double).

(** [x.toFixed(0)]: the integer nearest to the size of [x], the larger
    one of two, after the sign of a negative [x]. *)
Definition toFixed0 (x : double) : Fixed :=
  match x with
  | S754_zero _ => Digits false 0
  | S754_finite s m e =>
      if Qle_bool (inject_Z (10 ^ 21)) (magnitude m e)
      then NumberToString x
      else Digits s (Math_round (magnitude m e))
  | _ => NumberToString x
  end.

(** What [avgTime] holds: the number 0, or a string of [toFixed]. *)
Inductive AvgTime :=
  | AvgZero
  | AvgFixed (f : Fixed).

(** [l.length > 0 ? (l.reduce(...) / l.length).toFixed(0) : 0] *)
Definition avgTime (l : list double) : AvgTime :=
  if (0 <? length l)%nat
  then AvgFixed (toFixed0 (js_div (sum_times l) (Number_of_Z (Z.of_nat (length l)))))
  else AvgZero.

(** [results.errors[0] || 'None'] *)
Definition primaryError (r : Results) : JsVal :=
  js_or (match errors r with [] => JUndefined | k :: _ => k end) (JStr "None").

Record Report := mkReport {
  reported : Results;
  reportEndTime : Z;
  reportAvgTime : AvgTime;
  reportPrimaryError : JsVal
}.

(** The machine behind [testDatabase], for any attempt count.  Its
    [results] object has no [database] and no [totalConnections] field
    (and a [recoveryTime] that stays [null]); the two fields of the shared
    record are carried along and never read. *)
Definition test_state (total : Z) (dbName : Driver) (adapter : Adapter)
    (env : Env) (sched : list Event) : option (State Wrapped) :=
  await_all (fun i w ev => t_step (adapter i) w ev) outer_settled
    (spawn_all (fun i => t_spawn dbName (adapter i)) total
       (init_state (init_results dbName total env)))
    sched.

Definition testDatabase_state (dbName : Driver) (adapter : Adapter)
    (env : Env) (sched : list Event) : option (State Wrapped) :=
  test_state TOTAL_CONNECTIONS dbName adapter env sched.

Definition testDatabase (dbName : Driver) (adapter : Adapter)
    (env : Env) (sched : list Event) : option Report :=
  option_map
    (fun st => mkReport (results st) (now1 env)
                        (avgTime (responseTimes (results st)))
                        (primaryError (results st)))
    (testDatabase_state dbName adapter env sched).

(** ** Reading the log *)

Definition recorded (a : Action) : option Outcome :=
  match a with ARecord o => Some o | _ => None end.

(** The outcomes counted, in the order they were counted. *)
Definition outcomes (acts : list Action) : list Outcome := omap recorded acts.

Definition latency (o : Outcome) : option double :=
  match o with Success d => Some d | _ => None end.

Definition latencies (acts : list Action) : list double := omap latency (outcomes acts).

(** The key an outcome offers to [results.errors]; none for a success and
    none for a nullish thrown value, where the [catch] block fails first. *)
Definition outcome_key (o : Outcome) : option JsVal :=
  match o with
  | Success _ => None
  | Failure ThrownNullish => None
  | Failure (ThrownValue c m) => Some (error_key c m)
  | TimedOut => Some (JStr "Connection Timeout")
  end.

Definition keys (acts : list Action) : list JsVal := omap outcome_key (outcomes acts).

(** One step of the deduplicating append, on the bare list. *)
Definition add_key (acc : list JsVal) (k : JsVal) : list JsVal :=
  if includes acc k then acc else acc ++ [k].

(** The actions of attempt [i] within the shared log. *)
Definition mine (i : nat) (x : nat * Action) : option Action :=
  if decide (x.1 = i) then Some x.2 else None.

Definition actions_of (i : nat) (l : list (nat * Action)) : list Action :=
  omap (mine i) l.

(** A sequence of keys without its repetitions, every key at the place of
    its first occurrence. *)
Fixpoint first_seen (ks : list JsVal) : list JsVal :=
  match ks with
  | [] => []
  | k :: ks' => k :: filter (fun x => x <> k) (first_seen ks')
  end.

(** How many outcomes an attempt of [run] has counted so far: the
    counters are touched on the way into the [finally]. *)
Definition counted (a : Attempt) : nat :=
  match a with
  | Waiting AwaitCleanup _ _ | Fulfilled | Rejected => 1
  | Waiting _ _ _ => 0
  end.

(** How many promises of the driver an attempt of [run] may still have
    to wait for. *)
Definition awaits_left (a : Attempt) : nat :=
  match a with
  | Waiting AwaitConnect _ _ => 4
  | Waiting AwaitRoundTrip _ _ => 3
  | Waiting AwaitClose _ _ => 2
  | Waiting AwaitCleanup _ _ => 1
  | Fulfilled | Rejected => 0
  end.

(** The [try] block of an attempt can complete normally only if every
    driver call in it fulfils. *)
Definition try_clean (db : Driver) (b : Behavior) : Prop :=
  (db <> mysql -> construct b = None) /\
  connect b = Resolves /\ roundTrip b = Resolves /\ close b = Resolves.

(** The errors the [catch] block of [run] can be handed by an attempt. *)
Definition thrown_by (r : CallResult) (e : Thrown) : Prop :=
  r = Throws e \/ r = Rejects e.

Definition try_error (db : Driver) (b : Behavior) (e : Thrown) : Prop :=
  (db <> mysql /\ construct b = Some e) \/
  thrown_by (connect b) e \/ thrown_by (roundTrip b) e \/ thrown_by (close b) e.

(** No promise of the driver stays pending for ever. *)
Definition settles (r : CallResult) : Prop := r <> Hangs.

Definition responsive (b : Behavior) : Prop :=
  settles (connect b) /\ settles (roundTrip b) /\ settles (close b) /\
  settles (cleanup b).

(** States an attempt can be in, with the actions it has performed. *)
Section Reach.
Context {A : Type}.
Variable launch_attempt : A * list Action.
Variable resume_attempt : A -> Event -> A * list Action.

Inductive reach : A -> list Action -> Prop :=
  | reach_launch a acts :
      launch_attempt = (a, acts) -> reach a acts
  | reach_resume a acts ev a' acts' :
      reach a acts -> resume_attempt a ev = (a', acts') ->
      reach a' (acts ++ acts').
End Reach.

(** The states of the two machines after the loop and any events. *)
Definition run_trace (db : Driver) (totalConnections timeoutMs : Z)
    (adapter : Adapter) (env : Env) (evs : list Event) : State Attempt :=
  foldl (step (fun i a ev => resume timeoutMs (adapter i) a ev))
    (spawn_all (fun i => launch db (adapter i)) totalConnections
       (init_state (init_results db totalConnections env)))
    evs.

Definition test_trace (total : Z) (dbName : Driver) (adapter : Adapter)
    (env : Env) (evs : list Event) : State Wrapped :=
  foldl (step (fun i w ev => t_step (adapter i) w ev))
    (spawn_all (fun i => t_spawn dbName (adapter i)) total
       (init_state (init_results dbName total env)))
    evs.

(** Every attempt receives at least [k] settlements of its promises. *)
Definition settles_each (k : nat) (n : nat) (sched : list Event) : Prop :=
  forall i, (i < n)%nat ->
    (k <= length (filter (fun ev => ev = Settle i) sched))%nat.

(** ** What the log of one attempt of [run] looks like *)

(** The variable [client] is set once the constructor has returned
    (PostgreSQL, MongoDB) or once the raced connect has fulfilled, which
    shows in the log as the round trip that follows it. *)
Definition has_handle (db : Driver) (b : Behavior) (pre : list Action) : Prop :=
  (db <> mysql /\ construct b = None) \/ ACall OpRoundTrip ∈ pre.

(** The outcomes an attempt of [run] can count. *)
Definition outcome_ok (db : Driver) (b : Behavior) (o : Outcome) : Prop :=
  match o with
  | Success d => try_clean db b /\ d = durationMs (elapsed_ns b)
  | Failure e => e = TimeoutError \/ try_error db b e
  | TimedOut => False
  end.

(** The driver calls that have fulfilled when an attempt waits at [p]. *)
Definition passed (db : Driver) (b : Behavior) (p : Phase) : Prop :=
  (db <> mysql -> construct b = None) /\
  match p with
  | AwaitConnect => True
  | AwaitRoundTrip => connect b = Resolves
  | AwaitClose | AwaitCleanup => connect b = Resolves /\ roundTrip b = Resolves
  end.

Definition attempt_inv (db : Driver) (b : Behavior) (a : Attempt)
    (acts : list Action) : Prop :=
  match a with
  | Waiting AwaitCleanup _ _ =>
      exists pre o,
        acts = pre ++ [ARecord o; ACall OpClose] /\ outcomes pre = [] /\
        outcome_ok db b o /\ has_handle db b pre
  | Waiting p c _ =>
      outcomes acts = [] /\ (c = true <-> has_handle db b acts) /\ passed db b p
  | Fulfilled | Rejected =>
      exists pre o post,
        acts = pre ++ ARecord o :: post /\ outcomes pre = [] /\
        outcomes post = [] /\ outcome_ok db b o /\
        (has_handle db b pre -> exists post', post = ACall OpClose :: post') /\
        (~ has_handle db b pre -> post = [ASample (rss b)])
  end.

(** An attempt that waits does wait for a promise: a call that throws
    never returned one. *)
Definition pending (b : Behavior) (a : Attempt) : Prop :=
  match a with
  | Waiting AwaitConnect _ _ => forall e, connect b <> Throws e
  | Waiting AwaitRoundTrip _ _ => forall e, roundTrip b <> Throws e
  | Waiting AwaitClose _ _ => forall e, close b <> Throws e
  | Waiting AwaitCleanup _ _ => forall e, cleanup b <> Throws e
  | Fulfilled | Rejected => True
  end.

(** ** Concrete adapters and schedules *)

Definition env0 : Env := mkEnv 52428800 1700000000000 1700000010050.

(** A driver that answers every call, 50 ms per attempt. *)
Definition steady : Behavior :=
  mkBehavior None Resolves Resolves Resolves Resolves 50000000 104857600.

Definition ECONNREFUSED : Thrown :=
  ThrownValue (JStr "ECONNREFUSED") (JStr "connect ECONNREFUSED 127.0.0.1:5432").

(** An error object whose [code] is the number 0. *)
Definition zero_code : Thrown := ThrownValue (JNum 0) (JStr "boom").

(** [connect()] never answers. *)
Definition unreachable : Behavior :=
  mkBehavior None Hangs Resolves Resolves Resolves 0 104857600.

(** Only the second close, the one of the [finally], fails. *)
Definition cleanup_fails : Behavior :=
  mkBehavior None Resolves Resolves Resolves (Rejects ECONNREFUSED)
             50000000 104857600.

(** Connect and round trip succeed, the close awaited in the [try] fails. *)
Definition close_fails : Behavior :=
  mkBehavior None Resolves Resolves (Rejects ECONNREFUSED) Resolves
             50000000 104857600.

Definition connect_refused : Behavior :=
  mkBehavior None (Rejects ECONNREFUSED) Resolves Resolves Resolves
             50000000 104857600.

Definition connect_zero_code : Behavior :=
  mkBehavior None (Rejects zero_code) Resolves Resolves Resolves
             50000000 104857600.

(** All the settlements one attempt can need. *)
Definition drain (i : nat) : list Event := [Settle i; Settle i; Settle i; Settle i].

(** [testDatabase] with a slow first connection: attempt 0 needs a little
    more than the ten seconds, the last attempt a little less, the
    others 50 ms. *)
Definition slow_first : Adapter :=
  fun i =>
    if (i =? 0)%nat
    then mkBehavior None Resolves Resolves Resolves Resolves 10005000000 104857600
    else if (i =? 499)%nat
    then mkBehavior None Resolves Resolves Resolves Resolves 9990000000 104857600
    else steady.

Definition three (i : nat) : list Event := [Settle i; Settle i; Settle i].

(** Attempts 1..498 complete; the timer of attempt 0 fires; attempt 0
    completes all the same; attempt 499, started last, completes within
    its own ten seconds. *)
Definition slow_first_sched : list Event :=
  flat_map three (seq 1 498) ++ [Timer 0 10000] ++ three 0%nat ++ three 499%nat.

(** ** One attempt on its own *)

(** An attempt run alone: from its launch through the events it is sent,
    with all the actions it performs. *)
Section Solo.
Context {A : Type}.
Variable launch_attempt : A * list Action.
Variable resume_attempt : A -> Event -> A * list Action.

Definition solo_step (x : A * list Action) (ev : Event) : A * list Action :=
  let '(a', acts') := resume_attempt x.1 ev in (a', x.2 ++ acts').

Definition solo (evs : list Event) : A * list Action :=
  foldl solo_step launch_attempt evs.
End Solo.

(** The events of a schedule that are addressed to attempt [i]. *)
Definition events_of (i : nat) (evs : list Event) : list Event :=
  filter (fun ev => target ev = i) evs.

(** ** Memory samples *)

Definition sampled (a : Action) : option Z :=
  match a with ASample m => Some m | _ => None end.

(** The [rss] readings taken in the [finally] blocks, in order. *)
Definition samples (acts : list Action) : list Z := omap sampled acts.

(** ** The report of [testDatabase] (lines 140-144) *)

(** [String.prototype.repeat]: a RangeError for a negative count. *)
Definition js_repeat (s : string) (n : Z) : option string :=
  if n <? 0 then None else Some (String.concat "" (replicate (Z.to_nat n) s)).

(** [`${n}`] for an integer. *)
Definition show_Z (n : Z) : string := NilZero.string_of_int (Z.to_int n).

(** [`${v}`] for a value of the error list. *)
Definition show_JsVal (v : JsVal) : string :=
  match v with
  | JUndefined => "undefined"
  | JNum n => show_Z n
  | JStr s => s
  end.

(** [Math.round((results.successful / TOTAL_CONNECTIONS) * 30)], on the
    exact quotient: for the counts the script can reach the doubles
    give the same number ([successBlocks_as_doubles]). *)
Definition successBlocks (r : Results) : Z :=
  Math_round (inject_Z (successful r) / inject_Z TOTAL_CONNECTIONS * inject_Z 30)%Q.

Definition failBlocks (r : Results) : Z := 30 - successBlocks r.

Definition newline : string := String (Ascii.ascii_of_nat 10) EmptyString.

(** The two lines of the pattern; [None] when a [repeat] throws. *)
Definition connectionPattern (r : Results) : option string :=
  match js_repeat "█" (successBlocks r), js_repeat "×" (failBlocks r) with
  | Some bar, Some crosses =>
      Some ("0-" ++ show_Z (successful r) ++ ":   [" ++ bar ++ "] Success"
            ++ newline
            ++ show_Z (successful r + 1) ++ "-" ++ show_Z TOTAL_CONNECTIONS
            ++ ": [" ++ crosses ++ "] "
            ++ show_JsVal (js_or (match errors r with
                                  | [] => JUndefined
                                  | k :: _ => k
                                  end) (JStr "Failed")))%string
  | _, _ => None
  end.

(** How many outcomes an attempt of [testDatabase] may have counted, at
    least and at most: the outer promise settles on the first of them,
    the inner function adds its own when it finishes. *)
Definition wrapped_least (w : Wrapped) : nat :=
  if outer_settled w || inner_finished (inner w) then 1 else 0.

Definition wrapped_most (w : Wrapped) : nat :=
  ((if outer_settled w then 1 else 0) + (if inner_finished (inner w) then 1 else 0))%nat.

Definition wrapped_finished (w : Wrapped) : nat :=
  if inner_finished (inner w) then 1 else 0.

Definition outcome_count (a : Action) : nat :=
  match a with ARecord _ => 1 | _ => 0 end.

Definition success_count (a : Action) : nat :=
  match a with ARecord (Success _) => 1 | _ => 0 end.

(** The logs that record nothing but successes. *)
Definition all_successes (acts : list Action) : Prop :=
  forall o, ARecord o ∈ acts -> exists d, o = Success d.

(** One [results] object at two moments: nothing is taken back. *)
Definition grows (r r' : Results) : Prop :=
  successful r <= successful r' /\
  failed r <= failed r' /\
  errors r `prefix_of` errors r' /\
  responseTimes r `prefix_of` responseTimes r' /\
  peakMemory r <= peakMemory r' /\
  startMemory r' = startMemory r /\
  startTime r' = startTime r.

(** ** The outcome of an attempt, read off the driver and the events *)

(** What a driver call leaves of the rest of the [try]: its own error
    when it throws or rejects, nothing at all when its promise never
    settles. *)
Definition after_call (r : CallResult) (rest : option Outcome) : option Outcome :=
  match r with
  | Throws e | Rejects e => Some (Failure e)
  | Resolves => rest
  | Hangs => None
  end.

(** The outcome of the [try] from the [await] of phase [p] on. *)
Definition phase_outcome (b : Behavior) (p : Phase) : option Outcome :=
  let done := Some (Success (durationMs (elapsed_ns b))) in
  match p with
  | AwaitConnect =>
      after_call (connect b) (after_call (roundTrip b) (after_call (close b) done))
  | AwaitRoundTrip => after_call (roundTrip b) (after_call (close b) done)
  | AwaitClose => after_call (close b) done
  | AwaitCleanup => done
  end.

(** The outcome the [try] block comes to when no deadline cuts it
    short: the first driver call that fails decides, and it is a
    success when none does. *)
Definition try_outcome (db : Driver) (b : Behavior) : option Outcome :=
  match db with
  | mysql => phase_outcome b AwaitConnect
  | postgres | mongodb =>
      match construct b with
      | Some e => Some (Failure e)
      | None => phase_outcome b AwaitConnect
      end
  end.

Definition is_settle (ev : Event) : bool :=
  match ev with Settle _ => true | Timer _ _ => false end.

(** The attempt gets as far as the [await] of the raced connect. *)
Definition connect_pending (db : Driver) (b : Behavior) : bool :=
  match db, construct b, connect b with
  | _, _, Throws _ => false
  | mysql, _, _ => true
  | _, None, _ => true
  | _, Some _, _ => false
  end.

Definition connect_settles (b : Behavior) : bool :=
  match connect b with Resolves | Rejects _ => true | Throws _ | Hangs => false end.

(** Among the events of one attempt, a timer fires with its delay over
    before the raced promise has settled. *)
Fixpoint deadline_first (delay : Z) (settling : bool) (evs : list Event) : bool :=
  match evs with
  | [] => false
  | Settle _ :: evs' => if settling then false else deadline_first delay settling evs'
  | Timer _ t :: evs' => (delay <=? t) || deadline_first delay settling evs'
  end.

(** Neither has happened yet. *)
Fixpoint undecided (delay : Z) (settling : bool) (evs : list Event) : bool :=
  match evs with
  | [] => true
  | Settle _ :: evs' => negb settling && undecided delay settling evs'
  | Timer _ t :: evs' => negb (delay <=? t) && undecided delay settling evs'
  end.

(** The deadline of [run] cuts the attempt short. *)
Definition timed_out (db : Driver) (timeoutMs : Z) (b : Behavior)
    (evs : list Event) : bool :=
  connect_pending db b
  && deadline_first (timer_delay timeoutMs) (connect_settles b) evs.

(** The one outcome an attempt of [run] counts, as a function of its
    driver and of the events it is sent. *)
Definition run_outcome (db : Driver) (timeoutMs : Z) (b : Behavior)
    (evs : list Event) : option Outcome :=
  if timed_out db timeoutMs b evs then Some (Failure TimeoutError)
  else try_outcome db b.

(** What holds of an attempt of [run] after the events [evs]. *)
Definition run_inv (db : Driver) (timeoutMs : Z) (b : Behavior)
    (evs : list Event) (x : Attempt * list Action) : Prop :=
  match x.1 with
  | Waiting AwaitCleanup _ _ | Fulfilled | Rejected =>
      exists o, outcomes x.2 = [o] /\
        forall rest, run_outcome db timeoutMs b (evs ++ rest) = Some o
  | Waiting AwaitConnect _ _ =>
      outcomes x.2 = [] /\ connect_pending db b = true /\
      undecided (timer_delay timeoutMs) (connect_settles b) evs = true
  | Waiting p _ _ =>
      outcomes x.2 = [] /\
      connect b = Resolves /\
      try_outcome db b = phase_outcome b p /\
      match p with
      | AwaitRoundTrip => forall e, roundTrip b <> Throws e
      | _ => forall e, close b <> Throws e
      end /\
      forall rest,
        deadline_first (timer_delay timeoutMs) (connect_settles b) (evs ++ rest)
        = false
  end.

(** The call the inner function of [testDatabase] waits for at [p]. *)
Definition awaited (b : Behavior) (p : Phase) : CallResult :=
  match p with
  | AwaitConnect => connect b
  | AwaitRoundTrip => roundTrip b
  | AwaitClose => close b
  | AwaitCleanup => cleanup b
  end.

(** The outer promise timed out on one of the events. *)
Definition outer_timed_out (evs : list Event) : Prop :=
  exists i t, Timer i t ∈ evs /\ timer_delay CONNECTION_TIMEOUT_MS <= t.

(** What the inner function of [testDatabase] has behind it when it
    waits at [p]: it calls [end()] or [close()] only after the connect
    and the round trip have fulfilled. *)
Definition test_phase (b : Behavior) (p : Phase) (acts : list Action) : Prop :=
  match p with
  | AwaitConnect => ACall OpClose ∉ acts
  | AwaitRoundTrip => connect b = Resolves /\ ACall OpClose ∉ acts
  | AwaitClose => connect b = Resolves /\ roundTrip b = Resolves
  | AwaitCleanup => False
  end.

(** What holds of an attempt of [testDatabase] after the events [evs]. *)
Definition test_inv (db : Driver) (b : Behavior) (evs : list Event)
    (x : Wrapped * list Action) : Prop :=
  (TimedOut ∈ outcomes x.2 -> outer_timed_out evs) /\
  match inner x.1 with
  | Running p =>
      try_outcome db b = phase_outcome b p /\
      (forall e, awaited b p <> Throws e) /\
      outcomes x.2 = (if outer_settled x.1 then [TimedOut] else []) /\
      test_phase b p x.2
  | Finished =>
      outer_settled x.1 = true /\
      exists o, try_outcome db b = Some o /\
        (outcomes x.2 = [o] \/ outcomes x.2 = [TimedOut; o]) /\
        (ACall OpClose ∈ x.2 -> connect b = Resolves /\ roundTrip b = Resolves)
  end.

(** Three attempts of 1.4, 2.8 and 3.3 ms and one that is refused. *)
Definition mixed_latencies : Adapter :=
  fun i =>
    match i with
    | 0%nat => mkBehavior None Resolves Resolves Resolves Resolves 1400000 104857600
    | 1%nat => connect_refused
    | 2%nat => mkBehavior None Resolves Resolves Resolves Resolves 2800000 104857600
    | _ => mkBehavior None Resolves Resolves Resolves Resolves 3300000 104857600
    end.

(** The connect answers, the round trip never does. *)
Definition round_trip_hangs : Behavior :=
  mkBehavior None Resolves Hangs Resolves Resolves 0 104857600.

(** ** Signs of doubles, and the blocks in doubles *)

(** A double that is a number and is not negative: [+0], a positive
    finite value or [+Infinity]. *)
Definition nonnegative (x : double) : Prop :=
  match x with
  | S754_zero false | S754_infinity false | S754_finite false _ _ => True
  | _ => False
  end.

(** A positive finite double. *)
Definition positive_finite (x : double) : Prop :=
  match x with S754_finite false _ _ => True | _ => False end.

(** [x * y] on doubles. *)
Definition js_mul (x y : double) : double := SFmul 53 1024 x y.

(** [Math.round((successful / TOTAL_CONNECTIONS) * 30)] as the script
    computes it, in doubles. *)
Definition successBlocks_double (successful : Z) : double :=
  Math_round_double
    (js_mul (js_div (Number_of_Z successful) (Number_of_Z TOTAL_CONNECTIONS))
            (Number_of_Z 30)).

#[global] Instance double_eq_dec : EqDecision double.
Proof. solve_decision. Defined.

(** Case analysis on what a driver call does. *)
Ltac split_call r := destruct r as [?e| |?e|].

(** * Facts *)

(** ** The aggregate as a function of the log *)

Lemma includes_elem_of (l : list JsVal) (v : JsVal) :
  includes l v = true <-> v ∈ l.
Proof.
  induction l as [|x l IH]; simpl.
  - split; [discriminate | intros H; inversion H].
  - destruct (decide (x = v)) as [->|Hne].
    + split; [intros _; left | reflexivity].
    + rewrite IH. split; [right; assumption|].
      intros H. inversion H; subst; [contradiction | assumption].
Qed.

Lemma includes_false (l : list JsVal) (v : JsVal) :
  includes l v = false <-> v ∉ l.
Proof.
  rewrite <- includes_elem_of. destruct (includes l v); split; congruence.
Qed.

Lemma push_error_present (k : JsVal) (r : Results) :
  k ∈ errors r -> push_error k r = r.
Proof.
  intros H. unfold push_error. apply includes_elem_of in H. now rewrite H.
Qed.

Lemma push_error_new (k : JsVal) (r : Results) :
  k ∉ errors r -> errors (push_error k r) = errors r ++ [k].
Proof.
  intros H. unfold push_error. apply includes_false in H. now rewrite H.
Qed.

Lemma push_error_NoDup (k : JsVal) (r : Results) :
  NoDup (errors r) -> NoDup (errors (push_error k r)).
Proof.
  intros H. unfold push_error. destruct (includes (errors r) k) eqn:E; [assumption|].
  simpl. apply includes_false in E.
  apply NoDup_app. split; [assumption|]. split.
  - intros x Hx Hk. apply list_elem_of_singleton in Hk. subst. contradiction.
  - apply NoDup_singleton.
Qed.

Lemma push_error_counts (k : JsVal) (r : Results) :
  successful (push_error k r) = successful r /\
  failed (push_error k r) = failed r /\
  responseTimes (push_error k r) = responseTimes r.
Proof. unfold push_error. destruct (includes (errors r) k); auto. Qed.

Lemma sample_memory_keeps (m : Z) (r : Results) :
  successful (sample_memory m r) = successful r /\
  failed (sample_memory m r) = failed r /\
  errors (sample_memory m r) = errors r /\
  responseTimes (sample_memory m r) = responseTimes r.
Proof. unfold sample_memory. destruct (peakMemory r <? m); auto. Qed.

Lemma errors_push_error (k : JsVal) (r : Results) :
  errors (push_error k r) = add_key (errors r) k.
Proof. unfold push_error, add_key. destruct (includes (errors r) k); reflexivity. Qed.

Lemma errors_apply_action (r : Results) (a : Action) :
  errors (apply_action r a) = foldl add_key (errors r) (keys [a]).
Proof.
  destruct a as [op|[d|[|c m]|]|m]; simpl; try reflexivity.
  - unfold record_failure. now rewrite errors_push_error.
  - unfold record_timeout. now rewrite errors_push_error.
  - apply sample_memory_keeps.
Qed.

Lemma keys_app (l1 l2 : list Action) : keys (l1 ++ l2) = keys l1 ++ keys l2.
Proof. unfold keys, outcomes. now rewrite !omap_app. Qed.

Lemma outcomes_app (l1 l2 : list Action) :
  outcomes (l1 ++ l2) = outcomes l1 ++ outcomes l2.
Proof. unfold outcomes. now rewrite omap_app. Qed.

Lemma latencies_app (l1 l2 : list Action) :
  latencies (l1 ++ l2) = latencies l1 ++ latencies l2.
Proof. unfold latencies. now rewrite outcomes_app, omap_app. Qed.

Lemma fold_errors (acts : list Action) (r : Results) :
  errors (foldl apply_action r acts) = foldl add_key (errors r) (keys acts).
Proof.
  revert r. induction acts as [|a acts IH]; intros r; [reflexivity|].
  change (a :: acts) with ([a] ++ acts) at 2. rewrite keys_app, foldl_app.
  simpl foldl at 1. rewrite IH. now rewrite errors_apply_action.
Qed.

Lemma fold_responseTimes (acts : list Action) (r : Results) :
  responseTimes (foldl apply_action r acts) = responseTimes r ++ latencies acts.
Proof.
  revert r. induction acts as [|a acts IH]; intros r; simpl.
  - now rewrite app_nil_r.
  - rewrite IH. change (a :: acts) with ([a] ++ acts). rewrite latencies_app, app_assoc.
    f_equal. destruct a as [op|[d|[|c m]|]|m]; simpl; rewrite ?app_nil_r; try reflexivity.
    + now destruct (push_error_counts (error_key c m) (set_failed (failed r + 1) r)) as (_ & _ & ->).
    + unfold record_timeout.
      now destruct (push_error_counts (JStr "Connection Timeout") (set_failed (failed r + 1) r)) as (_ & _ & ->).
    + now destruct (sample_memory_keeps m r) as (_ & _ & _ & ->).
Qed.

Lemma fold_successful (acts : list Action) (r : Results) :
  successful (foldl apply_action r acts)
  = successful r + Z.of_nat (length (latencies acts)).
Proof.
  revert r. induction acts as [|a acts IH]; intros r; simpl.
  - lia.
  - rewrite IH. change (a :: acts) with ([a] ++ acts). rewrite latencies_app, length_app.
    destruct a as [op|[d|[|c m]|]|m]; simpl; try lia.
    + destruct (push_error_counts (error_key c m) (set_failed (failed r + 1) r)) as [-> _].
      simpl. lia.
    + unfold record_timeout.
      destruct (push_error_counts (JStr "Connection Timeout") (set_failed (failed r + 1) r)) as [-> _].
      simpl. lia.
    + destruct (sample_memory_keeps m r) as [-> _]. lia.
Qed.

Lemma fold_counted (acts : list Action) (r : Results) :
  successful (foldl apply_action r acts) + failed (foldl apply_action r acts)
  = successful r + failed r + Z.of_nat (length (outcomes acts)).
Proof.
  revert r. induction acts as [|a acts IH]; intros r.
  - simpl. lia.
  - change (a :: acts) with ([a] ++ acts). rewrite outcomes_app, length_app.
    cbn [foldl app]. rewrite IH.
    destruct a as [op|[d|[|c m]|]|m]; simpl; try lia.
    + destruct (push_error_counts (error_key c m) (set_failed (failed r + 1) r)) as (-> & -> & _).
      simpl. lia.
    + unfold record_timeout.
      destruct (push_error_counts (JStr "Connection Timeout") (set_failed (failed r + 1) r)) as (-> & -> & _).
      simpl. lia.
    + destruct (sample_memory_keeps m r) as (-> & -> & _). lia.
Qed.

(** ** First-seen order *)

Lemma add_key_spec (acc : list JsVal) (k : JsVal) :
  add_key acc k = acc ++ filter (fun x => x ∉ acc) [k].
Proof.
  unfold add_key. destruct (includes acc k) eqn:E.
  - apply includes_elem_of in E. rewrite filter_cons_False by (intros H; now apply H).
    now rewrite filter_nil, app_nil_r.
  - apply includes_false in E. now rewrite filter_cons_True.
Qed.

Lemma filter_filter_keys (P Q : JsVal -> Prop)
    `{forall x, Decision (P x)} `{forall x, Decision (Q x)} (l : list JsVal) :
  filter P (filter Q l) = filter (fun x => P x /\ Q x) l.
Proof.
  induction l as [|x l IH]; [reflexivity|].
  destruct (decide (Q x)) as [q|q].
  - rewrite (filter_cons_True Q) by assumption.
    destruct (decide (P x)) as [p|p].
    + rewrite !filter_cons_True by auto. now rewrite IH.
    + rewrite !filter_cons_False by tauto. assumption.
  - rewrite (filter_cons_False Q) by assumption.
    rewrite (filter_cons_False (fun x => P x /\ Q x)) by tauto. assumption.
Qed.

Lemma filter_ext_keys (P Q : JsVal -> Prop)
    `{forall x, Decision (P x)} `{forall x, Decision (Q x)} (l : list JsVal) :
  (forall x, P x <-> Q x) -> filter P l = filter Q l.
Proof.
  intros E. induction l as [|x l IH]; [reflexivity|].
  destruct (decide (P x)) as [p|p].
  - rewrite !filter_cons_True by (auto; now apply E). now rewrite IH.
  - rewrite !filter_cons_False by (auto; now rewrite <- E). assumption.
Qed.

Lemma fold_add_key (ks acc : list JsVal) :
  foldl add_key acc ks = acc ++ filter (fun x => x ∉ acc) (first_seen ks).
Proof.
  revert acc. induction ks as [|k ks IH]; intros acc.
  - simpl. now rewrite filter_nil, app_nil_r.
  - cbn [foldl first_seen]. rewrite IH. unfold add_key.
    destruct (includes acc k) eqn:E.
    + apply includes_elem_of in E.
      rewrite filter_cons_False by (intros H; now apply H).
      rewrite filter_filter_keys. f_equal. apply filter_ext_keys.
      intros x. split; [intros Hx; split; [assumption|]|tauto].
      intros ->. contradiction.
    + apply includes_false in E.
      rewrite filter_cons_True by assumption.
      rewrite filter_filter_keys, <- app_assoc. simpl. do 2 f_equal.
      apply filter_ext_keys. intros x. rewrite not_elem_of_app.
      rewrite list_elem_of_singleton. tauto.
Qed.

Lemma first_seen_elem_of (ks : list JsVal) (k : JsVal) :
  k ∈ first_seen ks <-> k ∈ ks.
Proof.
  induction ks as [|k' ks IH]; simpl; [reflexivity|].
  rewrite !elem_of_cons, list_elem_of_filter, IH.
  destruct (decide (k = k')); tauto.
Qed.

Lemma first_seen_NoDup (ks : list JsVal) : NoDup (first_seen ks).
Proof.
  induction ks as [|k ks IH]; simpl; [constructor|].
  constructor.
  - rewrite list_elem_of_filter. tauto.
  - now apply NoDup_filter.
Qed.

Lemma fold_add_key_nil (ks : list JsVal) : foldl add_key [] ks = first_seen ks.
Proof.
  rewrite fold_add_key. simpl.
  induction (first_seen ks) as [|x l IH]; [reflexivity|].
  rewrite filter_cons_True by apply not_elem_of_nil. now rewrite IH.
Qed.

(** A key is in the first-seen list before another exactly when its
    first occurrence is earlier: appending to the key sequence only
    appends to the list. *)
Lemma first_seen_snoc (ks : list JsVal) (k : JsVal) :
  first_seen (ks ++ [k]) = if decide (k ∈ ks) then first_seen ks else first_seen ks ++ [k].
Proof.
  rewrite <- (fold_add_key_nil (ks ++ [k])), foldl_app, fold_add_key_nil.
  simpl. unfold add_key.
  destruct (includes (first_seen ks) k) eqn:E.
  - apply includes_elem_of in E. rewrite first_seen_elem_of in E.
    destruct (decide (k ∈ ks)); [reflexivity | contradiction].
  - apply includes_false in E. rewrite first_seen_elem_of in E.
    destruct (decide (k ∈ ks)); [contradiction | reflexivity].
Qed.

(** ** The shared machine *)

Lemma actions_of_app (i : nat) (l1 l2 : list (nat * Action)) :
  actions_of i (l1 ++ l2) = actions_of i l1 ++ actions_of i l2.
Proof. unfold actions_of. apply omap_app. Qed.

Lemma omap_cons_eq {X Y : Type} (f : X -> option Y) (x : X) (l : list X) :
  omap f (x :: l) = match f x with Some y => y :: omap f l | None => omap f l end.
Proof. reflexivity. Qed.

Lemma actions_of_tag_same (i : nat) (acts : list Action) :
  actions_of i (tag i acts) = acts.
Proof.
  unfold actions_of, tag. induction acts as [|a acts IH]; [reflexivity|].
  rewrite fmap_cons, omap_cons_eq, IH. unfold mine. cbn [fst snd].
  now destruct (decide (i = i)).
Qed.

Lemma actions_of_tag_other (i j : nat) (acts : list Action) :
  j <> i -> actions_of i (tag j acts) = [].
Proof.
  intros Hne. unfold actions_of, tag. induction acts as [|a acts IH]; [reflexivity|].
  rewrite fmap_cons, omap_cons_eq, IH. unfold mine. cbn [fst snd].
  now destruct (decide (j = i)).
Qed.

Lemma actions_of_fresh (i : nat) (l : list (nat * Action)) :
  (forall x, x ∈ l -> (x.1 < i)%nat) -> actions_of i l = [].
Proof.
  intros H. unfold actions_of. induction l as [|x l IH]; [reflexivity|].
  rewrite omap_cons_eq, IH by (intros y Hy; apply H; now right).
  unfold mine. specialize (H x (list_elem_of_here _ _)).
  destruct (decide (x.1 = i)); [lia | reflexivity].
Qed.

Lemma elem_of_actions_of (i : nat) (a : Action) (l : list (nat * Action)) :
  a ∈ actions_of i l <-> (i, a) ∈ l.
Proof.
  unfold actions_of. rewrite list_elem_of_omap. split.
  - intros ([j b] & Hin & Hm). unfold mine in Hm. simpl in Hm.
    destruct (decide (j = i)); [|discriminate]. now simplify_eq.
  - intros Hin. exists (i, a). split; [assumption|].
    unfold mine. simpl. now rewrite decide_True.
Qed.

Lemma tag_snd (i : nat) (acts : list Action) : (tag i acts).*2 = acts.
Proof.
  unfold tag. induction acts as [|a acts IH]; [reflexivity|].
  rewrite !fmap_cons. cbn [snd]. now rewrite IH.
Qed.

Lemma elem_of_tag (i : nat) (acts : list Action) (x : nat * Action) :
  x ∈ tag i acts -> x.1 = i.
Proof. unfold tag. rewrite list_elem_of_fmap. now intros (a & -> & _). Qed.

Section MachineFacts.
Context {A : Type}.
Variable launch_attempt : nat -> A * list Action.
Variable resume_attempt : nat -> A -> Event -> A * list Action.
Variable is_settled : A -> bool.

Lemma spawn_attempts (st : State A) (i : nat) :
  attempts (spawn launch_attempt st i) = attempts st ++ [(launch_attempt i).1].
Proof. unfold spawn. now destruct (launch_attempt i). Qed.

Lemma spawn_results (st : State A) (i : nat) :
  results (spawn launch_attempt st i)
  = foldl apply_action (results st) (launch_attempt i).2.
Proof. unfold spawn. now destruct (launch_attempt i). Qed.

Lemma spawn_log (st : State A) (i : nat) :
  log (spawn launch_attempt st i) = log st ++ tag i (launch_attempt i).2.
Proof. unfold spawn. now destruct (launch_attempt i). Qed.

(** An event for an index outside the array changes nothing; otherwise
    the addressed attempt runs to its next [await]. *)
Lemma step_cases (st : State A) (ev : Event) :
  (attempts st !! target ev = None /\ step resume_attempt st ev = st) \/
  (exists a a' acts,
      attempts st !! target ev = Some a /\
      resume_attempt (target ev) a ev = (a', acts) /\
      step resume_attempt st ev
      = mkState (<[target ev := a']> (attempts st))
                (foldl apply_action (results st) acts)
                (log st ++ tag (target ev) acts)).
Proof.
  unfold step. destruct (attempts st !! target ev) as [a|] eqn:E.
  - right. destruct (resume_attempt (target ev) a ev) as [a' acts] eqn:R.
    exists a, a', acts. auto.
  - left. auto.
Qed.

Lemma step_length (st : State A) (ev : Event) :
  length (attempts (step resume_attempt st ev)) = length (attempts st).
Proof.
  destruct (step_cases st ev) as [[_ ->]|(a & a' & acts & _ & _ & ->)];
    [reflexivity|]. simpl. apply length_insert.
Qed.

(** The induction principle of the machine: a property of the empty
    state that the loop body keeps when it spawns the next index, and
    that every event keeps, holds after the loop and any events. *)
Section Invariant.
Variable Inv : State A -> Prop.
Hypothesis Inv_spawn :
  forall st, Inv st -> Inv (spawn launch_attempt st (length (attempts st))).
Hypothesis Inv_step : forall st ev, Inv st -> Inv (step resume_attempt st ev).

Lemma spawn_loop_inv (n : nat) (st : State A) :
  Inv st ->
  Inv (foldl (spawn launch_attempt) st (seq (length (attempts st)) n)).
Proof.
  revert st. induction n as [|n IH]; intros st H; [exact H|].
  cbn [seq foldl].
  replace (S (length (attempts st)))
    with (length (attempts (spawn launch_attempt st (length (attempts st))))).
  - apply IH, Inv_spawn, H.
  - rewrite spawn_attempts, length_app. simpl. lia.
Qed.

Lemma steps_inv (evs : list Event) (st : State A) :
  Inv st -> Inv (foldl (step resume_attempt) st evs).
Proof.
  revert st. induction evs as [|ev evs IH]; intros st H; [exact H|].
  simpl. apply IH, Inv_step, H.
Qed.

Lemma trace_inv (total : Z) (r : Results) (evs : list Event) :
  Inv (init_state r) ->
  Inv (foldl (step resume_attempt)
         (spawn_all launch_attempt total (init_state r)) evs).
Proof.
  intros H. apply steps_inv. unfold spawn_all.
  change 0%nat with (length (attempts (@init_state A r))).
  now apply spawn_loop_inv.
Qed.
End Invariant.

(** The array has one promise per loop iteration. *)
Lemma trace_length (total : Z) (r : Results) (evs : list Event) :
  length (attempts (foldl (step resume_attempt)
                      (spawn_all launch_attempt total (init_state r)) evs))
  = Z.to_nat total.
Proof.
  assert (forall n (st : State A),
    length (attempts (foldl (spawn launch_attempt) st
                        (seq (length (attempts st)) n)))
    = (length (attempts st) + n)%nat) as Hloop.
  { induction n as [|n IH]; intros st; [simpl; lia|].
    cbn [seq foldl].
    replace (S (length (attempts st)))
      with (length (attempts (spawn launch_attempt st (length (attempts st)))))
      by (rewrite spawn_attempts, length_app; simpl; lia).
    rewrite IH, spawn_attempts, length_app. simpl. lia. }
  assert (forall evs (st : State A),
    length (attempts (foldl (step resume_attempt) st evs))
    = length (attempts st)) as Hsteps.
  { clear. induction evs as [|ev evs IH]; intros st; [reflexivity|].
    simpl. now rewrite IH, step_length. }
  rewrite Hsteps. unfold spawn_all.
  change 0%nat with (length (attempts (@init_state A r))) at 1.
  now rewrite Hloop.
Qed.

(** The [results] object is the fold of the log. *)
Lemma trace_results (total : Z) (r : Results) (evs : list Event) :
  let st := foldl (step resume_attempt)
              (spawn_all launch_attempt total (init_state r)) evs in
  results st = foldl apply_action r (log st).*2.
Proof.
  apply (trace_inv (fun st => results st = foldl apply_action r (log st).*2)).
  - intros st H. rewrite spawn_results, spawn_log, fmap_app, tag_snd, foldl_app.
    now rewrite H.
  - intros st ev H.
    destruct (step_cases st ev) as [[_ ->]|(a & a' & acts & _ & _ & ->)];
      [assumption|].
    simpl. now rewrite fmap_app, tag_snd, foldl_app, H.
  - reflexivity.
Qed.

(** Every attempt in the array is in a state it can reach on its own,
    with its own actions in the log. *)
Lemma trace_reach (total : Z) (r : Results) (evs : list Event) :
  let st := foldl (step resume_attempt)
              (spawn_all launch_attempt total (init_state r)) evs in
  forall i a, attempts st !! i = Some a ->
    reach (launch_attempt i) (resume_attempt i) a (actions_of i (log st)).
Proof.
  cbv zeta.
  apply (trace_inv (fun st =>
    (forall x, x ∈ log st -> (x.1 < length (attempts st))%nat) /\
    forall i a, attempts st !! i = Some a ->
      reach (launch_attempt i) (resume_attempt i) a (actions_of i (log st)))).
  - intros st [Hb Hr]. split.
    + intros x. rewrite spawn_log, spawn_attempts, length_app, elem_of_app.
      simpl. intros [Hx|Hx].
      * specialize (Hb x Hx). lia.
      * apply elem_of_tag in Hx. lia.
    + intros i a. rewrite spawn_attempts, spawn_log, actions_of_app.
      intros Hi. apply lookup_app_Some in Hi as [Hi|[Hlen Hi]].
      * rewrite actions_of_tag_other, app_nil_r; [now apply Hr|].
        apply lookup_lt_Some in Hi. lia.
      * apply list_lookup_singleton_Some in Hi as [Hi <-].
        assert (i = length (attempts st)) as -> by lia.
        rewrite actions_of_fresh by assumption.
        rewrite actions_of_tag_same. simpl.
        apply reach_launch. now destruct (launch_attempt _).
  - intros st ev [Hb Hr].
    destruct (step_cases st ev) as [[_ ->]|(a & a' & acts & Ha & Hres & ->)];
      [now split|].
    simpl. split.
    + intros x. rewrite length_insert, elem_of_app. intros [Hx|Hx].
      * now apply Hb.
      * apply elem_of_tag in Hx. rewrite Hx. now apply lookup_lt_Some in Ha.
    + intros i b Hi. rewrite actions_of_app.
      destruct (decide (i = target ev)) as [->|Hne].
      * rewrite list_lookup_insert_eq in Hi by (now apply lookup_lt_Some in Ha).
        injection Hi as <-. rewrite actions_of_tag_same.
        eapply reach_resume; [apply Hr, Ha | exact Hres].
      * rewrite list_lookup_insert_ne in Hi by congruence.
        rewrite actions_of_tag_other, app_nil_r by congruence. now apply Hr.
  - split; [intros x Hx; inversion Hx | intros i a Hi; discriminate].
Qed.

(** Whatever each spawned attempt starts as also holds of it in the
    array after the loop. *)
Lemma spawned_lookup (P : nat -> A -> Prop) (total : Z) (r : Results) :
  (forall i, P i (launch_attempt i).1) ->
  forall i a,
    attempts (spawn_all launch_attempt total (init_state r)) !! i = Some a ->
    P i a.
Proof.
  intros HP. unfold spawn_all.
  assert (forall n (st : State A),
    (forall i a, attempts st !! i = Some a -> P i a) ->
    forall i a,
      attempts (foldl (spawn launch_attempt) st (seq (length (attempts st)) n))
        !! i = Some a -> P i a) as Hloop.
  { induction n as [|n IH]; intros st Hst; [exact Hst|].
    cbn [seq foldl].
    replace (S (length (attempts st)))
      with (length (attempts (spawn launch_attempt st (length (attempts st)))))
      by (rewrite spawn_attempts, length_app; simpl; lia).
    apply IH. intros i a. rewrite spawn_attempts.
    intros Hi. apply lookup_app_Some in Hi as [Hi|[Hlen Hi]]; [now apply Hst|].
    apply list_lookup_singleton_Some in Hi as [Hi <-].
    assert (i = length (attempts st)) as -> by lia. apply HP. }
  apply (Hloop (Z.to_nat total) (init_state r)).
  intros i a Hi. discriminate.
Qed.

(** [Promise.allSettled] hands over a state of the trace in which all
    promises are settled, and does so as soon as there is one. *)
Lemma await_all_trace (sched : list Event) (st st' : State A) :
  await_all resume_attempt is_settled st sched = Some st' ->
  all_settled is_settled st' = true /\
  exists evs, st' = foldl (step resume_attempt) st evs.
Proof.
  revert st. induction sched as [|ev sched IH]; intros st; simpl.
  - destruct (all_settled is_settled st) eqn:E; [|discriminate].
    intros [= <-]. split; [assumption|]. now exists [].
  - destruct (all_settled is_settled st) eqn:E.
    + intros [= <-]. split; [assumption|]. now exists [].
    + intros H. apply IH in H as [Hs [evs ->]]. split; [assumption|].
      now exists (ev :: evs).
Qed.

Lemma await_all_settled (st : State A) (sched : list Event) :
  all_settled is_settled st = true ->
  await_all resume_attempt is_settled st sched = Some st.
Proof. intros H. destruct sched; simpl; now rewrite H. Qed.

Lemma await_all_complete (sched : list Event) (st : State A) :
  all_settled is_settled (foldl (step resume_attempt) st sched) = true ->
  exists st', await_all resume_attempt is_settled st sched = Some st'.
Proof.
  revert st. induction sched as [|ev sched IH]; intros st H; simpl in *.
  - rewrite H. eauto.
  - destruct (all_settled is_settled st); eauto.
Qed.

(** Accounting: when every attempt state carries the number of
    outcomes it has counted, the log holds as many outcomes as the
    array says. *)
Section Weights.
Variable weight : A -> nat.
Hypothesis weight_launch :
  forall i, length (outcomes (launch_attempt i).2) = weight (launch_attempt i).1.
Hypothesis weight_resume :
  forall i a ev,
    weight (resume_attempt i a ev).1
    = (weight a + length (outcomes (resume_attempt i a ev).2))%nat.

Lemma sum_insert (l : list A) (i : nat) (a a' : A) :
  l !! i = Some a ->
  (sum_list_with weight (<[i := a']> l) + weight a
   = sum_list_with weight l + weight a')%nat.
Proof.
  revert i. induction l as [|x l IH]; intros i H; [discriminate|].
  destruct i as [|i]; simpl in *.
  - injection H as ->. lia.
  - specialize (IH i H). lia.
Qed.

Lemma trace_outcomes (total : Z) (r : Results) (evs : list Event) :
  let st := foldl (step resume_attempt)
              (spawn_all launch_attempt total (init_state r)) evs in
  length (outcomes (log st).*2) = sum_list_with weight (attempts st).
Proof.
  apply (trace_inv (fun st =>
    length (outcomes (log st).*2) = sum_list_with weight (attempts st))).
  - intros st H.
    rewrite spawn_log, spawn_attempts, fmap_app, tag_snd, outcomes_app,
      length_app, sum_list_with_app, H, weight_launch.
    simpl. lia.
  - intros st ev H.
    destruct (step_cases st ev) as [[_ ->]|(a & a' & acts & Ha & Hres & ->)];
      [assumption|].
    simpl. rewrite fmap_app, tag_snd, outcomes_app, length_app, H.
    pose proof (sum_insert (attempts st) (target ev) a a' Ha) as Hs.
    pose proof (weight_resume (target ev) a ev) as Hw.
    rewrite Hres in Hw. simpl in Hw. lia.
  - reflexivity.
Qed.
End Weights.

(** Progress of one attempt: a measure that no event increases and
    that every settlement of its promise decreases is used up by
    enough settlements.  [good] is what is known of the attempt's
    states. *)
Section Progress.
Variable rank : A -> nat.
Variable good : A -> Prop.
Variable i : nat.
Hypothesis good_event :
  forall a ev, good a -> good (resume_attempt i a ev).1.
Hypothesis rank_event :
  forall a ev, (rank (resume_attempt i a ev).1 <= rank a)%nat.
Hypothesis rank_settle :
  forall a, good a ->
    (rank (resume_attempt i a (Settle i)).1 <= pred (rank a))%nat.

Lemma rank_steps (evs : list Event) (st : State A) (a0 : A) :
  attempts st !! i = Some a0 -> good a0 ->
  exists a, attempts (foldl (step resume_attempt) st evs) !! i = Some a /\
    (rank a <= rank a0 - length (filter (fun ev => ev = Settle i) evs))%nat.
Proof.
  revert st a0. induction evs as [|ev evs IH]; intros st a0 H0 G0.
  - exists a0. split; [assumption|]. simpl. lia.
  - cbn [foldl].
    destruct (step_cases st ev) as [[Hn ->]|(a & a' & acts & Ha & Hres & ->)].
    + destruct (IH st a0 H0 G0) as (a & Ha & Hle). exists a. split; [assumption|].
      rewrite filter_cons_False; [assumption|].
      intros ->. simpl in Hn. congruence.
    + destruct (decide (target ev = i)) as [Ht|Ht].
      * rewrite Ht in *. assert (a = a0) as -> by congruence.
        pose proof (good_event a0 ev G0) as G'. rewrite Hres in G'. simpl in G'.
        destruct (IH (mkState (<[i := a']> (attempts st))
                        (foldl apply_action (results st) acts)
                        (log st ++ tag i acts)) a') as (a & Hl & Hle);
          [|assumption|].
        { simpl. apply list_lookup_insert_eq. now apply lookup_lt_Some in H0. }
        exists a. split; [assumption|].
        pose proof (rank_event a0 ev) as He. rewrite Hres in He. simpl in He.
        destruct (decide (ev = Settle i)) as [->|Hne].
        -- rewrite filter_cons_True by reflexivity.
           pose proof (rank_settle a0 G0) as Hs. rewrite Hres in Hs.
           simpl in Hs. simpl. lia.
        -- rewrite filter_cons_False by assumption. lia.
      * destruct (IH (mkState (<[target ev := a']> (attempts st))
                        (foldl apply_action (results st) acts)
                        (log st ++ tag (target ev) acts)) a0) as (b & Hl & Hle);
          [|assumption|].
        { simpl. now rewrite list_lookup_insert_ne. }
        exists b. split; [assumption|].
        rewrite filter_cons_False; [assumption|].
        intros ->. now apply Ht.
Qed.
End Progress.
End MachineFacts.

(** ** One attempt of [run] *)

Lemma outcomes_cons (a : Action) (l : list Action) :
  outcomes (a :: l)
  = match recorded a with Some o => o :: outcomes l | None => outcomes l end.
Proof. reflexivity. Qed.

Lemma finally_block_outcomes (b : Behavior) (client rethrow : bool) :
  outcomes (finally_block b client rethrow).2 = [] /\
  counted (finally_block b client rethrow).1 = 1%nat.
Proof.
  unfold finally_block. destruct client; [split_call (cleanup b)|destruct rethrow];
    simpl; auto.
Qed.

Lemma catch_block_outcomes (b : Behavior) (client : bool) (e : Thrown) :
  outcomes (catch_block b client e).2 = [Failure e] /\
  counted (catch_block b client e).1 = 1%nat.
Proof.
  unfold catch_block.
  pose proof (finally_block_outcomes b client (is_nullish e)) as [Ho Hc].
  destruct (finally_block b client (is_nullish e)) as [a acts]. cbn [fst snd] in *.
  rewrite outcomes_cons. cbn [recorded]. now rewrite Ho.
Qed.

Lemma success_path_outcomes (b : Behavior) (client : bool) :
  outcomes (success_path b client).2 = [Success (durationMs (elapsed_ns b))] /\
  counted (success_path b client).1 = 1%nat.
Proof.
  unfold success_path.
  pose proof (finally_block_outcomes b client false) as [Ho Hc].
  destruct (finally_block b client false) as [a acts]. cbn [fst snd] in *.
  rewrite outcomes_cons. cbn [recorded]. now rewrite Ho.
Qed.

Lemma await_call_counted (b : Behavior) (client : bool) (op : Op)
    (res : CallResult) (p : Phase) :
  p <> AwaitCleanup ->
  length (outcomes (await_call b client op res p).2)
  = counted (await_call b client op res p).1.
Proof.
  intros Hp. unfold await_call. split_call res;
    try (destruct p; simpl; congruence).
  pose proof (catch_block_outcomes b client e) as [Ho Hc].
  destruct (catch_block b client e) as [a acts]. cbn [fst snd] in *.
  rewrite outcomes_cons. cbn [recorded]. now rewrite Ho, Hc.
Qed.

Lemma launch_counted (db : Driver) (b : Behavior) :
  length (outcomes (launch db b).2) = counted (launch db b).1.
Proof.
  unfold launch.
  assert (forall c, length (outcomes (await_call b c OpConnect (connect b) AwaitConnect).2)
                    = counted (await_call b c OpConnect (connect b) AwaitConnect).1) as Hc
    by (intros c; now apply await_call_counted).
  destruct db; try apply Hc.
  all: destruct (construct b) as [e|].
  all: try (pose proof (catch_block_outcomes b false e) as [Ho Hk];
            destruct (catch_block b false e) as [a acts]; cbn [fst snd] in *;
            rewrite outcomes_cons; cbn [recorded]; now rewrite Ho, Hk).
  all: specialize (Hc true);
    destruct (await_call b true OpConnect (connect b) AwaitConnect) as [a acts];
    cbn [fst snd] in *; now rewrite outcomes_cons.
Qed.

Lemma resume_counted (timeoutMs : Z) (b : Behavior) (a : Attempt) (ev : Event) :
  counted (resume timeoutMs b a ev).1
  = (counted a + length (outcomes (resume timeoutMs b a ev).2))%nat.
Proof.
  destruct a as [[| | |] c r| |], ev as [i|i t]; simpl; try reflexivity.
  - split_call (connect b); simpl; try reflexivity.
    + now rewrite await_call_counted.
    + now destruct (catch_block_outcomes b c e) as [-> ->].
  - destruct (timer_delay timeoutMs <=? t); simpl; try reflexivity.
    now destruct (catch_block_outcomes b c TimeoutError) as [-> ->].
  - split_call (roundTrip b); simpl; try reflexivity.
    + now rewrite await_call_counted.
    + now destruct (catch_block_outcomes b c e) as [-> ->].
  - split_call (close b); simpl; try reflexivity.
    + now destruct (success_path_outcomes b c) as [-> ->].
    + now destruct (catch_block_outcomes b c e) as [-> ->].
  - split_call (cleanup b); destruct r; simpl; reflexivity.
Qed.

Lemma settled_counted (l : list Attempt) :
  forallb attempt_settled l = true -> sum_list_with counted l = length l.
Proof.
  induction l as [|a l IH]; simpl; [reflexivity|].
  intros H. apply andb_prop in H as [Ha Hl]. rewrite IH by assumption.
  destruct a as [p c r| |]; simpl in *; [discriminate|lia|lia].
Qed.

(** The state [Promise.allSettled] hands over is a state of the trace. *)
Lemma run_state_trace db total timeoutMs adapter env sched st :
  run_state db total timeoutMs adapter env sched = Some st ->
  forallb attempt_settled (attempts st) = true /\
  exists evs, st = run_trace db total timeoutMs adapter env evs.
Proof. intros H. apply await_all_trace in H. exact H. Qed.

Lemma run_trace_results db total timeoutMs adapter env evs :
  let st := run_trace db total timeoutMs adapter env evs in
  results st = foldl apply_action (init_results db total env) (log st).*2.
Proof. apply trace_results. Qed.

(** [run] accounts for every attempt exactly once. *)
Lemma run_accounting db total timeoutMs adapter env sched st :
  run_state db total timeoutMs adapter env sched = Some st ->
  successful (results st) + failed (results st) = Z.max 0 total.
Proof.
  intros H. apply run_state_trace in H as [Hs [evs ->]].
  rewrite run_trace_results, fold_counted. simpl.
  unfold run_trace in *.
  rewrite (trace_outcomes _ _ counted
             (fun i => launch_counted db (adapter i))
             (fun i a ev => resume_counted timeoutMs (adapter i) a ev)).
  rewrite settled_counted by assumption.
  rewrite trace_length. lia.
Qed.

(** ** The shape of an attempt's log *)

Lemma finally_block_inv db b (c r : bool) (o : Outcome) (acts : list Action) :
  outcomes acts = [] -> (c = true <-> has_handle db b acts) ->
  outcome_ok db b o ->
  attempt_inv db b (finally_block b c r).1
    (acts ++ ARecord o :: (finally_block b c r).2).
Proof.
  intros Hno Hc Hok. unfold finally_block. destruct c.
  - assert (has_handle db b acts) as Hh by now apply Hc.
    split_call (cleanup b); cbn [fst snd attempt_inv].
    2-4: exists acts, o; now repeat split.
    exists acts, o, [ACall OpClose]. repeat split; try assumption; try reflexivity.
    + intros _. now exists [].
    + intros Hn. contradiction.
  - assert (~ has_handle db b acts) as Hh by (intros Hh; apply Hc in Hh; discriminate).
    destruct r; cbn [fst snd completion attempt_inv];
      exists acts, o, [ASample (rss b)]; repeat split; try assumption;
      try reflexivity; intros Hx; contradiction.
Qed.

Lemma catch_block_inv db b (c : bool) (e : Thrown) (acts : list Action) :
  outcomes acts = [] -> (c = true <-> has_handle db b acts) ->
  e = TimeoutError \/ try_error db b e ->
  attempt_inv db b (catch_block b c e).1 (acts ++ (catch_block b c e).2).
Proof.
  intros Hno Hc He.
  pose proof (finally_block_inv db b c (is_nullish e) (Failure e) acts Hno Hc He) as H.
  unfold catch_block. now destruct (finally_block b c (is_nullish e)).
Qed.

Lemma has_handle_call db b (acts : list Action) (op : Op) :
  op <> OpRoundTrip ->
  has_handle db b (acts ++ [ACall op]) <-> has_handle db b acts.
Proof.
  intros Hop. unfold has_handle. rewrite elem_of_app, list_elem_of_singleton.
  split; [intros [H|[H|H]]|intros [H|H]]; auto. congruence.
Qed.

Lemma outcomes_call (acts : list Action) (op : Op) :
  outcomes (acts ++ [ACall op]) = outcomes acts.
Proof. rewrite outcomes_app. simpl. apply app_nil_r. Qed.

Lemma await_call_inv db b (c : bool) (op : Op) (res : CallResult) (p : Phase)
    (acts : list Action) :
  p <> AwaitCleanup ->
  outcomes acts = [] ->
  (c = true <-> has_handle db b (acts ++ [ACall op])) ->
  passed db b p ->
  (forall e, res = Throws e -> try_error db b e) ->
  attempt_inv db b (await_call b c op res p).1
    (acts ++ (await_call b c op res p).2).
Proof.
  intros Hp Hno Hc Hpass He. unfold await_call.
  assert (outcomes (acts ++ [ACall op]) = []) as Hno' by now rewrite outcomes_call.
  split_call res;
    [| cbn [fst snd]; destruct p; try congruence; cbn [attempt_inv];
       (split; [assumption | split; assumption]) ..].
  pose proof (catch_block_inv db b c e (acts ++ [ACall op]) Hno' Hc
                (or_intror (He e eq_refl))) as H.
  destruct (catch_block b c e) as [a f]. cbn [fst snd] in *.
  now rewrite <- app_assoc in H.
Qed.

Lemma launch_inv db b : attempt_inv db b (launch db b).1 (launch db b).2.
Proof.
  unfold launch.
  assert (forall e, connect b = Throws e -> try_error db b e) as Hconn
    by (intros e H; right; left; now left).
  destruct db.
  - (* postgres *)
    destruct (construct b) as [e|] eqn:Hc.
    + pose proof (catch_block_inv postgres b false e [ACall OpConstruct]) as H.
      destruct (catch_block b false e) as [a f]. apply H; [reflexivity| |].
      * split; [discriminate|]. intros [[_ Hn]|Hin]; [congruence|].
        apply list_elem_of_singleton in Hin. discriminate.
      * right. left. split; [discriminate|assumption].
    + pose proof (await_call_inv postgres b true OpConnect (connect b) AwaitConnect
                    [ACall OpConstruct]) as H.
      destruct (await_call b true OpConnect (connect b) AwaitConnect) as [a f].
      apply H; try easy.
      split; [intros _; left; split; [discriminate|assumption]|reflexivity].
  - (* mysql *)
    pose proof (await_call_inv mysql b false OpConnect (connect b) AwaitConnect []) as H.
    apply H; try easy.
    split; [discriminate|]. intros [[Hn _]|Hin]; [congruence|].
    apply list_elem_of_singleton in Hin. discriminate.
  - (* mongodb *)
    destruct (construct b) as [e|] eqn:Hc.
    + pose proof (catch_block_inv mongodb b false e [ACall OpConstruct]) as H.
      destruct (catch_block b false e) as [a f]. apply H; [reflexivity| |].
      * split; [discriminate|]. intros [[_ Hn]|Hin]; [congruence|].
        apply list_elem_of_singleton in Hin. discriminate.
      * right. left. split; [discriminate|assumption].
    + pose proof (await_call_inv mongodb b true OpConnect (connect b) AwaitConnect
                    [ACall OpConstruct]) as H.
      destruct (await_call b true OpConnect (connect b) AwaitConnect) as [a f].
      apply H; try easy.
      split; [intros _; left; split; [discriminate|assumption]|reflexivity].
Qed.

Lemma resume_inv db timeoutMs b (a : Attempt) (ev : Event) (acts : list Action) :
  attempt_inv db b a acts ->
  attempt_inv db b (resume timeoutMs b a ev).1
    (acts ++ (resume timeoutMs b a ev).2).
Proof.
  intros H.
  assert (forall a0, a0 = a -> attempt_inv db b (a0, @nil Action).1 (acts ++ (a0, @nil Action).2))
    as Hsame by (intros a0 ->; cbn [fst snd]; now rewrite app_nil_r).
  destruct a as [[| | |] c r| |], ev as [i|i t]; cbn [resume];
    try (now apply Hsame).
  - (* connect settles *)
    destruct H as (Hno & Hc & Hcons & _).
    destruct (connect b) as [e| |e|] eqn:Econn; try (now apply Hsame).
    + apply await_call_inv; try easy.
      * split; [intros _; right|reflexivity].
        apply elem_of_app. right. now apply list_elem_of_singleton.
      * intros e' He'. right. right. left. now left.
    + apply catch_block_inv; try assumption.
      right. right. left. now right.
  - (* the timer fires first *)
    destruct H as (Hno & Hc & _).
    destruct (timer_delay timeoutMs <=? t); [|now apply Hsame].
    apply catch_block_inv; try assumption. now left.
  - (* the round trip settles *)
    destruct H as (Hno & Hc & Hcons & Hconn).
    destruct (roundTrip b) as [e| |e|] eqn:Ert; try (now apply Hsame).
    + apply await_call_inv; try easy.
      * now rewrite has_handle_call.
      * intros e' He'. right. right. right. now left.
    + apply catch_block_inv; try assumption.
      right. right. right. left. now right.
  - (* the close of the try settles *)
    destruct H as (Hno & Hc & Hcons & Hconn & Hrt).
    destruct (close b) as [e| |e|] eqn:Ecl; try (now apply Hsame).
    + pose proof (finally_block_inv db b c false
                    (Success (durationMs (elapsed_ns b))) acts Hno Hc) as Hf.
      unfold success_path. destruct (finally_block b c false) as [a f].
      apply Hf. split; [|reflexivity]. now repeat split.
    + apply catch_block_inv; try assumption.
      right. right. right. right. now right.
  - (* the close of the finally settles *)
    destruct H as (pre & o & -> & Hno & Hok & Hh).
    assert (attempt_inv db b (completion r)
              ((pre ++ [ARecord o; ACall OpClose]) ++ [ASample (rss b)])) as Hdone.
    { rewrite <- app_assoc.
      destruct r; cbn [completion attempt_inv];
        exists pre, o, [ACall OpClose; ASample (rss b)];
        (repeat split; try assumption; try reflexivity;
         [intros _; eauto | intros Hn; contradiction]). }
    split_call (cleanup b); try (now apply Hsame); exact Hdone.
Qed.

(** Every attempt of [run] keeps the shape, whatever the events. *)
Lemma reach_inv db timeoutMs b (a : Attempt) (acts : list Action) :
  reach (launch db b) (resume timeoutMs b) a acts -> attempt_inv db b a acts.
Proof.
  induction 1 as [a acts Hl | a acts ev a' acts' _ IH Hr].
  - pose proof (launch_inv db b) as H. now rewrite Hl in H.
  - pose proof (resume_inv db timeoutMs b a ev acts IH) as H. now rewrite Hr in H.
Qed.

Lemma run_trace_inv db total timeoutMs adapter env evs i a :
  attempts (run_trace db total timeoutMs adapter env evs) !! i = Some a ->
  attempt_inv db (adapter i) a
    (actions_of i (log (run_trace db total timeoutMs adapter env evs))).
Proof.
  intros H. eapply reach_inv.
  exact (trace_reach (fun i => launch db (adapter i))
           (fun i a ev => resume timeoutMs (adapter i) a ev)
           total (init_results db total env) evs i a H).
Qed.

(** ** [run] resolves *)

Lemma finally_block_left (b : Behavior) (c r : bool) :
  (awaits_left (finally_block b c r).1 <= 1)%nat.
Proof.
  unfold finally_block. destruct c; [split_call (cleanup b)|destruct r]; simpl; lia.
Qed.

Lemma catch_block_left (b : Behavior) (c : bool) (e : Thrown) :
  (awaits_left (catch_block b c e).1 <= 1)%nat.
Proof.
  unfold catch_block. pose proof (finally_block_left b c (is_nullish e)).
  now destruct (finally_block b c (is_nullish e)).
Qed.

Lemma success_path_left (b : Behavior) (c : bool) :
  (awaits_left (success_path b c).1 <= 1)%nat.
Proof.
  unfold success_path. pose proof (finally_block_left b c false).
  now destruct (finally_block b c false).
Qed.

Lemma await_call_left (b : Behavior) (c : bool) (op : Op) (res : CallResult)
    (p : Phase) :
  (1 <= awaits_left (Waiting p c false))%nat ->
  (awaits_left (await_call b c op res p).1 <= awaits_left (Waiting p c false))%nat.
Proof.
  intros Hp. unfold await_call. split_call res; try (cbn [fst]; lia).
  pose proof (catch_block_left b c e). destruct (catch_block b c e). simpl in *. lia.
Qed.

Lemma resume_left (timeoutMs : Z) (b : Behavior) (a : Attempt) (ev : Event) :
  (awaits_left (resume timeoutMs b a ev).1 <= awaits_left a)%nat.
Proof.
  destruct a as [[| | |] c r| |], ev as [i|i t]; cbn [resume]; try (cbn [fst]; lia).
  - split_call (connect b); try (cbn [fst]; lia).
    + pose proof (await_call_left b true OpRoundTrip (roundTrip b) AwaitRoundTrip).
      simpl in *. lia.
    + pose proof (catch_block_left b c e). simpl. lia.
  - destruct (timer_delay timeoutMs <=? t); [|cbn [fst]; lia].
    pose proof (catch_block_left b c TimeoutError). simpl. lia.
  - split_call (roundTrip b); try (cbn [fst]; lia).
    + pose proof (await_call_left b c OpClose (close b) AwaitClose).
      simpl in *. lia.
    + pose proof (catch_block_left b c e). simpl. lia.
  - split_call (close b); try (cbn [fst]; lia).
    + pose proof (success_path_left b c). simpl. lia.
    + pose proof (catch_block_left b c e). simpl. lia.
  - split_call (cleanup b); destruct r; simpl; lia.
Qed.

Lemma finally_block_pending (b : Behavior) (c r : bool) :
  pending b (finally_block b c r).1.
Proof.
  unfold finally_block. destruct c; [|now destruct r].
  destruct (cleanup b) as [e| |e|] eqn:E; simpl; try easy; intros e'; congruence.
Qed.

Lemma catch_block_pending (b : Behavior) (c : bool) (e : Thrown) :
  pending b (catch_block b c e).1.
Proof.
  unfold catch_block. pose proof (finally_block_pending b c (is_nullish e)).
  now destruct (finally_block b c (is_nullish e)).
Qed.

Lemma await_call_pending (b : Behavior) (c : bool) (op : Op) (res : CallResult)
    (p : Phase) :
  ((forall e, res <> Throws e) -> pending b (Waiting p c false)) ->
  pending b (await_call b c op res p).1.
Proof.
  intros H. unfold await_call. destruct res as [e| |e|] eqn:E;
    try (apply H; intros e'; congruence).
  pose proof (catch_block_pending b c e). now destruct (catch_block b c e).
Qed.

Lemma launch_pending (db : Driver) (b : Behavior) : pending b (launch db b).1.
Proof.
  assert (forall c, pending b (await_call b c OpConnect (connect b) AwaitConnect).1) as H
    by (intros c; now apply await_call_pending).
  unfold launch. destruct db; try apply H.
  all: destruct (construct b) as [e|].
  all: try (pose proof (catch_block_pending b false e); now destruct (catch_block b false e)).
  all: specialize (H true); now destruct (await_call b true OpConnect (connect b) AwaitConnect).
Qed.

Lemma resume_pending (timeoutMs : Z) (b : Behavior) (a : Attempt) (ev : Event) :
  pending b a -> pending b (resume timeoutMs b a ev).1.
Proof.
  intros H.
  destruct a as [[| | |] c r| |], ev as [i|i t]; cbn [resume]; try exact H.
  - split_call (connect b); try exact H.
    + now apply await_call_pending.
    + apply catch_block_pending.
  - destruct (timer_delay timeoutMs <=? t); [apply catch_block_pending|exact H].
  - split_call (roundTrip b); try exact H.
    + now apply await_call_pending.
    + apply catch_block_pending.
  - split_call (close b); try exact H.
    + unfold success_path. pose proof (finally_block_pending b c false).
      now destruct (finally_block b c false).
    + apply catch_block_pending.
  - split_call (cleanup b); try exact H; now destruct r.
Qed.

(** When the driver's promises settle, each settlement moves the
    attempt on. *)
Lemma resume_settle_left (timeoutMs : Z) (b : Behavior) (a : Attempt) (i : nat) :
  responsive b -> pending b a ->
  (awaits_left (resume timeoutMs b a (Settle i)).1 <= pred (awaits_left a))%nat.
Proof.
  intros (Hc & Hr & Hcl & Hf) Hp. unfold settles in *.
  destruct a as [[| | |] c r| |]; cbn [resume pending] in *;
    try (cbn [fst awaits_left]; lia).
  - destruct (connect b) as [e| |e|] eqn:E;
      [now destruct (Hp e) | | | now destruct Hc].
    + pose proof (await_call_left b true OpRoundTrip (roundTrip b) AwaitRoundTrip).
      simpl in *. lia.
    + pose proof (catch_block_left b c e). simpl. lia.
  - destruct (roundTrip b) as [e| |e|] eqn:E;
      [now destruct (Hp e) | | | now destruct Hr].
    + pose proof (await_call_left b c OpClose (close b) AwaitClose).
      simpl in *. lia.
    + pose proof (catch_block_left b c e). simpl. lia.
  - destruct (close b) as [e| |e|] eqn:E;
      [now destruct (Hp e) | | | now destruct Hcl].
    + pose proof (success_path_left b c). simpl. lia.
    + pose proof (catch_block_left b c e). simpl. lia.
  - destruct (cleanup b) as [e| |e|] eqn:E;
      [now destruct (Hp e) | | | now destruct Hf]; destruct r; simpl; lia.
Qed.

Lemma forallb_lookup {X : Type} (f : X -> bool) (l : list X) :
  (forall i x, l !! i = Some x -> f x = true) -> forallb f l = true.
Proof.
  induction l as [|x l IH]; intros H; [reflexivity|]. simpl.
  rewrite (H 0%nat x eq_refl). apply IH. intros i y Hy. exact (H (S i) y Hy).
Qed.

Lemma awaits_left_settled (a : Attempt) :
  awaits_left a = 0%nat -> attempt_settled a = true.
Proof. destruct a as [[| | |] c r| |]; simpl; congruence. Qed.

(** [run] resolves once every attempt has seen its four promises settle,
    provided the driver lets them settle. *)
Lemma run_resolves db total timeoutMs adapter env sched :
  (forall i, (i < Z.to_nat total)%nat -> responsive (adapter i)) ->
  settles_each 4 (Z.to_nat total) sched ->
  exists st, run_state db total timeoutMs adapter env sched = Some st.
Proof.
  intros Hresp Hsched. unfold run_state. apply await_all_complete.
  apply forallb_lookup. intros i a Ha.
  assert (i < Z.to_nat total)%nat as Hi.
  { apply lookup_lt_Some in Ha. now rewrite trace_length in Ha. }
  set (st0 := spawn_all (fun i => launch db (adapter i)) total
                (init_state (init_results db total env))) in *.
  destruct (lookup_lt_is_Some_2 (attempts st0) i) as [a0 Ha0].
  { pose proof (trace_length (fun i => launch db (adapter i))
                  (fun i a ev => resume timeoutMs (adapter i) a ev)
                  total (init_results db total env) []) as Hl.
    simpl in Hl. fold st0 in Hl. now rewrite Hl. }
  destruct (rank_steps (fun i a ev => resume timeoutMs (adapter i) a ev)
              awaits_left (pending (adapter i)) i
              (fun a ev => resume_pending timeoutMs (adapter i) a ev)
              (fun a ev => resume_left timeoutMs (adapter i) a ev)
              (fun a G => resume_settle_left timeoutMs (adapter i) a i (Hresp i Hi) G)
              sched st0 a0 Ha0) as (a' & Ha' & Hle).
  { apply (spawned_lookup (fun i => launch db (adapter i))
             (fun i a => pending (adapter i) a) total
             (init_results db total env)
             (fun i => launch_pending db (adapter i)) i a0 Ha0). }
  assert (a' = a) as -> by congruence.
  apply awaits_left_settled.
  specialize (Hsched i Hi).
  assert (awaits_left a0 <= 4)%nat by (destruct a0 as [[| | |] ? ?| |]; simpl; lia).
  lia.
Qed.

(** ** More on the shared machine *)

Section MachineLog.
Context {A : Type}.
Variable launch_attempt : nat -> A * list Action.
Variable resume_attempt : nat -> A -> Event -> A * list Action.

(** Only attempts in the array write to the log. *)
Lemma trace_log_bounded (total : Z) (r : Results) (evs : list Event) :
  let st := foldl (step resume_attempt)
              (spawn_all launch_attempt total (init_state r)) evs in
  forall x, x ∈ log st -> (x.1 < length (attempts st))%nat.
Proof.
  cbv zeta.
  apply (trace_inv launch_attempt resume_attempt (fun st =>
    forall x, x ∈ log st -> (x.1 < length (attempts st))%nat)).
  - intros st Hb x. rewrite spawn_log, spawn_attempts, length_app, elem_of_app.
    simpl. intros [Hx|Hx].
    + specialize (Hb x Hx). lia.
    + apply elem_of_tag in Hx. lia.
  - intros st ev Hb.
    destruct (step_cases resume_attempt st ev)
      as [[_ ->]|(a & a' & acts & Ha & Hres & ->)]; [assumption|].
    simpl. intros x. rewrite length_insert, elem_of_app. intros [Hx|Hx].
    + now apply Hb.
    + apply elem_of_tag in Hx. rewrite Hx. now apply lookup_lt_Some in Ha.
  - intros x Hx. inversion Hx.
Qed.

(** The machine only looks at what the attempts do. *)
Lemma step_ext (resume' : nat -> A -> Event -> A * list Action) :
  (forall i a ev, resume_attempt i a ev = resume' i a ev) ->
  forall st ev, step resume_attempt st ev = step resume' st ev.
Proof.
  intros E st ev. unfold step.
  destruct (attempts st !! target ev); [|reflexivity]. now rewrite E.
Qed.

Lemma await_all_ext (resume' : nat -> A -> Event -> A * list Action)
    (is_settled : A -> bool) :
  (forall i a ev, resume_attempt i a ev = resume' i a ev) ->
  forall sched st,
    await_all resume_attempt is_settled st sched
    = await_all resume' is_settled st sched.
Proof.
  intros E. induction sched as [|ev sched IH]; intros st; simpl; [reflexivity|].
  destruct (all_settled is_settled st); [reflexivity|].
  now rewrite (step_ext resume' E), IH.
Qed.
End MachineLog.

(** An attempt's log begins with what it did up to its first [await]. *)
Lemma reach_prefix {A : Type} (l0 : A * list Action)
    (res : A -> Event -> A * list Action) (a : A) (acts : list Action) :
  reach l0 res a acts -> exists rest, acts = l0.2 ++ rest.
Proof.
  induction 1 as [a acts Hl | a acts ev a' acts' _ [rest ->] _].
  - exists []. rewrite Hl. simpl. now rewrite app_nil_r.
  - exists (rest ++ acts'). now rewrite app_assoc.
Qed.

(** The outcome in a log with a single outcome. *)
Lemma single_outcome (pre post : list Action) (o o' : Outcome) :
  outcomes pre = [] -> outcomes post = [] ->
  ARecord o' ∈ pre ++ ARecord o :: post -> o' = o.
Proof.
  intros Hpre Hpost Hin.
  assert (o' ∈ outcomes (pre ++ ARecord o :: post)) as H.
  { unfold outcomes. apply list_elem_of_omap. now exists (ARecord o'). }
  rewrite outcomes_app, outcomes_cons, Hpre, Hpost in H. simpl in H.
  now apply list_elem_of_singleton in H.
Qed.

Lemma outcomes_none_elem (acts : list Action) (o : Outcome) :
  outcomes acts = [] -> ARecord o ∉ acts.
Proof.
  intros H Hin.
  assert (o ∈ outcomes acts) as Ho.
  { unfold outcomes. apply list_elem_of_omap. now exists (ARecord o). }
  rewrite H in Ho. inversion Ho.
Qed.

(** ** The timer *)

Lemma timer_delay_nonpositive (timeoutMs : Z) :
  timeoutMs <= 0 -> timer_delay timeoutMs = 1.
Proof.
  intros H. unfold timer_delay.
  destruct (1 <=? timeoutMs) eqn:E; [apply Z.leb_le in E; lia | reflexivity].
Qed.

Lemma resume_nonpositive (timeoutMs : Z) (b : Behavior) (a : Attempt) (ev : Event) :
  timeoutMs <= 0 -> resume timeoutMs b a ev = resume 1 b a ev.
Proof.
  intros H. destruct a as [[| | |] c r| |], ev as [i|i t]; try reflexivity.
  cbn [resume]. now rewrite timer_delay_nonpositive.
Qed.

(** In [run] a deadline that passes while [connect] is pending reaches the
    [catch] block as the TimeoutError of the library. *)
Lemma run_timeout_outcome (timeoutMs : Z) (b : Behavior) (c r : bool) (i : nat) (t : Z) :
  timer_delay timeoutMs <= t ->
  outcomes (resume timeoutMs b (Waiting AwaitConnect c r) (Timer i t)).2
  = [Failure TimeoutError].
Proof.
  intros H. cbn [resume]. apply Z.leb_le in H. rewrite H.
  apply catch_block_outcomes.
Qed.

(** In [testDatabase] it is counted by the handler of the outer promise. *)
Lemma testDatabase_timeout_outcome (b : Behavior) (a : Inner) (i : nat) (t : Z) :
  timer_delay CONNECTION_TIMEOUT_MS <= t ->
  t_step b (mkWrapped a false) (Timer i t) = (mkWrapped a true, [ARecord TimedOut]).
Proof. intros H. cbn [t_step outcome_key outer_settled]. apply Z.leb_le in H. now rewrite H. Qed.

(** ** The states of [testDatabase] *)

Lemma test_state_trace total dbName adapter env sched st :
  test_state total dbName adapter env sched = Some st ->
  forallb outer_settled (attempts st) = true /\
  exists evs, st = test_trace total dbName adapter env evs.
Proof. intros H. apply await_all_trace in H. exact H. Qed.

Lemma test_trace_results total dbName adapter env evs :
  let st := test_trace total dbName adapter env evs in
  results st = foldl apply_action (init_results dbName total env) (log st).*2.
Proof. apply trace_results. Qed.

(** ** The error list of any log *)

Lemma log_errors (r : Results) (acts : list Action) :
  errors r = [] ->
  errors (foldl apply_action r acts) = first_seen (keys acts) /\
  NoDup (errors (foldl apply_action r acts)).
Proof.
  intros H. rewrite fold_errors, H, fold_add_key_nil.
  split; [reflexivity | apply first_seen_NoDup].
Qed.

Lemma recorded_key_elem (acts : list Action) (o : Outcome) (k : JsVal) :
  ARecord o ∈ acts -> outcome_key o = Some k -> k ∈ keys acts.
Proof.
  intros Hin Hk. unfold keys. apply list_elem_of_omap. exists o. split; [|assumption].
  unfold outcomes. apply list_elem_of_omap. now exists (ARecord o).
Qed.

Lemma log_snd_elem (i : nat) (a : Action) (l : list (nat * Action)) :
  (i, a) ∈ l -> a ∈ l.*2.
Proof. intros H. apply list_elem_of_fmap. now exists (i, a). Qed.

Lemma forallb_at {X : Type} (f : X -> bool) (l : list X) (i : nat) (x : X) :
  forallb f l = true -> l !! i = Some x -> f x = true.
Proof.
  revert i. induction l as [|y l IH]; intros i H Hi; [discriminate|].
  simpl in H. apply andb_prop in H as [Hy Hl].
  destruct i as [|i]; simpl in Hi; [now injection Hi as <- | eauto].
Qed.

(** At the join every attempt of [run] has a log of the settled shape. *)
Lemma run_state_attempt db total timeoutMs adapter env sched st (i : nat) :
  run_state db total timeoutMs adapter env sched = Some st ->
  (i < Z.to_nat total)%nat ->
  exists pre o post,
    actions_of i (log st) = pre ++ ARecord o :: post /\
    outcomes pre = [] /\ outcomes post = [] /\
    outcome_ok db (adapter i) o /\
    (has_handle db (adapter i) pre -> exists post', post = ACall OpClose :: post') /\
    (~ has_handle db (adapter i) pre -> post = [ASample (rss (adapter i))]).
Proof.
  intros H Hi. apply run_state_trace in H as [Hs [evs ->]].
  destruct (lookup_lt_is_Some_2
              (attempts (run_trace db total timeoutMs adapter env evs)) i) as [a Ha].
  { unfold run_trace. now rewrite trace_length. }
  pose proof (run_trace_inv db total timeoutMs adapter env evs i a Ha) as Hinv.
  pose proof (forallb_at _ _ _ _ Hs Ha) as Hset.
  destruct a as [p c r| |]; [discriminate|exact Hinv|exact Hinv].
Qed.

(** ** The close of the [finally] *)

(** While an attempt waits for the close of its [finally], no event makes
    it count anything: the counters, the error list and the latencies
    stay as they are, whatever that close does. *)
Lemma cleanup_close_is_silent (timeoutMs : Z) (b : Behavior) (c rethrow : bool)
    (ev : Event) (r : Results) :
  let acts := (resume timeoutMs b (Waiting AwaitCleanup c rethrow) ev).2 in
  outcomes acts = [] /\
  successful (foldl apply_action r acts) = successful r /\
  failed (foldl apply_action r acts) = failed r /\
  errors (foldl apply_action r acts) = errors r /\
  responseTimes (foldl apply_action r acts) = responseTimes r.
Proof.
  cbv zeta.
  assert (forall acts, acts = [] \/ acts = [ASample (rss b)] ->
    outcomes acts = [] /\
    successful (foldl apply_action r acts) = successful r /\
    failed (foldl apply_action r acts) = failed r /\
    errors (foldl apply_action r acts) = errors r /\
    responseTimes (foldl apply_action r acts) = responseTimes r) as H.
  { intros acts [-> | ->]; [now repeat split|].
    split; [reflexivity|]. simpl. apply sample_memory_keeps. }
  apply H. destruct ev as [i|i t]; cbn [resume]; [|now left].
  split_call (cleanup b); cbn [snd]; auto.
Qed.

(** ** Rounding, and the scenarios of the test list *)

Lemma Math_round_nearest (q : Q) :
  (inject_Z (Math_round q) <= q + (1 # 2))%Q /\
  (q + (1 # 2) < inject_Z (Math_round q) + 1)%Q.
Proof.
  unfold Math_round. split.
  - apply Qfloor_le.
  - pose proof (Qlt_floor (q + (1 # 2))) as H.
    rewrite inject_Z_plus in H. exact H.
Qed.

(** The scenarios of the design's test list, on [run]. *)
Example ten_steady_attempts :
  option_map (fun s => (successful (final s), failed (final s), avgResponseTime s))
    (run postgres 10 1000 (fun _ => steady) env0 (flat_map drain (seq 0 10)))
  = Some (10, 0, Number_of_Z 50).
Proof. vm_compute. reflexivity. Qed.

Example three_refused_of_ten :
  option_map (fun s => (successful (final s), failed (final s), errors (final s)))
    (run mongodb 10 1000
       (fun i => if bool_decide (i ∈ [2; 5; 7]%nat) then connect_refused else steady)
       env0 (flat_map drain (seq 0 10)))
  = Some (7, 3, [JStr "ECONNREFUSED"]).
Proof. vm_compute. reflexivity. Qed.

Example five_hanging_connects :
  option_map (fun s => (successful (final s), failed (final s), errors (final s)))
    (run postgres 5 100 (fun _ => unreachable) env0
       (flat_map (fun i => [Timer i 100; Settle i]) (seq 0 5)))
  = Some (0, 5, [JStr "Timeout"]).
Proof. vm_compute. reflexivity. Qed.

(** A round trip that hangs has no deadline: the batch stays pending. *)
Example hanging_round_trip_never_joins :
  run postgres 1 100
    (fun _ => mkBehavior None Resolves Hangs Resolves Resolves 0 0) env0
    [Settle 0; Timer 0 100; Settle 0; Timer 0 100000; Settle 0]
  = None.
Proof. reflexivity. Qed.

(** [testDatabase] returns the [results] object itself, and an attempt
    that outlives its deadline still writes to it: with a single attempt
    the batch joins on the timeout with one failure, and the completion
    that follows adds a success to the object the caller holds. *)
Example late_completion_writes_to_returned_results :
  option_map (fun st => (successful (results st), failed (results st)))
    (test_state 1 postgres (fun _ => steady) env0 [Timer 0 10000])
  = Some (0, 1) /\
  (let st := test_trace 1 postgres (fun _ => steady) env0
               ([Timer 0 10000] ++ three 0%nat) in
   (successful (results st), failed (results st))) = (1, 1).
Proof. split; vm_compute; reflexivity. Qed.

(** ** One attempt at a time *)

Section MachineSolo.
Context {A : Type}.
Variable launch_attempt : nat -> A * list Action.
Variable resume_attempt : nat -> A -> Event -> A * list Action.
Variable is_settled : A -> bool.

(** What the machine holds of attempt [i]: its state and its actions. *)
Lemma step_view (st : State A) (ev : Event) (i : nat) (a : A) :
  attempts st !! i = Some a ->
  attempts (step resume_attempt st ev) !! i
  = Some (if decide (target ev = i) then (resume_attempt i a ev).1 else a) /\
  actions_of i (log (step resume_attempt st ev))
  = actions_of i (log st)
    ++ (if decide (target ev = i) then (resume_attempt i a ev).2 else []).
Proof.
  intros Ha.
  destruct (step_cases resume_attempt st ev)
    as [[Hn ->]|(b & b' & acts & Hb & Hres & ->)].
  - destruct (decide (target ev = i)) as [E|E]; [congruence|].
    now rewrite app_nil_r.
  - simpl. rewrite actions_of_app.
    destruct (decide (target ev = i)) as [E|E].
    + rewrite E in *. assert (b = a) as -> by congruence. rewrite Hres. simpl.
      rewrite list_lookup_insert_eq by (now apply lookup_lt_Some in Ha).
      now rewrite actions_of_tag_same.
    + rewrite list_lookup_insert_ne by assumption.
      now rewrite actions_of_tag_other.
Qed.

Lemma steps_view (evs : list Event) (st : State A) (i : nat) (a : A) :
  attempts st !! i = Some a ->
  let x := foldl (solo_step (resume_attempt i)) (a, actions_of i (log st))
             (events_of i evs) in
  attempts (foldl (step resume_attempt) st evs) !! i = Some x.1 /\
  actions_of i (log (foldl (step resume_attempt) st evs)) = x.2.
Proof.
  revert st a. induction evs as [|ev evs IH]; intros st a Ha; [now split|].
  cbn [foldl]. destruct (step_view st ev i a Ha) as [Hl Hacts].
  specialize (IH _ _ Hl). cbv zeta in IH. rewrite Hacts in IH.
  unfold events_of in *.
  destruct (decide (target ev = i)) as [E|E].
  - rewrite filter_cons_True by assumption. cbn [foldl].
    unfold solo_step at 2 4. cbn [fst snd].
    now destruct (resume_attempt i a ev).
  - rewrite filter_cons_False by assumption. now rewrite app_nil_r in IH.
Qed.

(** After the loop every attempt is as its launch left it. *)
Lemma spawned_view (total : Z) (r : Results) (i : nat) :
  (i < Z.to_nat total)%nat ->
  let st := spawn_all launch_attempt total (init_state r) in
  attempts st !! i = Some (launch_attempt i).1 /\
  actions_of i (log st) = (launch_attempt i).2.
Proof.
  intros Hi. cbv zeta. unfold spawn_all.
  assert (forall n (st : State A),
    (forall x, x ∈ log st -> (x.1 < length (attempts st))%nat) ->
    (forall j, (j < length (attempts st))%nat ->
       attempts st !! j = Some (launch_attempt j).1 /\
       actions_of j (log st) = (launch_attempt j).2) ->
    let st' := foldl (spawn launch_attempt) st (seq (length (attempts st)) n) in
    forall j, (j < length (attempts st) + n)%nat ->
      attempts st' !! j = Some (launch_attempt j).1 /\
      actions_of j (log st') = (launch_attempt j).2) as Hloop.
  { induction n as [|n IH]; intros st Hb Hst; cbv zeta.
    - intros j Hj. apply Hst. lia.
    - cbn [seq foldl].
      replace (S (length (attempts st)))
        with (length (attempts (spawn launch_attempt st (length (attempts st)))))
        by (rewrite spawn_attempts, length_app; simpl; lia).
      intros j Hj. apply IH.
      + intros x. rewrite spawn_log, spawn_attempts, length_app, elem_of_app.
        simpl. intros [Hx|Hx]; [specialize (Hb x Hx); lia|].
        apply elem_of_tag in Hx. lia.
      + intros k Hk. rewrite spawn_attempts, length_app in Hk. simpl in Hk.
        rewrite spawn_attempts, spawn_log, actions_of_app.
        destruct (decide (k = length (attempts st))) as [->|Hne].
        * rewrite lookup_app_r by lia. rewrite Nat.sub_diag. simpl.
          rewrite actions_of_fresh by assumption.
          now rewrite actions_of_tag_same.
        * rewrite lookup_app_l by lia.
          rewrite actions_of_tag_other, app_nil_r by congruence.
          apply Hst. lia.
      + rewrite spawn_attempts, length_app. simpl. lia. }
  apply (Hloop (Z.to_nat total) (init_state r)).
  - intros x Hx. inversion Hx.
  - intros j Hj. simpl in Hj. lia.
  - simpl. lia.
Qed.

(** The attempt in the array is the attempt run alone on its own
    events. *)
Lemma trace_solo (total : Z) (r : Results) (evs : list Event) (i : nat) :
  (i < Z.to_nat total)%nat ->
  let st := foldl (step resume_attempt)
              (spawn_all launch_attempt total (init_state r)) evs in
  let x := solo (launch_attempt i) (resume_attempt i) (events_of i evs) in
  attempts st !! i = Some x.1 /\ actions_of i (log st) = x.2.
Proof.
  intros Hi. cbv zeta.
  destruct (spawned_view total r i Hi) as [Hl Ha].
  pose proof (steps_view evs _ i _ Hl) as H. cbv zeta in H.
  rewrite Ha in H. unfold solo.
  now destruct (launch_attempt i).
Qed.

(** [Promise.allSettled] hands over the state after a prefix of the
    schedule. *)
Lemma await_all_prefix (sched : list Event) (st st' : State A) :
  await_all resume_attempt is_settled st sched = Some st' ->
  all_settled is_settled st' = true /\
  exists evs rest, sched = evs ++ rest /\
    st' = foldl (step resume_attempt) st evs.
Proof.
  revert st. induction sched as [|ev sched IH]; intros st; simpl.
  - destruct (all_settled is_settled st) eqn:E; [|discriminate].
    intros [= <-]. split; [assumption|]. now exists [], [].
  - destruct (all_settled is_settled st) eqn:E.
    + intros [= <-]. split; [assumption|]. now exists [], (ev :: sched).
    + intros H. apply IH in H as [Hs (evs & rest & -> & ->)].
      split; [assumption|]. now exists (ev :: evs), rest.
Qed.

(** Counting actions against the array: a bound from above and one from
    below. *)
Section Measure.
Variable count : Action -> nat.
Variable weight : A -> nat.

Lemma sum_insert_eq (l : list A) (i : nat) (a a' : A) :
  l !! i = Some a ->
  (sum_list_with weight (<[i := a']> l) + weight a
   = sum_list_with weight l + weight a')%nat.
Proof.
  revert i. induction l as [|x l IH]; intros i H; [discriminate|].
  destruct i as [|i]; simpl in *.
  - injection H as ->. lia.
  - specialize (IH i H). lia.
Qed.

Lemma trace_count_le (total : Z) (r : Results) (evs : list Event) :
  (forall i, (sum_list_with count (launch_attempt i).2
              <= weight (launch_attempt i).1)%nat) ->
  (forall i a ev,
     (weight a + sum_list_with count (resume_attempt i a ev).2
      <= weight (resume_attempt i a ev).1)%nat) ->
  let st := foldl (step resume_attempt)
              (spawn_all launch_attempt total (init_state r)) evs in
  (sum_list_with count (log st).*2 <= sum_list_with weight (attempts st))%nat.
Proof.
  intros Hlaunch Hresume.
  apply (trace_inv launch_attempt resume_attempt (fun st =>
    (sum_list_with count (log st).*2 <= sum_list_with weight (attempts st))%nat)).
  - intros st H.
    rewrite spawn_log, spawn_attempts, fmap_app, tag_snd, !sum_list_with_app.
    specialize (Hlaunch (length (attempts st))). simpl. lia.
  - intros st ev H.
    destruct (step_cases resume_attempt st ev)
      as [[_ ->]|(a & a' & acts & Ha & Hres & ->)]; [assumption|].
    simpl. rewrite fmap_app, tag_snd, sum_list_with_app.
    pose proof (sum_insert_eq (attempts st) (target ev) a a' Ha) as Hs.
    pose proof (Hresume (target ev) a ev) as Hw.
    rewrite Hres in Hw. simpl in Hw. lia.
  - simpl. lia.
Qed.

Lemma trace_count_ge (total : Z) (r : Results) (evs : list Event) :
  (forall i, (weight (launch_attempt i).1
              <= sum_list_with count (launch_attempt i).2)%nat) ->
  (forall i a ev,
     (weight (resume_attempt i a ev).1
      <= weight a + sum_list_with count (resume_attempt i a ev).2)%nat) ->
  let st := foldl (step resume_attempt)
              (spawn_all launch_attempt total (init_state r)) evs in
  (sum_list_with weight (attempts st) <= sum_list_with count (log st).*2)%nat.
Proof.
  intros Hlaunch Hresume.
  apply (trace_inv launch_attempt resume_attempt (fun st =>
    (sum_list_with weight (attempts st) <= sum_list_with count (log st).*2)%nat)).
  - intros st H.
    rewrite spawn_log, spawn_attempts, fmap_app, tag_snd, !sum_list_with_app.
    specialize (Hlaunch (length (attempts st))). simpl. lia.
  - intros st ev H.
    destruct (step_cases resume_attempt st ev)
      as [[_ ->]|(a & a' & acts & Ha & Hres & ->)]; [assumption|].
    simpl. rewrite fmap_app, tag_snd, sum_list_with_app.
    pose proof (sum_insert_eq (attempts st) (target ev) a a' Ha) as Hs.
    pose proof (Hresume (target ev) a ev) as Hw.
    rewrite Hres in Hw. simpl in Hw. lia.
  - simpl. lia.
Qed.
End Measure.
End MachineSolo.
(** ** Counting outcomes *)

Lemma outcomes_count (acts : list Action) :
  length (outcomes acts) = sum_list_with outcome_count acts.
Proof.
  induction acts as [|a acts IH]; [reflexivity|].
  rewrite outcomes_cons. destruct a; simpl; now rewrite IH.
Qed.

Lemma latencies_count (acts : list Action) :
  length (latencies acts) = sum_list_with success_count acts.
Proof.
  induction acts as [|a acts IH]; [reflexivity|].
  change (a :: acts) with ([a] ++ acts). rewrite latencies_app, length_app, IH.
  destruct a as [op|[d|e|]|m]; reflexivity.
Qed.

(** Keys come from failures only: keys and latencies together are no
    more than the outcomes. *)
Lemma keys_latencies_le (acts : list Action) :
  (length (keys acts) + length (latencies acts) <= length (outcomes acts))%nat.
Proof.
  induction acts as [|a acts IH]; [simpl; lia|].
  change (a :: acts) with ([a] ++ acts).
  rewrite keys_app, latencies_app, outcomes_app, !length_app.
  destruct a as [op|[d|[|c m]|]|m]; simpl; lia.
Qed.

Lemma first_seen_length (ks : list JsVal) :
  (length (first_seen ks) <= length ks)%nat.
Proof.
  induction ks as [|k ks IH]; simpl; [lia|].
  pose proof (length_filter (fun x => x <> k) (first_seen ks)). lia.
Qed.

(** The counters of any log that starts from fresh counters. *)
Lemma log_counters (r : Results) (acts : list Action) :
  successful r = 0 -> failed r = 0 -> errors r = [] -> responseTimes r = [] ->
  let r' := foldl apply_action r acts in
  successful r' = Z.of_nat (sum_list_with success_count acts) /\
  successful r' + failed r' = Z.of_nat (sum_list_with outcome_count acts) /\
  successful r' = Z.of_nat (length (responseTimes r')) /\
  0 <= failed r' /\
  Z.of_nat (length (errors r')) <= failed r'.
Proof.
  intros Hs Hf He Hr. cbv zeta.
  pose proof (fold_successful acts r) as H1.
  pose proof (fold_counted acts r) as H2.
  pose proof (fold_responseTimes acts r) as H3.
  destruct (log_errors r acts He) as [H4 _].
  pose proof (keys_latencies_le acts) as H5.
  pose proof (first_seen_length (keys acts)) as H6.
  rewrite H3, H4, Hr. simpl.
  rewrite <- outcomes_count, <- latencies_count. lia.
Qed.

(** ** The outcome of an attempt of [run] *)

Lemma deadline_first_stays (delay : Z) (s : bool) (evs rest : list Event) :
  deadline_first delay s evs = true ->
  deadline_first delay s (evs ++ rest) = true.
Proof.
  induction evs as [|[i|i t] evs IH]; simpl; [discriminate| |].
  - destruct s; [discriminate | exact IH].
  - destruct (delay <=? t); simpl; [reflexivity | exact IH].
Qed.

Lemma undecided_app (delay : Z) (s : bool) (evs rest : list Event) :
  undecided delay s evs = true ->
  deadline_first delay s (evs ++ rest) = deadline_first delay s rest /\
  undecided delay s (evs ++ rest) = undecided delay s rest.
Proof.
  induction evs as [|[i|i t] evs IH]; simpl; [auto| |].
  - destruct s; simpl; [discriminate | exact IH].
  - destruct (delay <=? t); simpl; [discriminate | exact IH].
Qed.

Lemma try_outcome_pending (db : Driver) (b : Behavior) :
  connect_pending db b = true ->
  try_outcome db b = phase_outcome b AwaitConnect /\
  forall e, connect b <> Throws e.
Proof.
  unfold connect_pending, try_outcome.
  destruct db, (construct b), (connect b); try discriminate; intros _;
    (split; [reflexivity | discriminate]).
Qed.

(** An attempt that was counted at its launch never waited for its
    connect. *)
Lemma launch_run_inv db timeoutMs b :
  run_inv db timeoutMs b [] (launch db b).
Proof.
  unfold run_inv, launch, await_call, catch_block, finally_block, completion,
    run_outcome, timed_out, connect_pending, try_outcome.
  destruct db, (construct b) as [e0|], (connect b) as [e| |e|] eqn:Ec;
    cbn [fst snd is_nullish]; repeat case_match; simplify_eq;
    cbn [fst snd outcomes omap recorded undecided andb];
    try (repeat split; reflexivity);
    try (eexists; split; [reflexivity|]; intros rest;
         cbn [phase_outcome after_call]; rewrite ?Ec; reflexivity).
Qed.

Lemma timed_out_false db timeoutMs b (evs : list Event) :
  deadline_first (timer_delay timeoutMs) (connect_settles b) evs = false ->
  run_outcome db timeoutMs b evs = try_outcome db b.
Proof. intros H. unfold run_outcome, timed_out. rewrite H, andb_false_r. reflexivity. Qed.

Ltac by_calls :=
  cbn [phase_outcome];
  repeat match goal with
         | H : _ = _ :> CallResult |- _ => rewrite H
         end;
  cbn [after_call]; reflexivity.

Lemma counted_run_inv db timeoutMs b (evs : list Event)
    (x : Attempt * list Action) (acts : list Action) (o : Outcome) :
  outcomes x.2 = [o] /\ counted x.1 = 1%nat ->
  outcomes acts = [] ->
  (forall rest, run_outcome db timeoutMs b (evs ++ rest) = Some o) ->
  run_inv db timeoutMs b evs (let '(a', acts') := x in (a', acts ++ acts')).
Proof.
  destruct x as [a acts']. cbn [fst snd]. intros [Ho Hc] Hacts Hrun.
  unfold run_inv. cbn [fst snd].
  destruct a as [[| | |] c r| |]; try discriminate;
    (exists o; split; [now rewrite outcomes_app, Hacts, Ho | exact Hrun]).
Qed.

Lemma await_call_run_inv db timeoutMs b (evs : list Event) (c : bool)
    (op : Op) (res : CallResult) (p : Phase) (acts : list Action) :
  outcomes acts = [] ->
  (forall e, res = Throws e ->
     forall rest, run_outcome db timeoutMs b (evs ++ rest) = Some (Failure e)) ->
  ((forall e, res <> Throws e) ->
   run_inv db timeoutMs b evs (Waiting p c false, acts ++ [ACall op])) ->
  run_inv db timeoutMs b evs
    (let '(a', acts') := await_call b c op res p in (a', acts ++ acts')).
Proof.
  intros Hacts Hthrow Hwait. unfold await_call.
  destruct res as [e| |e|]; try (apply Hwait; discriminate).
  pose proof (catch_block_outcomes b c e) as [Ho Hc].
  destruct (catch_block b c e) as [a acts'].
  change (a, acts ++ ACall op :: acts')
    with (let '(a', acts'') := (a, ACall op :: acts') in (a', acts ++ acts'')).
  apply counted_run_inv with (Failure e); [|assumption|now apply Hthrow].
  cbn [fst snd] in *. now rewrite outcomes_cons.
Qed.

Lemma solo_step_run_inv db timeoutMs b (evs : list Event)
    (x : Attempt * list Action) (ev : Event) :
  run_inv db timeoutMs b evs x ->
  run_inv db timeoutMs b (evs ++ [ev]) (solo_step (resume timeoutMs b) x ev).
Proof.
  destruct x as [a acts]. unfold solo_step. cbn [fst snd].
  assert (forall a', run_inv db timeoutMs b (evs ++ [ev]) (a', acts) ->
                     run_inv db timeoutMs b (evs ++ [ev]) (a', acts ++ [])) as Hsame
    by (intros a'; now rewrite app_nil_r).
  destruct a as [[| | |] c r| |]; unfold run_inv at 1; cbn [fst snd].
  - (* the raced connect *)
    intros (Hout & Hpend & Hund).
    destruct (try_outcome_pending db b Hpend) as [Htry Hthrow].
    destruct (undecided_app _ _ evs [ev] Hund) as [_ Hund'].
    assert (forall rest,
              deadline_first (timer_delay timeoutMs) (connect_settles b)
                ((evs ++ [ev]) ++ rest)
              = deadline_first (timer_delay timeoutMs) (connect_settles b)
                  (ev :: rest)) as Hdl.
    { intros rest. rewrite <- app_assoc. apply (undecided_app _ _ evs _ Hund). }
    destruct ev as [i|i t]; cbn [resume].
    + destruct (connect b) as [e| |e|] eqn:Ec.
      * now destruct (Hthrow e).
      * assert (forall rest,
                  run_outcome db timeoutMs b ((evs ++ [Settle i]) ++ rest)
                  = try_outcome db b) as Hrun.
        { intros rest. apply timed_out_false. rewrite Hdl. cbn [deadline_first].
          unfold connect_settles. now rewrite Ec. }
        apply await_call_run_inv; [assumption| |].
        -- intros e Er rest. rewrite Hrun, Htry. by_calls.
        -- intros Hr. unfold run_inv. cbn [fst snd].
           rewrite outcomes_call. repeat split; try assumption.
           ++ rewrite Htry. by_calls.
           ++ intros rest. rewrite Hdl. cbn [deadline_first].
              unfold connect_settles. now rewrite Ec.
      * apply (counted_run_inv _ _ _ _ _ _ _ (catch_block_outcomes b c e));
          [assumption|].
        intros rest. rewrite timed_out_false.
        -- rewrite Htry. by_calls.
        -- rewrite Hdl. cbn [deadline_first]. unfold connect_settles. now rewrite Ec.
      * apply Hsame. unfold run_inv. cbn [fst snd].
        repeat split; try assumption. rewrite Hund'. cbn [undecided].
        unfold connect_settles. now rewrite Ec.
    + destruct (timer_delay timeoutMs <=? t) eqn:Et.
      * apply (counted_run_inv _ _ _ _ _ _ _ (catch_block_outcomes b c TimeoutError));
          [assumption|].
        intros rest. unfold run_outcome, timed_out.
        rewrite Hpend, Hdl. cbn [deadline_first]. now rewrite Et.
      * apply Hsame. unfold run_inv. cbn [fst snd].
        repeat split; try assumption. rewrite Hund'. cbn [undecided].
        now rewrite Et.
  - (* the round trip *)
    intros (Hout & Hc & Htry & Hthrow & Hdl).
    assert (forall rest,
              run_outcome db timeoutMs b ((evs ++ [ev]) ++ rest)
              = try_outcome db b) as Hrun.
    { intros rest. apply timed_out_false. rewrite <- app_assoc. apply Hdl. }
    assert (run_inv db timeoutMs b (evs ++ [ev]) (Waiting AwaitRoundTrip c r, acts))
      as Hstay.
    { unfold run_inv. cbn [fst snd]. repeat split; try assumption.
      intros rest. rewrite <- app_assoc. apply Hdl. }
    destruct ev as [i|i t]; cbn [resume]; [|now apply Hsame].
    destruct (roundTrip b) as [e| |e|] eqn:Er.
    + now destruct (Hthrow e).
    + apply await_call_run_inv; [assumption| |].
      * intros e Ecl rest. rewrite Hrun, Htry. by_calls.
      * intros Hcl. unfold run_inv. cbn [fst snd].
        rewrite outcomes_call. repeat split; try assumption.
        -- rewrite Htry. by_calls.
        -- intros rest. rewrite <- app_assoc. apply Hdl.
    + apply (counted_run_inv _ _ _ _ _ _ _ (catch_block_outcomes b c e));
        [assumption|].
      intros rest. rewrite Hrun, Htry. by_calls.
    + now apply Hsame.
  - (* the close of the [try] *)
    intros (Hout & Hc & Htry & Hthrow & Hdl).
    assert (forall rest,
              run_outcome db timeoutMs b ((evs ++ [ev]) ++ rest)
              = try_outcome db b) as Hrun.
    { intros rest. apply timed_out_false. rewrite <- app_assoc. apply Hdl. }
    assert (run_inv db timeoutMs b (evs ++ [ev]) (Waiting AwaitClose c r, acts))
      as Hstay.
    { unfold run_inv. cbn [fst snd]. repeat split; try assumption.
      intros rest. rewrite <- app_assoc. apply Hdl. }
    destruct ev as [i|i t]; cbn [resume]; [|now apply Hsame].
    destruct (close b) as [e| |e|] eqn:Ecl.
    + now destruct (Hthrow e).
    + apply (counted_run_inv _ _ _ _ _ _ _ (success_path_outcomes b c));
        [assumption|].
      intros rest. rewrite Hrun, Htry. by_calls.
    + apply (counted_run_inv _ _ _ _ _ _ _ (catch_block_outcomes b c e));
        [assumption|].
      intros rest. rewrite Hrun, Htry. by_calls.
    + now apply Hsame.
  - (* the close of the [finally] *)
    intros (o & Hout & Hrun).
    assert (forall rest, run_outcome db timeoutMs b ((evs ++ [ev]) ++ rest) = Some o)
      as Hrun' by (intros rest; rewrite <- app_assoc; apply Hrun).
    assert (forall a' m, counted a' = 1%nat ->
              run_inv db timeoutMs b (evs ++ [ev]) (a', acts ++ [ASample m]))
      as Hdone.
    { intros a' m Hc. unfold run_inv. cbn [fst snd].
      destruct a' as [[| | |] c' r'| |]; try discriminate;
        (exists o; split; [rewrite outcomes_app, Hout; reflexivity | exact Hrun']). }
    assert (run_inv db timeoutMs b (evs ++ [ev]) (Waiting AwaitCleanup c r, acts))
      as Hstay by (now exists o).
    destruct ev as [i|i t]; cbn [resume]; [|now apply Hsame].
    destruct (cleanup b); try (now apply Hsame);
      apply Hdone; now destruct r.
  - intros (o & Hout & Hrun). destruct ev; cbn [resume]; apply Hsame;
      (exists o; split; [exact Hout | intros rest; rewrite <- app_assoc; apply Hrun]).
  - intros (o & Hout & Hrun). destruct ev; cbn [resume]; apply Hsame;
      (exists o; split; [exact Hout | intros rest; rewrite <- app_assoc; apply Hrun]).
Qed.

(** After any events an attempt of [run] run on its own is as
    [run_inv] says. *)
Lemma solo_run_inv db timeoutMs b (evs : list Event) :
  run_inv db timeoutMs b evs (solo (launch db b) (resume timeoutMs b) evs).
Proof.
  induction evs as [|ev evs IH] using rev_ind.
  - apply launch_run_inv.
  - unfold solo in *. rewrite foldl_app. cbn [foldl].
    now apply solo_step_run_inv.
Qed.

(** ** The outcomes of an attempt of [testDatabase] *)

Lemma outer_timed_out_app (evs rest : list Event) :
  outer_timed_out evs -> outer_timed_out (evs ++ rest).
Proof.
  intros (i & t & Hin & Ht). exists i, t. split; [|assumption].
  apply elem_of_app. now left.
Qed.

Lemma try_outcome_not_TimedOut db b : try_outcome db b <> Some TimedOut.
Proof.
  unfold try_outcome, phase_outcome, after_call.
  destruct db, (construct b), (connect b), (roundTrip b), (close b); discriminate.
Qed.

(** The inner function leaves its [try]: one outcome more, after the
    timeout if there was one, and the outer promise is settled. *)
Lemma t_finish_test_inv db b (evs : list Event) (outer : bool)
    (acts pre : list Action) (o : Outcome) :
  (TimedOut ∈ outcomes acts -> outer_timed_out evs) ->
  outcomes acts = (if outer then [TimedOut] else []) ->
  outcomes pre = [] ->
  try_outcome db b = Some o ->
  (ACall OpClose ∈ acts ++ pre -> connect b = Resolves /\ roundTrip b = Resolves) ->
  test_inv db b evs
    (mkWrapped Finished (outer || true),
     acts ++ pre ++ [ARecord o; ASample (rss b)]).
Proof.
  intros Htime Hout Hpre Htry Hclose.
  assert (outcomes (acts ++ pre ++ [ARecord o; ASample (rss b)])
          = outcomes acts ++ [o]) as Ho.
  { rewrite !outcomes_app, Hpre. reflexivity. }
  assert (o <> TimedOut) as Hne.
  { intros ->. now apply (try_outcome_not_TimedOut db b). }
  unfold test_inv. cbn [fst snd inner outer_settled]. rewrite Ho. split.
  - intros Hin. apply Htime. apply elem_of_app in Hin as [Hin|Hin]; [assumption|].
    apply list_elem_of_singleton in Hin. congruence.
  - split; [apply orb_true_r|]. exists o. split; [assumption|]. split.
    + rewrite Hout. destruct outer; auto.
    + intros Hin. apply Hclose.
      rewrite app_assoc in Hin. apply elem_of_app in Hin as [Hin|Hin]; [assumption|].
      set_unfold. intuition congruence.
Qed.

(** The inner function goes on to its next [await]. *)
Lemma t_await_test_inv db b (evs : list Event) (outer : bool)
    (acts pre : list Action) (op : Op) (p : Phase) :
  (TimedOut ∈ outcomes acts -> outer_timed_out evs) ->
  outcomes acts = (if outer then [TimedOut] else []) ->
  outcomes pre = [] ->
  try_outcome db b = phase_outcome b p ->
  test_phase b p (acts ++ pre ++ [ACall op]) ->
  (ACall OpClose ∈ acts ++ pre ++ [ACall op] ->
   connect b = Resolves /\ roundTrip b = Resolves) ->
  test_inv db b evs
    (let '(a, acts') := t_await b op (awaited b p) p in
     (mkWrapped a (outer || inner_finished a), acts ++ pre ++ acts')).
Proof.
  intros Htime Hout Hpre Htry Hphase Hclose. unfold t_await.
  destruct (awaited b p) as [e| |e|] eqn:Ea.
  1: { cbn [t_finish inner_finished].
       change (acts ++ pre ++ ACall op :: [ARecord (Failure e); ASample (rss b)])
         with (acts ++ pre ++ [ACall op] ++ [ARecord (Failure e); ASample (rss b)]).
       rewrite (app_assoc pre).
       apply t_finish_test_inv; try assumption;
         try (now rewrite <- app_assoc).
       - now rewrite outcomes_app, Hpre.
       - rewrite Htry. destruct p; cbn [phase_outcome awaited test_phase] in *;
           try contradiction; rewrite Ea; reflexivity. }
  all: cbn [inner_finished]; rewrite orb_false_r;
    unfold test_inv; cbn [fst snd inner outer_settled];
    rewrite !outcomes_app, Hpre; cbn [app];
    change (outcomes [ACall op]) with (@nil Outcome); rewrite app_nil_r;
    (split; [exact Htime|]); (split; [exact Htry|]);
    (split; [intros e'; congruence|]); (split; [exact Hout|]);
    exact Hphase.
Qed.

Lemma t_spawn_test_inv db b : test_inv db b [] (t_spawn db b).
Proof.
  assert (TimedOut ∈ outcomes [] -> outer_timed_out []) as Hnil
    by (intros H; inversion H).
  assert (forall pre, ACall OpClose ∉ [] ++ pre ++ [ACall OpConnect] ->
            ACall OpClose ∈ [] ++ pre ++ [ACall OpConnect] ->
            connect b = Resolves /\ roundTrip b = Resolves) as Habs
    by (intros pre H1 H2; contradiction).
  unfold t_spawn, t_launch, wrap.
  destruct db.
  2: { pose proof (t_await_test_inv mysql b [] false [] [] OpConnect AwaitConnect
                     Hnil eq_refl eq_refl eq_refl) as H.
       cbn [awaited] in H. destruct (t_await b OpConnect (connect b) AwaitConnect).
       apply H; [|apply Habs]; cbn [test_phase]; set_unfold; intuition congruence. }
  all: destruct (construct b) as [e|] eqn:Ec.
  all: try (apply (t_finish_test_inv _ b [] false [] [ACall OpConstruct] (Failure e)
                     Hnil eq_refl eq_refl);
            [unfold try_outcome; now rewrite Ec
            |set_unfold; intuition congruence]).
  - pose proof (t_await_test_inv postgres b [] false [] [ACall OpConstruct]
                  OpConnect AwaitConnect Hnil eq_refl eq_refl) as H.
    cbn [awaited] in H. destruct (t_await b OpConnect (connect b) AwaitConnect).
    apply H; [unfold try_outcome; now rewrite Ec| |apply Habs];
      cbn [test_phase]; set_unfold; intuition congruence.
  - pose proof (t_await_test_inv mongodb b [] false [] [ACall OpConstruct]
                  OpConnect AwaitConnect Hnil eq_refl eq_refl) as H.
    cbn [awaited] in H. destruct (t_await b OpConnect (connect b) AwaitConnect).
    apply H; [unfold try_outcome; now rewrite Ec| |apply Habs];
      cbn [test_phase]; set_unfold; intuition congruence.
Qed.

Lemma solo_step_test_inv db b (evs : list Event)
    (x : Wrapped * list Action) (ev : Event) :
  test_inv db b evs x ->
  test_inv db b (evs ++ [ev]) (solo_step (t_step b) x ev).
Proof.
  destruct x as [[a outer] acts]. unfold solo_step. cbn [fst snd].
  intros [Htime Hinv]. cbn [fst snd inner outer_settled] in *.
  assert (TimedOut ∈ outcomes acts -> outer_timed_out (evs ++ [ev])) as Htime'
    by (intros H; now apply outer_timed_out_app, Htime).
  assert (test_inv db b (evs ++ [ev]) (mkWrapped a outer, acts ++ [])) as Hstay.
  { rewrite app_nil_r. split; assumption. }
  destruct ev as [i|i t]; cbn [t_step outer_settled inner].
  - (* a promise of the driver settles *)
    destruct a as [p|]; [|destruct Hinv as [Ho _]; subst outer; exact Hstay].
    destruct Hinv as (Htry & Hthrow & Hout & Hphase).
    unfold wrap.
    destruct p; cbn [t_resume awaited test_phase] in *; try contradiction.
    + destruct (connect b) as [e| |e|] eqn:Ec;
        try (cbn [inner_finished]; rewrite orb_false_r; exact Hstay).
      * pose proof (t_await_test_inv db b (evs ++ [Settle i]) outer acts []
                      OpRoundTrip AwaitRoundTrip Htime' Hout eq_refl) as H.
        cbn [awaited app] in H.
        destruct (t_await b OpRoundTrip (roundTrip b) AwaitRoundTrip).
        apply H; [rewrite Htry; by_calls| |];
          cbn [test_phase]; set_unfold; intuition congruence.
      * cbn [t_finish inner_finished].
        apply (t_finish_test_inv db b _ outer acts [] (Failure e) Htime' Hout eq_refl);
          [rewrite Htry; by_calls | rewrite app_nil_r; intros Hin; contradiction].
    + destruct Hphase as [Hc Hncl].
      destruct (roundTrip b) as [e| |e|] eqn:Er;
        try (cbn [inner_finished]; rewrite orb_false_r; exact Hstay).
      * pose proof (t_await_test_inv db b (evs ++ [Settle i]) outer acts []
                      OpClose AwaitClose Htime' Hout eq_refl) as H.
        cbn [awaited app] in H.
        destruct (t_await b OpClose (close b) AwaitClose).
        apply H; [rewrite Htry; by_calls| |]; cbn [test_phase]; auto.
      * cbn [t_finish inner_finished].
        apply (t_finish_test_inv db b _ outer acts [] (Failure e) Htime' Hout eq_refl);
          [rewrite Htry; by_calls | rewrite app_nil_r; intros Hin; contradiction].
    + destruct Hphase as [Hc Hr].
      destruct (close b) as [e| |e|] eqn:Ecl;
        try (cbn [inner_finished]; rewrite orb_false_r; exact Hstay).
      * cbn [t_finish inner_finished].
        apply (t_finish_test_inv db b _ outer acts []
                 (Success (durationMs (elapsed_ns b))) Htime' Hout eq_refl);
          [rewrite Htry; by_calls | auto].
      * cbn [t_finish inner_finished].
        apply (t_finish_test_inv db b _ outer acts [] (Failure e) Htime' Hout eq_refl);
          [rewrite Htry; by_calls | auto].
  - (* the timer of the outer promise *)
    destruct outer; [exact Hstay|].
    destruct (timer_delay CONNECTION_TIMEOUT_MS <=? t) eqn:Et; [|exact Hstay].
    apply Z.leb_le in Et.
    assert (outer_timed_out (evs ++ [Timer i t])) as Hto.
    { exists i, t. split; [|assumption]. apply elem_of_app. right. left. }
    destruct a as [p|]; [|destruct Hinv as [Hf _]; discriminate].
    destruct Hinv as (Htry & Hthrow & Hout & Hphase).
    unfold test_inv. cbn [fst snd inner outer_settled].
    rewrite outcomes_app, Hout. repeat split; try assumption; [auto|].
    destruct p; cbn [test_phase] in *; try assumption;
      set_unfold; intuition congruence.
Qed.

Lemma solo_test_inv db b (evs : list Event) :
  test_inv db b evs (solo (t_spawn db b) (t_step b) evs).
Proof.
  induction evs as [|ev evs IH] using rev_ind.
  - apply t_spawn_test_inv.
  - unfold solo in *. rewrite foldl_app. cbn [foldl].
    now apply solo_step_test_inv.
Qed.

(** ** From one attempt to the batch *)

Lemma events_of_app (i : nat) (evs rest : list Event) :
  events_of i (evs ++ rest) = events_of i evs ++ events_of i rest.
Proof. unfold events_of. apply filter_app. Qed.

Lemma outcomes_elem (acts : list Action) (o : Outcome) :
  o ∈ outcomes acts <-> ARecord o ∈ acts.
Proof.
  unfold outcomes. rewrite list_elem_of_omap. split.
  - intros (a & Ha & Hr). destruct a; try discriminate. now injection Hr as ->.
  - intros H. now exists (ARecord o).
Qed.

(** Every outcome in the log of [run] is the one [run_outcome] gives
    for its attempt, whatever comes later. *)
Lemma run_trace_outcome db total timeoutMs adapter env evs i (o : Outcome) :
  (i, ARecord o) ∈ log (run_trace db total timeoutMs adapter env evs) ->
  (i < Z.to_nat total)%nat /\
  outcomes (actions_of i (log (run_trace db total timeoutMs adapter env evs))) = [o] /\
  forall rest,
    run_outcome db timeoutMs (adapter i) (events_of i (evs ++ rest)) = Some o.
Proof.
  intros Hin.
  assert (i < Z.to_nat total)%nat as Hi.
  { pose proof (trace_log_bounded (fun i => launch db (adapter i))
                  (fun i a ev => resume timeoutMs (adapter i) a ev)
                  total (init_results db total env) evs _ Hin) as Hlt.
    cbn [fst] in Hlt. now rewrite trace_length in Hlt. }
  split; [exact Hi|].
  destruct (trace_solo (fun i => launch db (adapter i))
              (fun i a ev => resume timeoutMs (adapter i) a ev)
              total (init_results db total env) evs i Hi) as [_ Hacts].
  fold (run_trace db total timeoutMs adapter env evs) in Hacts.
  apply elem_of_actions_of in Hin. rewrite Hacts in *.
  pose proof (solo_run_inv db timeoutMs (adapter i) (events_of i evs)) as Hinv.
  apply outcomes_elem in Hin. unfold run_inv in Hinv.
  destruct (solo (launch db (adapter i)) (resume timeoutMs (adapter i))
              (events_of i evs)) as [a acts].
  cbn [fst snd] in *.
  assert ((exists o', outcomes acts = [o'] /\
             forall rest, run_outcome db timeoutMs (adapter i)
                            (events_of i evs ++ rest) = Some o')
          \/ outcomes acts = []) as [(o' & Ho & Hrun)|Hnil].
  { destruct a as [[| | |] c r| |]; auto; right; apply Hinv. }
  - rewrite Ho in Hin. apply list_elem_of_singleton in Hin. subst o'.
    split; [exact Ho|]. intros rest. rewrite events_of_app. apply Hrun.
  - rewrite Hnil in Hin. inversion Hin.
Qed.

(** At the join of [run] every attempt has counted the outcome
    [run_outcome] gives for it. *)
Lemma run_join_outcome db total timeoutMs adapter env sched st i :
  run_state db total timeoutMs adapter env sched = Some st ->
  (i < Z.to_nat total)%nat ->
  exists o,
    outcomes (actions_of i (log st)) = [o] /\
    run_outcome db timeoutMs (adapter i) (events_of i sched) = Some o.
Proof.
  intros H Hi. unfold run_state in H.
  apply await_all_prefix in H as [Hs (evs & rest & -> & ->)].
  destruct (trace_solo (fun i => launch db (adapter i))
              (fun i a ev => resume timeoutMs (adapter i) a ev)
              total (init_results db total env) evs i Hi) as [Ha Hacts].
  pose proof (forallb_at _ _ _ _ Hs Ha) as Hset.
  rewrite Hacts.
  pose proof (solo_run_inv db timeoutMs (adapter i) (events_of i evs)) as Hinv.
  unfold run_inv in Hinv.
  destruct (solo (launch db (adapter i)) (resume timeoutMs (adapter i))
              (events_of i evs)) as [a acts].
  cbn [fst snd] in *.
  destruct a as [p c r| |]; [discriminate| |];
    destruct Hinv as (o & Ho & Hrun); exists o;
    (split; [exact Ho | rewrite events_of_app; apply Hrun]).
Qed.

(** [run] does not resolve while an attempt has no outcome. *)
Lemma run_needs_every_outcome db total timeoutMs adapter env sched i :
  (i < Z.to_nat total)%nat ->
  run_outcome db timeoutMs (adapter i) (events_of i sched) = None ->
  run db total timeoutMs adapter env sched = None.
Proof.
  intros Hi Hnone. unfold run.
  destruct (run_state db total timeoutMs adapter env sched) as [st|] eqn:E;
    [|reflexivity].
  destruct (run_join_outcome _ _ _ _ _ _ _ i E Hi) as (o & _ & Ho). congruence.
Qed.

(** The same for [testDatabase]. *)
Lemma test_trace_inv total dbName adapter env evs i :
  (i < Z.to_nat total)%nat ->
  exists w,
    attempts (test_trace total dbName adapter env evs) !! i = Some w /\
    test_inv dbName (adapter i) (events_of i evs)
      (w, actions_of i (log (test_trace total dbName adapter env evs))).
Proof.
  intros Hi.
  destruct (trace_solo (fun i => t_spawn dbName (adapter i))
              (fun i w ev => t_step (adapter i) w ev)
              total (init_results dbName total env) evs i Hi) as [Ha Hacts].
  fold (test_trace total dbName adapter env evs) in Ha, Hacts.
  pose proof (solo_test_inv dbName (adapter i) (events_of i evs)) as Hinv.
  destruct (solo (t_spawn dbName (adapter i)) (t_step (adapter i))
              (events_of i evs)) as [w acts].
  cbn [fst snd] in *. exists w. split; [exact Ha|]. now rewrite Hacts.
Qed.

Lemma test_trace_bounded total dbName adapter env evs (x : nat * Action) :
  x ∈ log (test_trace total dbName adapter env evs) -> (x.1 < Z.to_nat total)%nat.
Proof.
  intros Hin.
  pose proof (trace_log_bounded (fun i => t_spawn dbName (adapter i))
                (fun i w ev => t_step (adapter i) w ev)
                total (init_results dbName total env) evs _ Hin) as Hlt.
  now rewrite trace_length in Hlt.
Qed.

(** What one attempt of [testDatabase] has counted: nothing yet, its
    own outcome, the timeout, or the timeout and then its own outcome. *)
Lemma test_trace_outcomes total dbName adapter env evs i :
  (i < Z.to_nat total)%nat ->
  let acts := actions_of i (log (test_trace total dbName adapter env evs)) in
  outcomes acts = [] \/ outcomes acts = [TimedOut] \/
  exists o, try_outcome dbName (adapter i) = Some o /\
    (outcomes acts = [o] \/ outcomes acts = [TimedOut; o]).
Proof.
  intros Hi. cbv zeta.
  destruct (test_trace_inv total dbName adapter env evs i Hi)
    as ([a outer] & _ & _ & Hinv).
  cbn [fst snd inner outer_settled] in Hinv.
  destruct a as [p|].
  - destruct Hinv as (_ & _ & Ho & _). destruct outer; auto.
  - destruct Hinv as (_ & o & Htry & Ho & _). right. right. now exists o.
Qed.

Lemma test_join_outcomes total dbName adapter env sched st i :
  test_state total dbName adapter env sched = Some st ->
  (i < Z.to_nat total)%nat ->
  let acts := actions_of i (log st) in
  (outcomes acts = [TimedOut] /\ outer_timed_out (events_of i sched)) \/
  exists o, try_outcome dbName (adapter i) = Some o /\
    (outcomes acts = [o] \/
     outcomes acts = [TimedOut; o] /\ outer_timed_out (events_of i sched)).
Proof.
  intros H Hi. cbv zeta. unfold test_state in H.
  apply await_all_prefix in H as [Hs (evs & rest & -> & ->)].
  fold (test_trace total dbName adapter env evs).
  destruct (test_trace_inv total dbName adapter env evs i Hi)
    as ([a outer] & Ha & Htime & Hinv).
  pose proof (forallb_at _ _ _ _ Hs Ha) as Hset.
  cbn [fst snd inner outer_settled] in *. subst outer.
  assert (TimedOut ∈ outcomes
            (actions_of i (log (test_trace total dbName adapter env evs))) ->
          outer_timed_out (events_of i (evs ++ rest))) as Htime'.
  { intros Hin. rewrite events_of_app. now apply outer_timed_out_app, Htime. }
  destruct a as [p|].
  - destruct Hinv as (_ & _ & Ho & _). left. split; [exact Ho|].
    apply Htime'. rewrite Ho. left.
  - destruct Hinv as (_ & o & Htry & [Ho|Ho] & _); right; exists o;
      (split; [exact Htry|]); [now left|right].
    split; [exact Ho|]. apply Htime'. rewrite Ho. left.
Qed.

(** ** The projections of the log are a rearrangement of it *)





#[local] Instance latencies_Permutation : Proper ((≡ₚ) ==> (≡ₚ)) latencies.
Proof. intros l1 l2 H. unfold latencies, outcomes. now rewrite H. Qed.


(** ** Keys, latencies and closes *)

Lemma keys_elem (acts : list Action) (k : JsVal) :
  k ∈ keys acts <-> exists o, ARecord o ∈ acts /\ outcome_key o = Some k.
Proof.
  unfold keys. rewrite list_elem_of_omap. split.
  - intros (o & Ho & Hk). exists o. split; [now apply outcomes_elem | exact Hk].
  - intros (o & Ho & Hk). exists o. split; [now apply outcomes_elem | exact Hk].
Qed.

(** Every key of the error list was offered by an outcome of the log. *)
Lemma errors_origin (r : Results) (l : list (nat * Action)) (k : JsVal) :
  errors r = [] ->
  k ∈ errors (foldl apply_action r l.*2) ->
  exists i o, (i, ARecord o) ∈ l /\ outcome_key o = Some k.
Proof.
  intros Hr Hk. destruct (log_errors r l.*2 Hr) as [He _]. rewrite He in Hk.
  apply first_seen_elem_of, keys_elem in Hk as (o & Ho & Hkey).
  apply list_elem_of_fmap in Ho as ([i a] & Ha & Hin). cbn [snd] in Ha. subst a.
  now exists i, o.
Qed.

(** The key of a recorded failure is in the error list. *)
Lemma errors_record (r : Results) (l : list (nat * Action)) (i : nat)
    (o : Outcome) (k : JsVal) :
  errors r = [] ->
  (i, ARecord o) ∈ l -> outcome_key o = Some k ->
  k ∈ errors (foldl apply_action r l.*2).
Proof.
  intros Hr Hin Hk. destruct (log_errors r l.*2 Hr) as [-> _].
  apply first_seen_elem_of. apply (recorded_key_elem _ o); [|assumption].
  now apply (log_snd_elem i).
Qed.

Lemma try_outcome_success db b (d : double) :
  try_outcome db b = Some (Success d)
  <-> try_clean db b /\ d = durationMs (elapsed_ns b).
Proof.
  unfold try_outcome, phase_outcome, after_call, try_clean. split.
  - destruct db, (construct b), (connect b), (roundTrip b), (close b);
      intros [= <-]; repeat split; congruence.
  - intros ((Hc & -> & -> & ->) & ->).
    destruct db; try rewrite Hc by discriminate; reflexivity.
Qed.


(** [end()] or [close()] is only called by an attempt of [run] that
    holds its client. *)
Lemma close_needs_handle db timeoutMs b (a : Attempt) (acts : list Action) :
  reach (launch db b) (resume timeoutMs b) a acts ->
  (ACall OpClose ∈ acts -> has_handle db b acts) /\
  match a with
  | Waiting AwaitRoundTrip _ _ | Waiting AwaitClose _ _ => has_handle db b acts
  | _ => True
  end.
Proof.
  unfold has_handle.
  induction 1 as [a acts Hl | a acts ev a' acts' Hreach [IH1 IH2] Hr].
  - unfold launch, await_call, catch_block, finally_block, completion in Hl.
    repeat case_match; simplify_eq; split; try exact I;
      (set_unfold; intuition congruence).
  - apply reach_inv in Hreach.
    assert (forall p c r, a = Waiting p c r -> c = true ->
              (db <> mysql /\ construct b = None) \/ ACall OpRoundTrip ∈ acts) as Hc.
    { intros p c r -> ->. destruct p; cbn [attempt_inv] in Hreach.
      1-3: destruct Hreach as (_ & [Hh _] & _); now apply Hh.
      destruct Hreach as (pre & o & -> & _ & _ & [Hs|Hin]); [now left|].
      right. set_unfold. intuition congruence. }
    unfold resume, await_call, success_path, catch_block, finally_block,
      completion in Hr.
    repeat case_match; simplify_eq; split; try exact I;
      try (specialize (Hc _ _ _ eq_refl eq_refl));
      (set_unfold; intuition congruence).
Qed.

(** ** Doubles that are not negative *)

Lemma iter_pos_inv {X : Type} (P : X -> Prop) (f : X -> X) :
  (forall x, P x -> P (f x)) -> forall p x, P x -> P (SpecFloat.iter_pos f p x).
Proof.
  intros Hf. induction p as [p IH|p IH|]; intros x Hx; cbn [SpecFloat.iter_pos]; auto.
Qed.

Lemma shr_1_nonneg (mrs : shr_record) : 0 <= shr_m mrs -> 0 <= shr_m (shr_1 mrs).
Proof.
  destruct mrs as [m r s]. cbn [shr_m]. intros H.
  destruct m as [|[p|p|]|p]; cbn; lia.
Qed.

Lemma shr_fexp_nonneg (m e : Z) (l : location) :
  0 <= m -> 0 <= shr_m (shr_fexp 53 1024 m e l).1.
Proof.
  intros H. unfold shr_fexp, shr.
  assert (0 <= shr_m (shr_record_of_loc m l)) as H0
    by (destruct l as [|[]]; exact H).
  destruct (fexp 53 1024 (Zdigits2 m + e) - e) as [|p|p]; cbn [fst]; try exact H0.
  apply (iter_pos_inv (fun x => 0 <= shr_m x)); [apply shr_1_nonneg | exact H0].
Qed.

Lemma round_nearest_even_nonneg (m : Z) (l : location) :
  0 <= m -> 0 <= round_nearest_even m l.
Proof.
  intros H. destruct l as [|[]]; cbn [round_nearest_even]; try lia.
  destruct (Z.even m); lia.
Qed.

(** Rounding a mantissa that is not negative gives a zero, a finite
    value or an infinity, never a NaN, with the sign it was given. *)
Lemma binary_round_aux_nonneg (m e : Z) (l : location) :
  0 <= m -> nonnegative (binary_round_aux 53 1024 false m e l).
Proof.
  intros H. unfold binary_round_aux.
  pose proof (shr_fexp_nonneg m e l H) as H1.
  destruct (shr_fexp 53 1024 m e l) as [mrs' e']. cbn [fst] in H1.
  pose proof (shr_fexp_nonneg _ e' loc_Exact
                (round_nearest_even_nonneg _ (loc_of_shr_record mrs') H1)) as H2.
  destruct (shr_fexp 53 1024
              (round_nearest_even (shr_m mrs') (loc_of_shr_record mrs')) e'
              loc_Exact) as [mrs'' e'']. cbn [fst] in H2.
  destruct (shr_m mrs'') as [|p|p]; [exact I| |lia].
  now destruct (e'' <=? 1024 - 53).
Qed.

Lemma binary_round_nonneg (m : positive) (e : Z) :
  nonnegative (binary_round 53 1024 false m e).
Proof.
  unfold binary_round.
  destruct (shl_align m e (fexp 53 1024 (Z.pos (digits2_pos m) + e))) as [mz ez].
  now apply binary_round_aux_nonneg.
Qed.

Lemma Number_of_Z_nonneg (n : Z) : 0 <= n -> nonnegative (Number_of_Z n).
Proof.
  intros H. unfold Number_of_Z, binary_normalize.
  destruct n as [|p|p]; [exact I|apply binary_round_nonneg|lia].
Qed.

Lemma js_add_nonneg (x y : double) :
  nonnegative x -> nonnegative y -> nonnegative (js_add x y).
Proof.
  destruct x as [[]|[]| |[] mx ex], y as [[]|[]| |[] my ey];
    cbn; try contradiction; try (intros; exact I).
  intros _ _. apply binary_round_nonneg.
Qed.

Lemma js_div_nonneg (x y : double) :
  nonnegative x -> positive_finite y -> nonnegative (js_div x y).
Proof.
  destruct x as [[]|[]| |[] mx ex], y as [[]|[]| |[] my ey];
    cbn [nonnegative positive_finite]; try contradiction;
    intros _ _; try exact I.
  unfold js_div, SFdiv. cbn [xorb].
  destruct (SFdiv_core_binary 53 1024 (Z.pos mx) ex (Z.pos my) ey)
    as [[mz ez] lz] eqn:E.
  apply binary_round_aux_nonneg.
  unfold SFdiv_core_binary in E.
  set (m' := match _ - _ - _ with Z0 => Z.pos mx | Z.pos _ => _ | Z.neg _ => 0 end) in E.
  assert (0 <= m') as Hm.
  { subst m'. destruct (_ - _ - _) as [|p|p]; try lia. apply Z.shiftl_nonneg. lia. }
  pose proof (Z_div_mod m' (Z.pos my) ltac:(lia)) as Hd.
  destruct (Z.div_eucl m' (Z.pos my)) as [q r]. injection E as <- _ _.
  destruct Hd as [Hq Hr]. nia.
Qed.

Lemma sum_times_nonneg (l : list double) :
  Forall nonnegative l -> nonnegative (sum_times l).
Proof.
  unfold sum_times.
  assert (forall a, nonnegative a -> Forall nonnegative l ->
                    nonnegative (foldl js_add a l)) as H.
  { induction l as [|d l IH]; intros a Ha Hl; [exact Ha|].
    apply Forall_cons in Hl as [Hd Hl]. cbn [foldl].
    apply IH; [now apply js_add_nonneg | exact Hl]. }
  now apply H.
Qed.

Lemma Math_round_double_nonneg (x : double) :
  nonnegative x -> nonnegative (Math_round_double x).
Proof.
  destruct x as [[]|[]| |[] m e]; cbn [nonnegative Math_round_double];
    try contradiction; try (intros; exact I).
  intros _. destruct (0 <=? e); [exact I|].
  destruct (Math_round (magnitude m e) =? 0) eqn:E; [exact I|].
  apply Number_of_Z_nonneg. unfold Math_round.
  apply Z.le_trans with (Qfloor 0); [discriminate|].
  apply Qfloor_resp_le. unfold magnitude. destruct (0 <=? e); unfold Qle; cbn; lia.
Qed.

(** ** Small integers are doubles *)

Lemma digits2_pos_iter (p d : positive) :
  digits2_pos (Pos.iter xO p d) = (digits2_pos p + d)%positive.
Proof.
  induction d as [|d IH] using Pos.peano_ind.
  - cbn. now rewrite Pos.add_1_r.
  - rewrite Pos.iter_succ. cbn [digits2_pos]. rewrite IH.
    now rewrite Pos.add_succ_r.
Qed.

Lemma digits2_pos_le (p : positive) :
  2 ^ Z.pos (digits2_pos p) <= 2 * Z.pos p.
Proof.
  induction p as [p IH|p IH|]; cbn [digits2_pos];
    rewrite ?Pos2Z.inj_succ, ?Z.pow_succ_r by lia; lia.
Qed.

(** [Number(n)] is finite for [0 < n < 2^53]. *)
Lemma Number_of_Z_small (n : Z) :
  0 < n < 2 ^ 53 -> positive_finite (Number_of_Z n).
Proof.
  intros [Hpos Hlt]. destruct n as [|p|p]; try lia.
  assert (Z.pos (digits2_pos p) <= 53) as Hk.
  { pose proof (digits2_pos_le p) as H.
    destruct (Z_le_gt_dec (Z.pos (digits2_pos p)) 53) as [|Hgt]; [assumption|].
    assert (2 ^ 54 <= 2 ^ Z.pos (digits2_pos p)) by (apply Z.pow_le_mono_r; lia).
    lia. }
  unfold Number_of_Z, binary_normalize, binary_round.
  assert (fexp 53 1024 (Z.pos (digits2_pos p) + 0) = Z.pos (digits2_pos p) - 53)
    as ->.
  { unfold fexp, emin. lia. }
  assert (exists mz ez,
            shl_align p 0 (Z.pos (digits2_pos p) - 53) = (mz, ez) /\
            Z.pos (digits2_pos mz) = 53 /\ -52 <= ez <= 0) as (mz & ez & -> & Hd & He).
  { unfold shl_align.
    destruct (Z.pos (digits2_pos p) - 53 - 0) as [|d|d] eqn:E; try lia.
    - exists p, 0. repeat split; lia.
    - exists (Pos.iter xO p d), (Z.pos (digits2_pos p) - 53).
      rewrite digits2_pos_iter. repeat split; lia. }
  unfold binary_round_aux, shr_fexp. cbn [Zdigits2 shr_record_of_loc].
  rewrite Hd.
  assert (fexp 53 1024 (53 + ez) - ez = 0) as -> by (unfold fexp, emin; lia).
  cbn [shr shr_m loc_of_shr_record round_nearest_even Zdigits2].
  rewrite Hd.
  assert (fexp 53 1024 (53 + ez) - ez = 0) as -> by (unfold fexp, emin; lia).
  cbn [shr shr_m].
  destruct (ez <=? 1024 - 53) eqn:E; [exact I|].
  apply Z.leb_gt in E. lia.
Qed.

(** ** Rounding in doubles *)

(** [Math.round] takes halves upwards, keeps the sign of a zero, and
    leaves what is not finite as it is. *)
Example Math_round_double_cases :
  Math_round_double (js_div (Number_of_Z 5) (Number_of_Z 2)) = Number_of_Z 3 /\
  Math_round_double (js_div (Number_of_Z (-5)) (Number_of_Z 2)) = Number_of_Z (-2) /\
  Math_round_double (js_div (Number_of_Z (-3)) (Number_of_Z 10)) = S754_zero true /\
  Math_round_double (js_div (Number_of_Z 3) (Number_of_Z 10)) = Number_of_Z 0 /\
  Math_round_double (js_div (Number_of_Z 1) (Number_of_Z 0)) = S754_infinity false /\
  Math_round_double (js_div (Number_of_Z 0) (Number_of_Z 0)) = S754_nan.
Proof. repeat split; vm_compute; reflexivity. Qed.

(** [toFixed(0)] rounds the size and puts the sign in front; from 10^21
    on it gives the exponent form of [String]. *)
Example toFixed0_cases :
  toFixed0 (js_div (Number_of_Z 5) (Number_of_Z 2)) = Digits false 3 /\
  toFixed0 (js_div (Number_of_Z (-5)) (Number_of_Z 2)) = Digits true 3 /\
  toFixed0 (js_div (Number_of_Z (-3)) (Number_of_Z 10)) = Digits true 0 /\
  toFixed0 (S754_zero true) = Digits false 0 /\
  toFixed0 (Number_of_Z (10 ^ 21)) = NumberToString (Number_of_Z (10 ^ 21)) /\
  toFixed0 S754_nan = NumberToString S754_nan.
Proof. repeat split; vm_compute; reflexivity. Qed.

(** The mean of 1.4, 2.8 and 3.3 ms: the doubles add up to a little
    less than 7.5, so the average is 2, where the mean of the exact
    values, 2.5, would round to 3. *)
Example average_in_doubles :
  average [durationMs 1400000; durationMs 2800000; durationMs 3300000]
  = Number_of_Z 2 /\
  avgTime [durationMs 1400000; durationMs 2800000; durationMs 3300000]
  = AvgFixed (Digits false 2) /\
  Math_round (((14 # 10) + (28 # 10) + (33 # 10)) / 3)%Q = 3.
Proof. repeat split; vm_compute; reflexivity. Qed.

(** For every count the script can reach, the number of blocks computed
    on rationals is the one the doubles give. *)
Lemma successBlocks_as_doubles (r : Results) :
  0 <= successful r <= TOTAL_CONNECTIONS ->
  successBlocks_double (successful r) = Number_of_Z (successBlocks r).
Proof.
  intros H. unfold successBlocks.
  assert (forallb
            (fun k => bool_decide
               (successBlocks_double (Z.of_nat k)
                = Number_of_Z
                    (Math_round (inject_Z (Z.of_nat k) / inject_Z TOTAL_CONNECTIONS
                                 * inject_Z 30)%Q)))
            (seq 0 501) = true) as Hall by (vm_compute; reflexivity).
  rewrite forallb_forall in Hall.
  specialize (Hall (Z.to_nat (successful r))).
  rewrite Z2Nat.id in Hall by lia.
  apply bool_decide_eq_true in Hall; [exact Hall|].
  apply in_seq. unfold TOTAL_CONNECTIONS in H. lia.
Qed.

(** ** The latencies of [run] *)

(** Every latency in [responseTimes] at the join of [run] is the time
    one attempt with a clean [try] measured. *)
Lemma run_latency_origin db total timeoutMs adapter env sched st (d : double) :
  run_state db total timeoutMs adapter env sched = Some st ->
  d ∈ responseTimes (results st) ->
  exists i, (i < Z.to_nat total)%nat /\
    try_clean db (adapter i) /\ d = durationMs (elapsed_ns (adapter i)).
Proof.
  intros E Hd. unfold run_state in E.
  apply await_all_prefix in E as [_ (evs & rest & -> & ->)].
  fold (run_trace db total timeoutMs adapter env evs) in Hd.
  rewrite run_trace_results, fold_responseTimes in Hd. cbn [app init_results responseTimes] in Hd.
  unfold latencies in Hd. apply list_elem_of_omap in Hd as (o & Ho & Hl).
  destruct o as [d'|e|]; try discriminate. injection Hl as ->.
  apply outcomes_elem, list_elem_of_fmap in Ho as ([i a] & Ha & Hin).
  cbn [snd] in Ha. subst a.
  destruct (run_trace_outcome _ _ _ _ _ _ _ _ Hin) as (Hi & _ & Hrun).
  exists i. split; [exact Hi|]. specialize (Hrun rest).
  unfold run_outcome in Hrun.
  destruct (timed_out _ _ _ _); [discriminate|].
  now apply try_outcome_success.
Qed.
(** * The claims *)

(** C1 (a defect of [testDatabase]; [run] keeps the claim, see
    [run_accounting]).  The claim: once the batch has settled,
    [successful + failed] equals the number of attempts, also when an
    attempt times out and its driver call completes later.  In
    [testDatabase] the timeout handler counts attempt 0 as failed and
    the attempt itself, which goes on running, counts itself as
    successful a moment later, while attempt 499 is still pending: at
    the join the counters add up to 501 for 500 attempts. *)
Theorem testDatabase_counts_timed_out_attempt_twice :
  option_map (fun rep => (successful (reported rep), failed (reported rep)))
    (testDatabase postgres slow_first env0 slow_first_sched)
  = Some (500, 1) /\
  option_map (fun rep => successful (reported rep) + failed (reported rep))
    (testDatabase postgres slow_first env0 slow_first_sched)
  = Some (TOTAL_CONNECTIONS + 1).
Proof. split; vm_compute; reflexivity. Qed.

(** C2 (a defect of [run]; [testDatabase] keeps the claim, see
    [testDatabase_timeout_outcome]).  The claim: an attempt whose
    deadline passes is recorded under the key "Connection Timeout".  In
    [run] the deadline rejects the raced [connect] with the library's
    TimeoutError, the common [catch] block takes its key from
    [error.code || error.message], and the list gets "Timeout". *)
Theorem run_records_timeout_as_Timeout :
  option_map (fun s => (failed (final s), errors (final s)))
    (run postgres 1 1000 (fun _ => unreachable) env0
       [Timer 0 1000; Settle 0])
  = Some (1, [JStr "Timeout"]) /\
  JStr "Timeout" <> JStr "Connection Timeout".
Proof. split; [vm_compute; reflexivity | discriminate]. Qed.

(** C3, the claim as stated fails: with [timeoutMs = 0] the attempt is
    launched, the driver is called (constructor, connect, round trip,
    close) and the attempt is counted. *)
Lemma run_zero_timeout_calls_adapter :
  0 <= 0 /\
  option_map (fun st => (log st, successful (results st) + failed (results st)))
    (run_state mongodb 1 0 (fun _ => steady) env0 (drain 0))
  = Some ([(0%nat, ACall OpConstruct); (0%nat, ACall OpConnect);
           (0%nat, ACall OpRoundTrip); (0%nat, ACall OpClose);
           (0%nat, ARecord (Success (durationMs 50000000)));
           (0%nat, ACall OpClose); (0%nat, ASample 104857600)], 1).
Proof. split; [lia | vm_compute; reflexivity]. Qed.

(** C3, amended.  [run] does not validate [timeoutMs]: a value [<= 0]
    only makes the timers fire after the minimal delay of 1 ms.  The
    batch is the one of [timeoutMs = 1]; every attempt is launched and
    calls [connect] (unless its constructor threw); once all attempts
    have settled each one is counted exactly once, and the result is a
    summary. *)
Theorem run_nonpositive_timeout db total timeoutMs adapter env sched :
  timeoutMs <= 0 ->
  run db total timeoutMs adapter env sched = run db total 1 adapter env sched /\
  forall st, run_state db total timeoutMs adapter env sched = Some st ->
    run db total timeoutMs adapter env sched = Some (summarize env (results st)) /\
    (forall i, (i < Z.to_nat total)%nat ->
       db = mysql \/ construct (adapter i) = None ->
       (i, ACall OpConnect) ∈ log st) /\
    successful (results st) + failed (results st) = Z.max 0 total.
Proof.
  intros Hle. split.
  - unfold run, run_state. f_equal. apply await_all_ext.
    intros i a ev. now apply resume_nonpositive.
  - intros st H. split; [unfold run; now rewrite H|]. split.
    + intros i Hi Hc. pose proof H as H'.
      apply run_state_trace in H' as [_ [evs ->]].
      destruct (lookup_lt_is_Some_2
                  (attempts (run_trace db total timeoutMs adapter env evs)) i)
        as [a Ha]; [unfold run_trace; now rewrite trace_length|].
      pose proof (trace_reach (fun i => launch db (adapter i))
                    (fun i a ev => resume timeoutMs (adapter i) a ev)
                    total (init_results db total env) evs i a Ha) as Hr.
      apply reach_prefix in Hr as [rest Hr].
      apply elem_of_actions_of. fold (run_trace db total timeoutMs adapter env evs) in Hr.
      rewrite Hr. apply elem_of_app. left.
      unfold launch, await_call.
      destruct Hc as [-> | Hc].
      * destruct (connect (adapter i)); [destruct (catch_block _ _ _)|..];
          cbn [snd]; apply list_elem_of_here.
      * destruct db; rewrite ?Hc;
          (destruct (connect (adapter i)); [destruct (catch_block _ _ _)|..]);
          cbn [snd]; try apply list_elem_of_here;
          apply list_elem_of_further, list_elem_of_here.
    + now apply run_accounting in H.
Qed.

Lemma run_nonpositive_timeout_witness :
  -5 <= 0 /\
  run postgres 2 (-5) (fun _ => steady) env0 (drain 0 ++ drain 1)
  = run postgres 2 1 (fun _ => steady) env0 (drain 0 ++ drain 1).
Proof.
  split; [lia|].
  destruct (run_nonpositive_timeout postgres 2 (-5) (fun _ => steady) env0
              (drain 0 ++ drain 1)) as [H _]; [lia | exact H].
Defined.

(** C4.  With [totalConnections = 0] the loop body never runs: [run]
    resolves whatever the schedule, the empty one included, with both
    counters 0, no error key, no latency and average 0, and the driver
    is not called. *)
Theorem run_zero_attempts db timeoutMs adapter env sched :
  run db 0 timeoutMs adapter env sched
  = Some (mkSummary (mkResults db 0 0 0 [] [] (rss0 env) 0 (now0 env))
                    (now1 env) (elapsed_seconds (now1 env) (now0 env)) (Number_of_Z 0)) /\
  option_map log (run_state db 0 timeoutMs adapter env sched) = Some [].
Proof. destruct sched; split; reflexivity. Qed.

(** C5.  [results.errors] never holds a key twice and keeps the keys in
    the order in which they were first offered: at every point of a batch
    of [run] or of [testDatabase] the list is the key sequence of the log
    without its repetitions, each key at its first occurrence; so is the
    list after any number of mutations, and the list of the summary.
    Offering a key that is in the list changes nothing, offering a new
    one appends it. *)
Theorem errors_distinct_in_first_seen_order :
  (forall db total timeoutMs adapter env evs,
     let st := run_trace db total timeoutMs adapter env evs in
     NoDup (errors (results st)) /\
     errors (results st) = first_seen (keys (log st).*2)) /\
  (forall total dbName adapter env evs,
     let st := test_trace total dbName adapter env evs in
     NoDup (errors (results st)) /\
     errors (results st) = first_seen (keys (log st).*2)) /\
  (forall db total env acts,
     let r := foldl apply_action (init_results db total env) acts in
     NoDup (errors r) /\ errors r = first_seen (keys acts)) /\
  (forall db total timeoutMs adapter env sched s,
     run db total timeoutMs adapter env sched = Some s ->
     NoDup (errors (final s))) /\
  (forall k r, k ∈ errors r -> push_error k r = r) /\
  (forall k r, k ∉ errors r -> errors (push_error k r) = errors r ++ [k]) /\
  (forall ks k,
     first_seen (ks ++ [k])
     = if decide (k ∈ ks) then first_seen ks else first_seen ks ++ [k]).
Proof.
  assert (forall db total env acts,
    NoDup (errors (foldl apply_action (init_results db total env) acts)) /\
    errors (foldl apply_action (init_results db total env) acts)
    = first_seen (keys acts)) as Hlog.
  { intros db total env acts.
    destruct (log_errors (init_results db total env) acts eq_refl) as [-> _].
    split; [apply first_seen_NoDup | reflexivity]. }
  repeat split.
  - rewrite run_trace_results. apply Hlog.
  - rewrite run_trace_results. apply Hlog.
  - rewrite test_trace_results. apply Hlog.
  - rewrite test_trace_results. apply Hlog.
  - apply Hlog.
  - apply Hlog.
  - intros db total timeoutMs adapter env sched s H. unfold run in H.
    destruct (run_state db total timeoutMs adapter env sched) as [st|] eqn:E;
      [|discriminate].
    injection H as <-. simpl.
    apply run_state_trace in E as [_ [evs ->]].
    rewrite run_trace_results. apply Hlog.
  - apply push_error_present.
  - apply push_error_new.
  - apply first_seen_snoc.
Qed.

Lemma errors_distinct_in_first_seen_order_witness :
  errors (foldl apply_action (init_results postgres 3 env0)
            [ARecord (Failure ECONNREFUSED); ARecord (Failure TimeoutError);
             ARecord (Failure ECONNREFUSED)])
  = first_seen [JStr "ECONNREFUSED"; JStr "Timeout"; JStr "ECONNREFUSED"].
Proof.
  destruct errors_distinct_in_first_seen_order as (_ & _ & H & _).
  destruct (H postgres 3 env0
              [ARecord (Failure ECONNREFUSED); ARecord (Failure TimeoutError);
               ARecord (Failure ECONNREFUSED)]) as [_ E].
  exact E.
Defined.



(** C7, the claim as stated fails in two ways.  An exception of the
    close of the [finally] is not recorded: every call of the [try]
    fulfils, the second close rejects with ECONNREFUSED, the rejection
    is swallowed and the attempt stays a success, with no error key.
    And [run] does not always resolve: when the connect has answered
    and the round trip never does, no schedule makes it resolve. *)
Lemma run_swallows_cleanup_error :
  (cleanup cleanup_fails = Rejects ECONNREFUSED /\
   option_map (fun s => (successful (final s), failed (final s), errors (final s)))
     (run mongodb 1 1000 (fun _ => cleanup_fails) env0 (drain 0))
   = Some (1, 0, [])) /\
  (forall post,
     run mongodb 1 1000 (fun _ => round_trip_hangs) env0 (Settle 0 :: post) = None).
Proof.
  split; [split; [reflexivity | vm_compute; reflexivity]|].
  intros post. apply (run_needs_every_outcome _ _ _ _ _ _ 0%nat); [simpl; lia|].
  reflexivity.
Qed.

(** C7, amended.  The one outcome an attempt of [run] counts is the
    value of [run_outcome]: the TimeoutError when the timer fires before
    the raced connect has settled, and otherwise what the [try] block
    comes to, which is the error of the first driver call in it that
    throws or rejects (the constructor, connect, the round trip, the
    close awaited there) and a success when none does.  The close of
    the [finally] has no part in it: whatever it does, an attempt whose
    [try] is clean and whose connect was in time is counted as the
    success it is.  [run] resolves with the summary as soon as all
    attempts are settled, which they are once each has seen four
    settlements if no promise of the driver hangs; it has no way to
    reject, and it does not resolve while an attempt has no outcome. *)
Theorem run_counts_adapter_errors_as_failures db total timeoutMs adapter env sched :
  (forall st, run_state db total timeoutMs adapter env sched = Some st ->
     run db total timeoutMs adapter env sched = Some (summarize env (results st)) /\
     forall i, (i < Z.to_nat total)%nat ->
       exists o,
         outcomes (actions_of i (log st)) = [o] /\
         run_outcome db timeoutMs (adapter i) (events_of i sched) = Some o /\
         (forall e, try_outcome db (adapter i) = Some (Failure e) ->
            o = Failure e \/ o = Failure TimeoutError) /\
         (forall d, o = Success d ->
            try_clean db (adapter i) /\ d = durationMs (elapsed_ns (adapter i))) /\
         (try_clean db (adapter i) ->
          timed_out db timeoutMs (adapter i) (events_of i sched) = false ->
          o = Success (durationMs (elapsed_ns (adapter i))))) /\
  ((forall i, (i < Z.to_nat total)%nat -> responsive (adapter i)) ->
   settles_each 4 (Z.to_nat total) sched ->
   exists s, run db total timeoutMs adapter env sched = Some s) /\
  (forall i, (i < Z.to_nat total)%nat ->
     run_outcome db timeoutMs (adapter i) (events_of i sched) = None ->
     run db total timeoutMs adapter env sched = None).
Proof.
  split; [|split].
  - intros st H. split; [unfold run; now rewrite H|].
    intros i Hi.
    destruct (run_join_outcome db total timeoutMs adapter env sched st i H Hi)
      as (o & Ho & Hrun).
    exists o. split; [exact Ho|]. split; [exact Hrun|].
    unfold run_outcome in Hrun.
    destruct (timed_out db timeoutMs (adapter i) (events_of i sched)) eqn:Et.
    + injection Hrun as <-. split; [auto|]. split; [discriminate|].
      intros _ [=].
    + split; [intros e He; left; congruence|]. split.
      * intros d ->. now apply try_outcome_success.
      * intros Hc _.
        assert (try_outcome db (adapter i)
                = Some (Success (durationMs (elapsed_ns (adapter i))))) as Hs
          by now apply try_outcome_success.
        congruence.
  - intros Hresp Hsched.
    destruct (run_resolves db total timeoutMs adapter env sched Hresp Hsched)
      as [st Hst].
    exists (summarize env (results st)). unfold run. now rewrite Hst.
  - intros i Hi Hnone. now apply (run_needs_every_outcome _ _ _ _ _ _ i).
Qed.

Lemma run_counts_adapter_errors_as_failures_witness :
  exists st,
    run_state postgres 2 1000
      (fun i => if (i =? 0)%nat then close_fails else cleanup_fails) env0
      (drain 0 ++ drain 1) = Some st /\
    outcomes (actions_of 0 (log st)) = [Failure ECONNREFUSED] /\
    outcomes (actions_of 1 (log st)) = [Success (durationMs 50000000)] /\
    exists s,
      run postgres 2 1000
        (fun i => if (i =? 0)%nat then close_fails else cleanup_fails) env0
        (drain 0 ++ drain 1) = Some s.
Proof.
  destruct (run_counts_adapter_errors_as_failures postgres 2 1000
              (fun i => if (i =? 0)%nat then close_fails else cleanup_fails) env0
              (drain 0 ++ drain 1)) as (Hatt & Hlive & _).
  destruct (Hatt _ eq_refl) as [_ Ho].
  destruct (Ho 0%nat) as (o0 & H0 & Hr0 & _); [simpl; lia|].
  destruct (Ho 1%nat) as (o1 & H1 & Hr1 & _); [simpl; lia|].
  injection Hr0 as <-. injection Hr1 as <-.
  eexists. split; [reflexivity|]. split; [exact H0|]. split; [exact H1|].
  apply Hlive.
  - intros i Hi. destruct i as [|[|i]]; [| |simpl in Hi; lia];
      (repeat split; discriminate).
  - intros i Hi. destruct i as [|[|i]]; [| |simpl in Hi; lia];
      vm_compute; lia.
Defined.

(** C8, the claim as stated fails in three ways.  In [run] the close
    awaited in the [try] counts: connect and round trip succeed, that
    close rejects, and the attempt is a failure under the key of the
    close error.  In [testDatabase] a failed attempt is not closed: the
    client is constructed, its connect is refused, and the attempt ends
    without a call of [end()].  And in the MySQL [run] a connection that
    [createConnection] delivers after the deadline is never closed: the
    attempt ends on the timeout without a call of [end()]. *)
Lemma run_counts_failed_close_as_failure :
  (connect close_fails = Resolves /\ roundTrip close_fails = Resolves /\
   option_map (fun s => (successful (final s), failed (final s), errors (final s)))
     (run mongodb 1 1000 (fun _ => close_fails) env0 (drain 0))
   = Some (0, 1, [JStr "ECONNREFUSED"])) /\
  (construct connect_refused = None /\
   option_map (fun st => actions_of 0 (log st))
     (test_state 1 postgres (fun _ => connect_refused) env0 [Settle 0])
   = Some [ACall OpConstruct; ACall OpConnect; ARecord (Failure ECONNREFUSED);
           ASample 104857600]) /\
  (connect steady = Resolves /\
   option_map (fun st => actions_of 0 (log st))
     (run_state mysql 1 1000 (fun _ => steady) env0 [Timer 0 1000; Settle 0])
   = Some [ACall OpConnect; ARecord (Failure TimeoutError); ASample 104857600]).
Proof. repeat split; vm_compute; reflexivity. Qed.

(** C8, amended.  In [run] an attempt holds its [client] once the
    constructor has returned or, for MySQL, once the raced connect has
    fulfilled, which shows as the round trip that follows.  An attempt
    that holds it calls close in the [finally], right after its one
    outcome was counted, be that the success, a failure or the timeout;
    an attempt that does not hold it never calls close; and whatever
    the close of the [finally] does, nothing more is counted and no
    error key is added.  The close awaited inside the [try] is not of
    this kind: when connect and round trip have fulfilled and that
    close throws or rejects, the attempt is a failure with the error of
    the close, and its key is in [results.errors].  [testDatabase] has
    no close in its [finally]: there an attempt calls close only in the
    [try], after its connect and its round trip have fulfilled. *)
Theorem run_closes_in_finally db total timeoutMs adapter env sched st :
  run_state db total timeoutMs adapter env sched = Some st ->
  (forall i, (i < Z.to_nat total)%nat ->
     exists pre o post,
       actions_of i (log st) = pre ++ ARecord o :: post /\
       outcomes pre = [] /\ outcomes post = [] /\
       run_outcome db timeoutMs (adapter i) (events_of i sched) = Some o /\
       (has_handle db (adapter i) pre ->
        exists post', post = ACall OpClose :: post') /\
       (~ has_handle db (adapter i) pre ->
        ACall OpClose ∉ actions_of i (log st)) /\
       (forall e,
          (db <> mysql -> construct (adapter i) = None) ->
          connect (adapter i) = Resolves -> roundTrip (adapter i) = Resolves ->
          thrown_by (close (adapter i)) e ->
          timed_out db timeoutMs (adapter i) (events_of i sched) = false ->
          o = Failure e /\
          forall c m, e = ThrownValue c m ->
            (if truthy c then c else m) ∈ errors (results st))) /\
  (forall b c rethrow ev r,
     let acts := (resume timeoutMs b (Waiting AwaitCleanup c rethrow) ev).2 in
     successful (foldl apply_action r acts) = successful r /\
     failed (foldl apply_action r acts) = failed r /\
     errors (foldl apply_action r acts) = errors r) /\
  (forall dbName evs i,
     (i < Z.to_nat total)%nat ->
     ACall OpClose ∈ actions_of i (log (test_trace total dbName adapter env evs)) ->
     connect (adapter i) = Resolves /\ roundTrip (adapter i) = Resolves).
Proof.
  intros H. split; [|split].
  - intros i Hi.
    destruct (run_state_attempt db total timeoutMs adapter env sched st i H Hi)
      as (pre & o & post & Hacts & Hpre & Hpost & Hok & Hh & Hn).
    destruct (run_join_outcome db total timeoutMs adapter env sched st i H Hi)
      as (o' & Ho & Hrun).
    assert (o' = o) as ->.
    { rewrite Hacts, outcomes_app, outcomes_cons, Hpre, Hpost in Ho.
      cbn in Ho. congruence. }
    exists pre, o, post.
    split; [exact Hacts|]. split; [exact Hpre|]. split; [exact Hpost|].
    split; [exact Hrun|]. split; [exact Hh|]. split.
    + intros Hno Hin. pose proof H as Ht.
      apply run_state_trace in Ht as [Hs [evs ->]].
      destruct (lookup_lt_is_Some_2
                  (attempts (run_trace db total timeoutMs adapter env evs)) i)
        as [a Ha]; [unfold run_trace; now rewrite trace_length|].
      pose proof (trace_reach (fun i => launch db (adapter i))
                    (fun i a ev => resume timeoutMs (adapter i) a ev)
                    total (init_results db total env) evs i a Ha) as Hr.
      fold (run_trace db total timeoutMs adapter env evs) in Hr.
      apply close_needs_handle in Hr as [Hc _].
      specialize (Hc Hin). apply Hno. rewrite Hacts, (Hn Hno) in Hc.
      destruct Hc as [Hc|Hc]; [now left|]. right.
      set_unfold. intuition congruence.
    + intros e Hcons Hconn Hrt Hclose Ht.
      assert (o = Failure e) as ->.
      { unfold run_outcome in Hrun. rewrite Ht in Hrun.
        unfold try_outcome in Hrun. cbn [phase_outcome] in Hrun.
        rewrite Hconn, Hrt in Hrun. cbn [after_call] in Hrun.
        assert (after_call (close (adapter i))
                  (Some (Success (durationMs (elapsed_ns (adapter i)))))
                = Some (Failure e)) as Hcl
          by (destruct Hclose as [-> | ->]; reflexivity).
        rewrite Hcl in Hrun.
        destruct db; try rewrite Hcons in Hrun by discriminate; congruence. }
      split; [reflexivity|]. intros c m ->.
      pose proof H as Hst. apply run_state_trace in Hst as [_ [evs ->]].
      rewrite run_trace_results.
      apply (errors_record _ _ i (Failure (ThrownValue c m)));
        [reflexivity| |reflexivity].
      apply elem_of_actions_of. rewrite Hacts. apply elem_of_app. right. left.
  - intros b c rethrow ev r.
    destruct (cleanup_close_is_silent timeoutMs b c rethrow ev r)
      as (_ & Hs & Hf & He & _).
    now repeat split.
  - intros dbName evs i Hi Hin.
    destruct (test_trace_inv total dbName adapter env evs i Hi)
      as ([a outer] & _ & _ & Hinv).
    cbn [fst snd inner outer_settled] in Hinv.
    destruct a as [p|].
    + destruct Hinv as (_ & _ & _ & Hphase).
      destruct p; cbn [test_phase] in Hphase; try contradiction;
        try assumption; now destruct Hphase.
    + destruct Hinv as (_ & o & _ & _ & Hc). now apply Hc.
Qed.

Lemma run_closes_in_finally_witness :
  exists pre o post,
    [ACall OpConstruct; ACall OpConnect; ARecord (Failure TimeoutError);
     ACall OpClose; ASample 104857600]
    = pre ++ ARecord o :: post /\
    outcomes pre = [] /\ outcomes post = [] /\
    (has_handle postgres unreachable pre -> exists post', post = ACall OpClose :: post').
Proof.
  destruct (proj1 (run_closes_in_finally postgres 1 1000 (fun _ => unreachable) env0
                     [Timer 0 1000; Settle 0] _ eq_refl) 0%nat (Nat.lt_0_succ 0))
    as (pre & o & post & H1 & H2 & H3 & _ & H4 & _).
  now exists pre, o, post.
Defined.

(** C9, the claim as stated fails when the code is present and falsy:
    the driver rejects with an error whose [code] is the number 0 and
    whose message is "boom"; [0 || "boom"] is "boom", and that is the
    key recorded. *)
Lemma run_records_message_for_code_zero :
  connect connect_zero_code = Rejects (ThrownValue (JNum 0) (JStr "boom")) /\
  option_map (fun s => (failed (final s), errors (final s)))
    (run postgres 1 1000 (fun _ => connect_zero_code) env0 (drain 0))
  = Some (1, [JStr "boom"]).
Proof. split; [reflexivity | vm_compute; reflexivity]. Qed.

(** C9, amended.  The key of a failure is [error.code] when that value
    is truthy (so not when it is missing, 0 or the empty string) and
    [error.message] otherwise, and the error is the one the driver
    threw.  In [run], an attempt whose [try] ends in the error with code
    [c] and message [m] of its first failing driver call, and which is
    not cut short by the deadline, counts exactly that failure, and its
    key is in [results.errors]; and every key in [results.errors] is
    the key of the failure some attempt counted, which is the driver's
    error or the TimeoutError.  In [testDatabase] such an attempt has
    counted that failure, with its key in the list, unless at the join
    it has only timed out, and every key in the list is
    "Connection Timeout" or the key of the driver error that ended the
    [try] of some attempt. *)
Theorem failure_key_is_code_or_message :
  (forall db total timeoutMs adapter env sched st,
     run_state db total timeoutMs adapter env sched = Some st ->
     (forall i c m, (i < Z.to_nat total)%nat ->
        try_outcome db (adapter i) = Some (Failure (ThrownValue c m)) ->
        timed_out db timeoutMs (adapter i) (events_of i sched) = false ->
        outcomes (actions_of i (log st)) = [Failure (ThrownValue c m)] /\
        (if truthy c then c else m) ∈ errors (results st)) /\
     (forall k, k ∈ errors (results st) ->
        exists i c m, (i < Z.to_nat total)%nat /\
          run_outcome db timeoutMs (adapter i) (events_of i sched)
          = Some (Failure (ThrownValue c m)) /\
          k = (if truthy c then c else m))) /\
  (forall total dbName adapter env sched st,
     test_state total dbName adapter env sched = Some st ->
     (forall i c m, (i < Z.to_nat total)%nat ->
        try_outcome dbName (adapter i) = Some (Failure (ThrownValue c m)) ->
        (Failure (ThrownValue c m) ∈ outcomes (actions_of i (log st)) /\
         (if truthy c then c else m) ∈ errors (results st)) \/
        (outcomes (actions_of i (log st)) = [TimedOut] /\
         outer_timed_out (events_of i sched) /\
         JStr "Connection Timeout" ∈ errors (results st))) /\
     (forall k, k ∈ errors (results st) ->
        k = JStr "Connection Timeout" \/
        exists i c m, (i < Z.to_nat total)%nat /\
          try_outcome dbName (adapter i) = Some (Failure (ThrownValue c m)) /\
          k = (if truthy c then c else m))).
Proof.
  split.
  - intros db total timeoutMs adapter env sched st H. split.
    + intros i c m Hi Htry Ht.
      destruct (run_join_outcome db total timeoutMs adapter env sched st i H Hi)
        as (o & Ho & Hrun).
      unfold run_outcome in Hrun. rewrite Ht, Htry in Hrun. injection Hrun as <-.
      split; [exact Ho|].
      pose proof H as Hst. apply run_state_trace in Hst as [_ [evs ->]].
      rewrite run_trace_results.
      apply (errors_record _ _ i (Failure (ThrownValue c m)));
        [reflexivity| |reflexivity].
      apply elem_of_actions_of, outcomes_elem. rewrite Ho. left.
    + intros k Hk. unfold run_state in H.
      apply await_all_prefix in H as [_ (evs & rest & -> & ->)].
      fold (run_trace db total timeoutMs adapter env evs) in *.
      rewrite run_trace_results in Hk.
      apply errors_origin in Hk as (i & o & Hin & Hkey); [|reflexivity].
      destruct (run_trace_outcome _ _ _ _ _ _ _ _ Hin) as (Hi & _ & Hrun).
      specialize (Hrun rest).
      destruct o as [d|[|c m]|]; try discriminate.
      * exists i, c, m. injection Hkey as <-. now repeat split.
      * exfalso. unfold run_outcome in Hrun.
        destruct (timed_out _ _ _ _); [discriminate|].
        now apply try_outcome_not_TimedOut in Hrun.
  - intros total dbName adapter env sched st H. split.
    + intros i c m Hi Htry.
      pose proof H as Hst. apply test_state_trace in Hst as [_ [evs Hevs]].
      assert (forall o k, o ∈ outcomes (actions_of i (log st)) ->
                outcome_key o = Some k -> k ∈ errors (results st)) as Hkey.
      { intros o k Ho Hk. subst st. rewrite test_trace_results.
        apply (errors_record _ _ i o); [reflexivity| |exact Hk].
        now apply elem_of_actions_of, outcomes_elem. }
      destruct (test_join_outcomes total dbName adapter env sched st i H Hi)
        as [[Ho Hto]|(o & Htry' & [Ho|[Ho Hto]])].
      * right. split; [exact Ho|]. split; [exact Hto|].
        apply (Hkey TimedOut); [rewrite Ho; left | reflexivity].
      * left. assert (o = Failure (ThrownValue c m)) as -> by congruence.
        split; [rewrite Ho; left|].
        apply (Hkey (Failure (ThrownValue c m))); [rewrite Ho; left | reflexivity].
      * left. assert (o = Failure (ThrownValue c m)) as -> by congruence.
        split; [rewrite Ho; right; left|].
        apply (Hkey (Failure (ThrownValue c m)));
          [rewrite Ho; right; left | reflexivity].
    + intros k Hk.
      apply test_state_trace in H as [_ [evs ->]].
      rewrite test_trace_results in Hk.
      apply errors_origin in Hk as (i & o & Hin & Hkey); [|reflexivity].
      pose proof (test_trace_bounded _ _ _ _ _ _ Hin) as Hi. cbn [fst] in Hi.
      apply elem_of_actions_of, outcomes_elem in Hin.
      destruct o as [d|[|c m]|]; try discriminate.
      * right. exists i, c, m. injection Hkey as <-. split; [exact Hi|].
        split; [|reflexivity].
        destruct (test_trace_outcomes total dbName adapter env evs i Hi)
          as [Ho|[Ho|(o & Htry & [Ho|Ho])]]; cbv zeta in Ho;
          rewrite Ho in Hin; set_unfold; intuition congruence.
      * left. now injection Hkey as <-.
Qed.

Lemma failure_key_is_code_or_message_witness :
  exists st,
    run_state postgres 1 1000 (fun _ => connect_refused) env0 [Settle 0; Settle 0] = Some st /\
    outcomes (actions_of 0 (log st)) = [Failure ECONNREFUSED] /\
    JStr "ECONNREFUSED" ∈ errors (results st).
Proof.
  destruct failure_key_is_code_or_message as [H _].
  destruct (H postgres 1 1000 (fun _ => connect_refused) env0 [Settle 0; Settle 0] _ eq_refl)
    as [Hk _].
  destruct (Hk 0%nat (JStr "ECONNREFUSED")
              (JStr "connect ECONNREFUSED 127.0.0.1:5432")
              (Nat.lt_0_succ 0) eq_refl eq_refl) as [Ho He].
  eexists. split; [reflexivity|]. split; [exact Ho | exact He].
Defined.

(** C10.  A negative [totalConnections] leaves the loop without an
    iteration, as 0 does: [run] resolves whatever the schedule, with
    both counters 0, no error key, no latency and average 0, and
    without calling the driver; nothing rejects the value. *)
Theorem run_negative_attempts db total timeoutMs adapter env sched :
  total < 0 ->
  run db total timeoutMs adapter env sched
  = Some (mkSummary (mkResults db total 0 0 [] [] (rss0 env) 0 (now0 env))
                    (now1 env) (elapsed_seconds (now1 env) (now0 env)) (Number_of_Z 0)) /\
  option_map log (run_state db total timeoutMs adapter env sched) = Some [] /\
  option_map (fun s => (successful (final s), failed (final s), errors (final s),
                        responseTimes (final s), avgResponseTime s))
    (run db total timeoutMs adapter env sched)
  = option_map (fun s => (successful (final s), failed (final s), errors (final s),
                          responseTimes (final s), avgResponseTime s))
      (run db 0 timeoutMs adapter env sched).
Proof.
  intros H. destruct total as [|p|p]; try lia.
  destruct sched; repeat split; reflexivity.
Qed.

Lemma run_negative_attempts_witness :
  -3 < 0 /\
  run mongodb (-3) 1000 (fun _ => steady) env0 []
  = Some (mkSummary (mkResults mongodb (-3) 0 0 [] [] (rss0 env0) 0 (now0 env0))
                    (now1 env0) (elapsed_seconds (now1 env0) (now0 env0)) (Number_of_Z 0)).
Proof.
  split; [lia|].
  destruct (run_negative_attempts mongodb (-3) 1000 (fun _ => steady) env0 [])
    as [H _]; [lia | exact H].
Defined.

(** * Further properties *)

(** ** [run]: every attempt once *)

(** At the join of [run] every attempt has been counted exactly once:
    the two counters add up to the number of loop iterations, there is
    one latency per success, and no more error keys than failures. *)
Theorem run_counts_each_attempt_once db total timeoutMs adapter env sched s :
  run db total timeoutMs adapter env sched = Some s ->
  successful (final s) + failed (final s) = Z.max 0 total /\
  successful (final s) = Z.of_nat (length (responseTimes (final s))) /\
  0 <= failed (final s) /\
  Z.of_nat (length (errors (final s))) <= failed (final s).
Proof.
  intros H. unfold run in H.
  destruct (run_state db total timeoutMs adapter env sched) as [st|] eqn:E;
    [|discriminate].
  injection H as <-. cbn [final summarize].
  split; [now apply run_accounting in E|].
  apply run_state_trace in E as [_ [evs ->]]. rewrite run_trace_results.
  apply (log_counters (init_results db total env)); reflexivity.
Qed.

Lemma run_counts_each_attempt_once_witness :
  exists s,
    run mysql 3 1000
      (fun i => if (i =? 1)%nat then connect_refused else steady) env0
      (drain 0 ++ drain 1 ++ drain 2) = Some s /\
    successful (final s) + failed (final s) = Z.max 0 3.
Proof.
  destruct (run_counts_each_attempt_once mysql 3 1000
              (fun i => if (i =? 1)%nat then connect_refused else steady) env0
              (drain 0 ++ drain 1 ++ drain 2) _ eq_refl) as [H _].
  eexists. split; [reflexivity | exact H].
Defined.

(** ** [testDatabase]: bounds on the counters *)

Lemma t_finish_counts (b : Behavior) (o : Outcome) :
  (t_finish b o).1 = Finished /\
  sum_list_with outcome_count (t_finish b o).2 = 1%nat /\
  (sum_list_with success_count (t_finish b o).2 <= 1)%nat.
Proof. destruct o; simpl; repeat split; lia. Qed.

(** A step of the inner function counts one outcome exactly when it
    finishes, and only then can it count a success. *)
Lemma t_await_counts (b : Behavior) (op : Op) (res : CallResult) (p : Phase) :
  let x := t_await b op res p in
  sum_list_with outcome_count x.2 = (if inner_finished x.1 then 1 else 0)%nat /\
  sum_list_with success_count x.2 = 0%nat.
Proof. unfold t_await. split_call res; simpl; auto. Qed.

Lemma t_launch_counts (dbName : Driver) (b : Behavior) :
  let x := t_launch dbName b in
  sum_list_with outcome_count x.2 = (if inner_finished x.1 then 1 else 0)%nat /\
  sum_list_with success_count x.2 = 0%nat.
Proof.
  unfold t_launch.
  pose proof (t_await_counts b OpConnect (connect b) AwaitConnect) as H.
  cbv zeta in H.
  destruct dbName; try exact H; destruct (construct b); simpl; auto;
    destruct (t_await b OpConnect (connect b) AwaitConnect); simpl in *; exact H.
Qed.

Lemma t_resume_counts (b : Behavior) (a : Inner) :
  let x := t_resume b a in
  (sum_list_with outcome_count x.2
   + (if inner_finished a then 1 else 0)
   = (if inner_finished x.1 then 1 else 0))%nat /\
  (sum_list_with success_count x.2 <= sum_list_with outcome_count x.2)%nat.
Proof.
  cbv zeta. destruct a as [[| | |]|]; cbn [t_resume]; try (simpl; lia).
  - split_call (connect b); try (simpl; lia).
    pose proof (t_await_counts b OpRoundTrip (roundTrip b) AwaitRoundTrip) as [H1 H2].
    rewrite H1, H2. cbn [inner_finished]. lia.
  - split_call (roundTrip b); try (simpl; lia).
    pose proof (t_await_counts b OpClose (close b) AwaitClose) as [H1 H2].
    rewrite H1, H2. cbn [inner_finished]. lia.
  - split_call (close b); simpl; lia.
Qed.

Lemma t_spawn_counts (dbName : Driver) (b : Behavior) :
  let x := t_spawn dbName b in
  sum_list_with outcome_count x.2 = wrapped_least x.1 /\
  (sum_list_with outcome_count x.2 <= wrapped_most x.1)%nat /\
  (sum_list_with success_count x.2 <= wrapped_finished x.1)%nat.
Proof.
  cbv zeta. unfold t_spawn, wrap.
  pose proof (t_launch_counts dbName b) as [H1 H2]. cbv zeta in H1, H2.
  destruct (t_launch dbName b) as [a acts]. cbn [fst snd] in *.
  unfold wrapped_least, wrapped_most, wrapped_finished.
  cbn [inner outer_settled orb].
  destruct (inner_finished a); simpl; lia.
Qed.

Lemma t_step_counts (b : Behavior) (w : Wrapped) (ev : Event) :
  let x := t_step b w ev in
  (wrapped_least x.1 <= wrapped_least w + sum_list_with outcome_count x.2)%nat /\
  (wrapped_most w + sum_list_with outcome_count x.2 <= wrapped_most x.1)%nat /\
  (wrapped_finished w + sum_list_with success_count x.2 <= wrapped_finished x.1)%nat.
Proof.
  cbv zeta. destruct w as [a o], ev as [i|i t]; cbn [t_step inner outer_settled].
  - unfold wrap. pose proof (t_resume_counts b a) as [H1 H2]. cbv zeta in H1, H2.
    destruct (t_resume b a) as [a' acts]. cbn [fst snd] in *.
    unfold wrapped_least, wrapped_most, wrapped_finished.
    cbn [inner outer_settled].
    destruct o, (inner_finished a), (inner_finished a'); simpl; lia.
  - unfold wrapped_least, wrapped_most, wrapped_finished.
    destruct o; [simpl; lia|].
    destruct (timer_delay CONNECTION_TIMEOUT_MS <=? t); simpl;
      destruct (inner_finished a); simpl; lia.
Qed.

Lemma settled_least (l : list Wrapped) :
  forallb outer_settled l = true -> sum_list_with wrapped_least l = length l.
Proof.
  induction l as [|w l IH]; simpl; [reflexivity|].
  intros H. apply andb_prop in H as [Hw Hl]. rewrite IH by assumption.
  unfold wrapped_least. now rewrite Hw.
Qed.

Lemma most_le (l : list Wrapped) :
  (sum_list_with wrapped_most l <= 2 * length l)%nat.
Proof.
  induction l as [|w l IH]; simpl; [lia|].
  unfold wrapped_most at 1.
  destruct (outer_settled w), (inner_finished (inner w)); lia.
Qed.

Lemma finished_le (l : list Wrapped) :
  (sum_list_with wrapped_finished l <= length l)%nat.
Proof.
  induction l as [|w l IH]; simpl; [lia|].
  unfold wrapped_finished at 1. destruct (inner_finished (inner w)); lia.
Qed.

(** In every state of [testDatabase] the successes are no more than the
    attempts, and the outcomes no more than twice the attempts. *)
Lemma test_trace_counts total dbName adapter env evs :
  let st := test_trace total dbName adapter env evs in
  let n := Z.max 0 total in
  0 <= successful (results st) <= n /\
  successful (results st) + failed (results st) <= 2 * n /\
  0 <= failed (results st) /\
  Z.of_nat (length (errors (results st))) <= failed (results st) /\
  Z.of_nat (sum_list_with wrapped_least (attempts st))
  <= successful (results st) + failed (results st).
Proof.
  cbv zeta. rewrite test_trace_results.
  destruct (log_counters (init_results dbName total env)
              (log (test_trace total dbName adapter env evs)).*2
              eq_refl eq_refl eq_refl eq_refl) as (Hs & Hsf & _ & Hf & He).
  cbv zeta in Hs, Hsf, Hf, He.
  pose proof (trace_count_le (fun i => t_spawn dbName (adapter i))
                (fun i w ev => t_step (adapter i) w ev)
                outcome_count wrapped_most total (init_results dbName total env) evs
                (fun i => proj1 (proj2 (t_spawn_counts dbName (adapter i))))
                (fun i w ev => proj1 (proj2 (t_step_counts (adapter i) w ev)))) as Hmost.
  pose proof (trace_count_le (fun i => t_spawn dbName (adapter i))
                (fun i w ev => t_step (adapter i) w ev)
                success_count wrapped_finished total (init_results dbName total env) evs
                (fun i => proj2 (proj2 (t_spawn_counts dbName (adapter i))))
                (fun i w ev => proj2 (proj2 (t_step_counts (adapter i) w ev)))) as Hfin.
  pose proof (trace_count_ge (fun i => t_spawn dbName (adapter i))
                (fun i w ev => t_step (adapter i) w ev)
                outcome_count wrapped_least total (init_results dbName total env) evs
                (fun i => eq_ind _ (fun k => (wrapped_least _ <= k)%nat) (Nat.le_refl _) _
                            (eq_sym (proj1 (t_spawn_counts dbName (adapter i)))))
                (fun i w ev => proj1 (t_step_counts (adapter i) w ev))) as Hleast.
  cbv zeta in Hmost, Hfin, Hleast.
  fold (test_trace total dbName adapter env evs) in Hmost, Hfin, Hleast.
  pose proof (most_le (attempts (test_trace total dbName adapter env evs))) as Hm.
  pose proof (finished_le (attempts (test_trace total dbName adapter env evs))) as Hfl.
  assert (length (attempts (test_trace total dbName adapter env evs)) = Z.to_nat total)
    as Hlen by apply trace_length.
  rewrite Hlen in Hm, Hfl. lia.
Qed.

(** At the join of [testDatabase] every attempt has been counted at
    least once and at most twice, and counted as a success at most
    once. *)
Theorem testDatabase_counts_within_bounds total dbName adapter env sched st :
  test_state total dbName adapter env sched = Some st ->
  let n := Z.max 0 total in
  n <= successful (results st) + failed (results st) <= 2 * n /\
  0 <= successful (results st) <= n /\
  0 <= failed (results st) /\
  Z.of_nat (length (errors (results st))) <= failed (results st).
Proof.
  intros H. cbv zeta. apply test_state_trace in H as [Hs [evs ->]].
  destruct (test_trace_counts total dbName adapter env evs)
    as (H1 & H2 & H3 & H4 & H5).
  cbv zeta in H1, H2, H5.
  rewrite settled_least in H5 by assumption.
  unfold test_trace in H5. rewrite trace_length in H5.
  fold (test_trace total dbName adapter env evs) in H5. lia.
Qed.

Lemma testDatabase_counts_within_bounds_witness :
  exists st,
    test_state 2 postgres (fun _ => steady) env0
      ([Timer 0 10000] ++ three 0%nat ++ three 1%nat) = Some st /\
    2 <= successful (results st) + failed (results st) <= 4.
Proof.
  destruct (testDatabase_counts_within_bounds 2 postgres (fun _ => steady) env0
              ([Timer 0 10000] ++ three 0%nat ++ three 1%nat) _ eq_refl) as [H _].
  eexists. split; [reflexivity | exact H].
Defined.

(** ** The report of [testDatabase] *)

Lemma js_repeat_nonneg (s : string) (n : Z) :
  0 <= n -> exists bar, js_repeat s n = Some bar.
Proof.
  intros H. unfold js_repeat. destruct (n <? 0) eqn:E; [apply Z.ltb_lt in E; lia|].
  eauto.
Qed.

Lemma js_repeat_negative (s : string) (n : Z) : n < 0 -> js_repeat s n = None.
Proof. intros H. unfold js_repeat. apply Z.ltb_lt in H. now rewrite H. Qed.

(** With the successes between 0 and the attempt count, the bar of
    successes has between 0 and 30 cells. *)
Lemma successBlocks_range (r : Results) :
  0 <= successful r <= TOTAL_CONNECTIONS -> 0 <= successBlocks r <= 30.
Proof.
  intros [H0 H1]. unfold successBlocks, Math_round, TOTAL_CONNECTIONS in *.
  split.
  - apply Z.le_trans with (Qfloor (inject_Z 0)); [discriminate|].
    apply Qfloor_resp_le.
    unfold Qle, Qplus, Qmult, Qdiv, Qinv, inject_Z. simpl.
    change (Z.pos (1 * 500 * 1 * 2)%positive) with 1000.
    change (Z.pos (1 * 500 * 1)%positive) with 500. lia.
  - apply Z.le_trans with (Qfloor (61 # 2)); [|discriminate].
    apply Qfloor_resp_le.
    unfold Qle, Qplus, Qmult, Qdiv, Qinv, inject_Z. simpl.
    change (Z.pos (1 * 500 * 1 * 2)%positive) with 1000.
    change (Z.pos (1 * 500 * 1)%positive) with 500. lia.
Qed.

(** Without a failure there is no error key. *)
Lemma no_failure_no_key (r : Results) :
  Z.of_nat (length (errors r)) <= failed r -> failed r = 0 -> errors r = [].
Proof. intros H Hf. destruct (errors r); [reflexivity|simpl in H; lia]. Qed.

(** The pattern of every report can be drawn: neither [repeat] gets a
    negative count, the two bars have 30 cells together, and a report
    without failures names 'None' as its primary error. *)
Theorem testDatabase_pattern_is_drawn dbName adapter env sched rep :
  testDatabase dbName adapter env sched = Some rep ->
  0 <= successBlocks (reported rep) <= 30 /\
  0 <= failBlocks (reported rep) <= 30 /\
  successBlocks (reported rep) + failBlocks (reported rep) = 30 /\
  (exists bar crosses pattern,
     js_repeat "█" (successBlocks (reported rep)) = Some bar /\
     js_repeat "×" (failBlocks (reported rep)) = Some crosses /\
     connectionPattern (reported rep) = Some pattern) /\
  (failed (reported rep) = 0 -> reportPrimaryError rep = JStr "None").
Proof.
  intros H. unfold testDatabase in H.
  destruct (testDatabase_state dbName adapter env sched) as [st|] eqn:E;
    [|discriminate].
  injection H as <-. cbn [reported reportPrimaryError].
  unfold testDatabase_state in E.
  apply test_state_trace in E as [_ [evs ->]].
  destruct (test_trace_counts TOTAL_CONNECTIONS dbName adapter env evs)
    as (Hs & _ & _ & He & _).
  cbv zeta in Hs. change (Z.max 0 TOTAL_CONNECTIONS) with TOTAL_CONNECTIONS in Hs.
  pose proof (successBlocks_range _ Hs) as Hb.
  set (r := results (test_trace TOTAL_CONNECTIONS dbName adapter env evs)) in *.
  unfold failBlocks. repeat split; try lia.
  - destruct (js_repeat_nonneg "█" (successBlocks r)) as [bar Hbar]; [lia|].
    destruct (js_repeat_nonneg "×" (30 - successBlocks r)) as [crosses Hcr]; [lia|].
    exists bar, crosses. unfold connectionPattern, failBlocks.
    rewrite Hbar, Hcr. eauto.
  - intros Hf. unfold primaryError. now rewrite (no_failure_no_key r He Hf).
Qed.

Lemma testDatabase_pattern_is_drawn_witness :
  exists rep,
    testDatabase postgres slow_first env0 slow_first_sched = Some rep /\
    0 <= successBlocks (reported rep) <= 30.
Proof.
  destruct (testDatabase postgres slow_first env0 slow_first_sched) as [rep|] eqn:E.
  - exists rep. split; [reflexivity|].
    destruct (testDatabase_pattern_is_drawn postgres slow_first env0
                slow_first_sched rep E) as [H _]. exact H.
  - vm_compute in E. discriminate E.
Defined.

(** ** The peak of the memory samples *)

Lemma samples_app (l1 l2 : list Action) :
  samples (l1 ++ l2) = samples l1 ++ samples l2.
Proof. unfold samples. apply omap_app. Qed.

Lemma fold_peakMemory (acts : list Action) (r : Results) :
  peakMemory (foldl apply_action r acts) = foldl Z.max (peakMemory r) (samples acts).
Proof.
  revert r. induction acts as [|a acts IH]; intros r; [reflexivity|].
  change (a :: acts) with ([a] ++ acts) at 2. rewrite samples_app, foldl_app.
  cbn [foldl]. rewrite IH. f_equal.
  destruct a as [op|[d|[|c m]|]|m]; simpl; try reflexivity.
  - unfold push_error. now destruct (includes _ _).
  - unfold record_timeout, push_error. now destruct (includes _ _).
  - unfold sample_memory. destruct (peakMemory r <? m) eqn:E; simpl.
    + apply Z.ltb_lt in E. lia.
    + apply Z.ltb_ge in E. lia.
Qed.

Lemma fold_max_spec (l : list Z) (z : Z) :
  z <= foldl Z.max z l /\
  (forall m, m ∈ l -> m <= foldl Z.max z l) /\
  (foldl Z.max z l = z \/ foldl Z.max z l ∈ l).
Proof.
  revert z. induction l as [|x l IH]; intros z.
  - simpl. repeat split; [lia| |now left]. intros m Hm. inversion Hm.
  - cbn [foldl]. destruct (IH (Z.max z x)) as (H1 & H2 & H3).
    split; [lia|]. split.
    + intros m Hm. apply elem_of_cons in Hm as [->|Hm]; [lia|now apply H2].
    + destruct H3 as [H3|H3]; [|right; now right].
      rewrite H3. destruct (Z.max_spec z x) as [[_ ->]|[_ ->]];
        [right; left | now left].
Qed.

(** Entering the [finally] without a throwing close leads to the sample. *)
Lemma finally_block_sample (b : Behavior) (c r : bool) :
  let x := finally_block b c r in
  attempt_settled x.1 = true ->
  x.1 = Fulfilled \/ (forall e, cleanup b <> Throws e) ->
  ASample (rss b) ∈ x.2.
Proof.
  cbv zeta. unfold finally_block. destruct c.
  - destruct (cleanup b) as [e| |e|] eqn:E; cbn [fst snd]; try discriminate.
    intros _ [Hx|Hx]; [discriminate | now destruct (Hx e)].
  - intros _ _. cbn [snd]. apply list_elem_of_here.
Qed.

Lemma catch_block_sample (b : Behavior) (c : bool) (e : Thrown) :
  let x := catch_block b c e in
  attempt_settled x.1 = true ->
  x.1 = Fulfilled \/ (forall e, cleanup b <> Throws e) ->
  ASample (rss b) ∈ x.2.
Proof.
  cbv zeta. unfold catch_block.
  pose proof (finally_block_sample b c (is_nullish e)) as H. cbv zeta in H.
  destruct (finally_block b c (is_nullish e)) as [a f]. cbn [fst snd] in *.
  intros H1 H2. right. now apply H.
Qed.

Lemma await_call_sample (b : Behavior) (c : bool) (op : Op) (res : CallResult)
    (p : Phase) :
  let x := await_call b c op res p in
  attempt_settled x.1 = true ->
  x.1 = Fulfilled \/ (forall e, cleanup b <> Throws e) ->
  ASample (rss b) ∈ x.2.
Proof.
  cbv zeta. unfold await_call. split_call res; cbn [fst snd]; try discriminate.
  pose proof (catch_block_sample b c e) as H. cbv zeta in H.
  destruct (catch_block b c e) as [a f]. cbn [fst snd] in *.
  intros H1 H2. right. now apply H.
Qed.

Lemma launch_sample (db : Driver) (b : Behavior) :
  let x := launch db b in
  attempt_settled x.1 = true ->
  x.1 = Fulfilled \/ (forall e, cleanup b <> Throws e) ->
  ASample (rss b) ∈ x.2.
Proof.
  cbv zeta. unfold launch.
  pose proof (await_call_sample b false OpConnect (connect b) AwaitConnect) as Hm.
  pose proof (await_call_sample b true OpConnect (connect b) AwaitConnect) as Hp.
  cbv zeta in Hm, Hp.
  destruct db; try exact Hm; destruct (construct b) as [e|].
  all: try (pose proof (catch_block_sample b false e) as H; cbv zeta in H;
            destruct (catch_block b false e) as [a f]; cbn [fst snd] in *;
            intros H1 H2; right; now apply H).
  all: destruct (await_call b true OpConnect (connect b) AwaitConnect) as [a f];
    cbn [fst snd] in *; intros H1 H2; right; now apply Hp.
Qed.

Lemma resume_sample (timeoutMs : Z) (b : Behavior) (a : Attempt) (ev : Event) :
  let x := resume timeoutMs b a ev in
  attempt_settled x.1 = true ->
  x.1 = Fulfilled \/ (forall e, cleanup b <> Throws e) ->
  x = (a, []) \/ ASample (rss b) ∈ x.2.
Proof.
  cbv zeta.
  destruct a as [[| | |] c r| |], ev as [i|i t]; cbn [resume]; try (now left).
  - destruct (connect b) as [e| |e|]; try (now left); intros H1 H2; right.
    + now apply await_call_sample.
    + now apply catch_block_sample.
  - destruct (timer_delay timeoutMs <=? t); [|now left].
    intros H1 H2; right. now apply catch_block_sample.
  - destruct (roundTrip b) as [e| |e|]; try (now left); intros H1 H2; right.
    + now apply await_call_sample.
    + now apply catch_block_sample.
  - destruct (close b) as [e| |e|]; try (now left); intros H1 H2; right.
    + unfold success_path in *.
      pose proof (finally_block_sample b c false) as H. cbv zeta in H.
      destruct (finally_block b c false) as [a f]. cbn [fst snd] in *.
      right. now apply H.
    + now apply catch_block_sample.
  - destruct (cleanup b) as [e| |e|]; try (now left); intros _ _; right;
      apply list_elem_of_here.
Qed.

(** An attempt of [run] that has settled has taken its memory sample,
    unless the close of its [finally] threw. *)
Lemma reach_sample db timeoutMs b (a : Attempt) (acts : list Action) :
  reach (launch db b) (resume timeoutMs b) a acts ->
  attempt_settled a = true ->
  a = Fulfilled \/ (forall e, cleanup b <> Throws e) ->
  ASample (rss b) ∈ acts.
Proof.
  induction 1 as [a acts Hl | a acts ev a' acts' _ IH Hr]; intros Hs Hc.
  - pose proof (launch_sample db b) as H. cbv zeta in H. rewrite Hl in H.
    now apply H.
  - pose proof (resume_sample timeoutMs b a ev) as H. cbv zeta in H.
    rewrite Hr in H. cbn [fst snd] in H.
    destruct (H Hs Hc) as [[= -> ->]|Hin].
    + rewrite app_nil_r. now apply IH.
    + apply elem_of_app. now right.
Qed.

(** [peakMemory] is the largest memory sample taken so far, or 0 when
    none was larger: in every state of [run] and of [testDatabase] no
    sample of the log exceeds it and it is 0 or one of them; and at the
    join of [run] it is at least the sample of every attempt whose
    [finally] was not cut short by a throwing close. *)
Theorem peakMemory_is_largest_sample :
  (forall db total timeoutMs adapter env evs,
     let st := run_trace db total timeoutMs adapter env evs in
     0 <= peakMemory (results st) /\
     (forall m, m ∈ samples (log st).*2 -> m <= peakMemory (results st)) /\
     (peakMemory (results st) = 0 \/
      peakMemory (results st) ∈ samples (log st).*2)) /\
  (forall total dbName adapter env evs,
     let st := test_trace total dbName adapter env evs in
     0 <= peakMemory (results st) /\
     (forall m, m ∈ samples (log st).*2 -> m <= peakMemory (results st)) /\
     (peakMemory (results st) = 0 \/
      peakMemory (results st) ∈ samples (log st).*2)) /\
  (forall db total timeoutMs adapter env sched s i,
     run db total timeoutMs adapter env sched = Some s ->
     (i < Z.to_nat total)%nat ->
     (forall e, cleanup (adapter i) <> Throws e) ->
     rss (adapter i) <= peakMemory (final s)).
Proof.
  split; [|split].
  - intros db total timeoutMs adapter env evs st. subst st.
    rewrite run_trace_results, fold_peakMemory. apply fold_max_spec.
  - intros total dbName adapter env evs st. subst st.
    rewrite test_trace_results, fold_peakMemory. apply fold_max_spec.
  - intros db total timeoutMs adapter env sched s i H Hi Hc. unfold run in H.
    destruct (run_state db total timeoutMs adapter env sched) as [st|] eqn:E;
      [|discriminate].
    injection H as <-. cbn [final summarize].
    apply run_state_trace in E as [Hs [evs ->]].
    destruct (lookup_lt_is_Some_2
                (attempts (run_trace db total timeoutMs adapter env evs)) i)
      as [a Ha]; [unfold run_trace; now rewrite trace_length|].
    pose proof (trace_reach (fun i => launch db (adapter i))
                  (fun i a ev => resume timeoutMs (adapter i) a ev)
                  total (init_results db total env) evs i a Ha) as Hr.
    apply reach_sample in Hr;
      [|exact (forallb_at _ _ _ _ Hs Ha) | now right].
    apply elem_of_actions_of in Hr.
    fold (run_trace db total timeoutMs adapter env evs) in Hr.
    rewrite run_trace_results, fold_peakMemory.
    apply fold_max_spec. unfold samples. apply list_elem_of_omap.
    exists (ASample (rss (adapter i))). split; [|reflexivity].
    now apply (log_snd_elem i).
Qed.

Lemma peakMemory_is_largest_sample_witness :
  exists s,
    run postgres 2 1000 (fun _ => steady) env0 (drain 0 ++ drain 1) = Some s /\
    rss steady <= peakMemory (final s).
Proof.
  destruct peakMemory_is_largest_sample as (_ & _ & H).
  eexists. split; [reflexivity|].
  apply (H postgres 2 1000 (fun _ => steady) env0 (drain 0 ++ drain 1) _ 0%nat
           eq_refl); [simpl; lia | discriminate].
Defined.

(** ** MySQL: a connection that comes late is never closed *)

(** In the MySQL generator the variable [connection] is only set when
    the raced [createConnection] fulfils: [end()] is never called before
    the round trip was started, and once the attempt has counted its
    outcome it has called [end()] if the round trip was started. *)
Lemma mysql_close_and_round_trip timeoutMs b (a : Attempt) (acts : list Action) :
  reach (launch mysql b) (resume timeoutMs b) a acts ->
  (ACall OpClose ∈ acts -> ACall OpRoundTrip ∈ acts) /\
  match a with
  | Waiting AwaitRoundTrip _ _ | Waiting AwaitClose _ _ => ACall OpRoundTrip ∈ acts
  | Waiting AwaitConnect _ _ => True
  | _ => ACall OpRoundTrip ∈ acts -> ACall OpClose ∈ acts
  end.
Proof.
  induction 1 as [a acts Hl | a acts ev a' acts' Hreach [IH1 IH2] Hr].
  - unfold launch, await_call, catch_block, finally_block, completion in Hl.
    repeat case_match; simplify_eq; split; try exact I; (set_unfold; intuition congruence).
  - apply reach_inv in Hreach.
    assert (forall p c r, a = Waiting p c r ->
              if c then ACall OpRoundTrip ∈ acts
              else p <> AwaitCleanup -> ACall OpRoundTrip ∉ acts) as Hc.
    { intros p c r ->. destruct p; cbn [attempt_inv] in Hreach.
      1-3: destruct Hreach as (_ & [Hh Hh'] & _); destruct c;
        [destruct (Hh eq_refl) as [[Hn _]|Hin]; [congruence|exact Hin]
        |intros _ Hin; discriminate (Hh' (or_intror Hin))].
      destruct Hreach as (pre & o & -> & _ & _ & [[Hn _]|Hin]); [congruence|].
      destruct c; [set_unfold; intuition congruence | congruence]. }
    unfold resume, await_call, success_path, catch_block, finally_block,
      completion in Hr.
    repeat case_match; simplify_eq; split; try exact I;
      try (specialize (Hc _ _ _ eq_refl); cbn beta iota in Hc);
      (set_unfold; intuition congruence).
Qed.

(** At the join of the MySQL [run] an attempt has called [end()] exactly
    when it had started its round trip, that is when [createConnection]
    had answered before the deadline: a connection that comes after the
    deadline is never closed. *)
Theorem mysql_closes_only_obtained_connections total timeoutMs adapter env sched st i :
  run_state mysql total timeoutMs adapter env sched = Some st ->
  (i < Z.to_nat total)%nat ->
  (ACall OpClose ∈ actions_of i (log st)
   <-> ACall OpRoundTrip ∈ actions_of i (log st)).
Proof.
  intros H Hi.
  apply run_state_trace in H as [Hs [evs ->]].
  destruct (lookup_lt_is_Some_2
              (attempts (run_trace mysql total timeoutMs adapter env evs)) i)
    as [a Ha]; [unfold run_trace; now rewrite trace_length|].
  pose proof (trace_reach (fun i => launch mysql (adapter i))
                (fun i a ev => resume timeoutMs (adapter i) a ev)
                total (init_results mysql total env) evs i a Ha) as Hr.
  fold (run_trace mysql total timeoutMs adapter env evs) in Hr.
  pose proof (mysql_close_and_round_trip _ _ _ _ Hr) as [H1 H2].
  pose proof (forallb_at _ _ _ _ Hs Ha) as Hset.
  destruct a as [p c r| |]; [discriminate| |]; now split.
Qed.

Lemma mysql_closes_only_obtained_connections_witness :
  ACall OpClose ∉ [ACall OpConnect; ARecord (Failure TimeoutError);
                   ASample 104857600].
Proof.
  intros Hin.
  pose proof (proj1 (mysql_closes_only_obtained_connections 1 1000
                       (fun _ => unreachable) env0 [Timer 0 1000] _ 0%nat
                       eq_refl (Nat.lt_0_succ 0)) Hin) as H.
  apply elem_of_cons in H as [H|H]; [discriminate|].
  apply elem_of_cons in H as [H|H]; [discriminate|].
  apply elem_of_cons in H as [H|H]; [discriminate|inversion H].
Defined.

(** ** The deadline covers the connect only *)

(** An attempt of [run] that waits for a round trip which never answers
    stays where it is, whatever happens. *)
Lemma stuck_in_round_trip timeoutMs b (c r : bool) (acts : list Action)
    (evs : list Event) :
  roundTrip b = Hangs ->
  foldl (solo_step (resume timeoutMs b)) (Waiting AwaitRoundTrip c r, acts) evs
  = (Waiting AwaitRoundTrip c r, acts).
Proof.
  intros Hh. induction evs as [|ev evs IH]; [reflexivity|].
  cbn [foldl]. unfold solo_step at 2. cbn [fst snd].
  destruct ev; cbn [resume]; rewrite ?Hh; cbn [fst snd]; now rewrite app_nil_r.
Qed.

(** [run] puts a deadline on the connect alone.  When an attempt's
    connect answers before any timer of that attempt fires and its round
    trip then never answers, [run] does not resolve, however long the
    schedule goes on and whatever the other attempts do. *)
Theorem run_waits_for_a_hanging_round_trip
    db total timeoutMs adapter env pre post i :
  (i < Z.to_nat total)%nat ->
  db = mysql \/ construct (adapter i) = None ->
  connect (adapter i) = Resolves ->
  roundTrip (adapter i) = Hangs ->
  events_of i pre = [] ->
  run db total timeoutMs adapter env (pre ++ Settle i :: post) = None.
Proof.
  intros Hi Hcons Hconn Hrt Hpre. unfold run.
  destruct (run_state db total timeoutMs adapter env (pre ++ Settle i :: post))
    as [st|] eqn:E; [exfalso|reflexivity].
  unfold run_state in E. apply await_all_prefix in E as [Hs (evs & rest & Hsplit & ->)].
  destruct (trace_solo (fun i => launch db (adapter i))
              (fun i a ev => resume timeoutMs (adapter i) a ev)
              total (init_results db total env) evs i Hi) as [Ha _].
  pose proof (forallb_at _ _ _ _ Hs Ha) as Hset. clear Hs Ha.
  assert (exists c, launch db (adapter i)
                    = (Waiting AwaitConnect c false,
                       (launch db (adapter i)).2)) as [c Hl].
  { unfold launch, await_call. rewrite Hconn.
    destruct Hcons as [-> | Hc]; [now exists false|].
    destruct db; rewrite ?Hc; eauto. }
  assert (events_of i evs = []
          \/ exists l, events_of i evs = Settle i :: l) as [Hev|[l Hev]].
  { symmetry in Hsplit. apply app_eq_inv in Hsplit as [(k & -> & Hk)|(k & -> & Hk)].
    - destruct k as [|ev k].
      + left. now rewrite app_nil_r.
      + injection Hk as <- _. right. unfold events_of in *.
        rewrite filter_app, Hpre, filter_cons_True by reflexivity. eauto.
    - unfold events_of in *. rewrite filter_app in Hpre.
      apply app_eq_nil in Hpre as [Hp _]. now left. }
  - rewrite Hev in Hset. unfold solo in Hset. cbn [foldl] in Hset.
    rewrite Hl in Hset. discriminate.
  - rewrite Hev in Hset. unfold solo in Hset. cbn [foldl] in Hset.
    rewrite Hl in Hset. unfold solo_step at 2 in Hset. cbn [fst snd resume] in Hset.
    rewrite Hconn in Hset. unfold await_call in Hset. rewrite Hrt in Hset.
    rewrite stuck_in_round_trip in Hset by assumption. discriminate.
Qed.

Lemma run_waits_for_a_hanging_round_trip_witness :
  run postgres 2 100
    (fun i => if (i =? 1)%nat
              then mkBehavior None Resolves Hangs Resolves Resolves 0 0
              else steady) env0
    (drain 0 ++ Settle 1 :: [Timer 1 100; Settle 1; Timer 1 100000])
  = None.
Proof.
  apply (run_waits_for_a_hanging_round_trip postgres 2 100 _ env0 (drain 0)
           [Timer 1 100; Settle 1; Timer 1 100000] 1%nat);
    try reflexivity; [simpl; lia | now right].
Defined.

(** ** A clean batch *)

Lemma all_successes_counts (acts : list Action) :
  all_successes acts ->
  sum_list_with outcome_count acts = sum_list_with success_count acts.
Proof.
  induction acts as [|a acts IH]; intros H; [reflexivity|].
  cbn [sum_list_with]. rewrite IH by (intros o Hin; apply H; now right).
  destruct a as [op|o|m]; try reflexivity.
  destruct (H o (list_elem_of_here _ _)) as [d ->]. reflexivity.
Qed.

(** When every driver call of every [try] fulfils and no attempt's
    timer fires, its delay over, before its connect has settled, every
    attempt is a success, whatever the close of the [finally] does: if
    [run] resolves, then with [successful] the number of attempts, no
    failure, no error key and one latency each; and it does resolve
    once every attempt has seen four settlements, provided the close of
    each [finally] settles. *)
Theorem run_clean_batch_succeeds db total timeoutMs adapter env sched :
  (forall i, (i < Z.to_nat total)%nat -> try_clean db (adapter i)) ->
  (forall i, (i < Z.to_nat total)%nat ->
     timed_out db timeoutMs (adapter i) (events_of i sched) = false) ->
  (forall s, run db total timeoutMs adapter env sched = Some s ->
     successful (final s) = Z.max 0 total /\
     failed (final s) = 0 /\
     errors (final s) = [] /\
     length (responseTimes (final s)) = Z.to_nat total) /\
  ((forall i, (i < Z.to_nat total)%nat -> settles (cleanup (adapter i))) ->
   settles_each 4 (Z.to_nat total) sched ->
   exists s, run db total timeoutMs adapter env sched = Some s).
Proof.
  intros Hclean Htimer. split.
  - intros s H. unfold run in H.
    destruct (run_state db total timeoutMs adapter env sched) as [st|] eqn:E;
      [|discriminate].
    injection H as <-. cbn [final summarize].
    pose proof (run_accounting _ _ _ _ _ _ _ E) as Hsum.
    unfold run_state in E.
    apply await_all_prefix in E as [_ (evs & rest & -> & ->)].
    fold (run_trace db total timeoutMs adapter env evs) in *.
    assert (all_successes (log (run_trace db total timeoutMs adapter env evs)).*2)
      as Hall.
    { intros o Hin. apply list_elem_of_fmap in Hin as ([i a] & Ha & Hin).
      cbn [snd] in Ha. subst a.
      destruct (run_trace_outcome _ _ _ _ _ _ _ _ Hin) as (Hi & _ & Hrun).
      specialize (Hrun rest). unfold run_outcome in Hrun.
      rewrite (Htimer i Hi) in Hrun.
      destruct (Hclean i Hi) as (Hc & Hconn & Hrt & Hcl).
      assert (try_outcome db (adapter i)
              = Some (Success (durationMs (elapsed_ns (adapter i))))) as Hs
        by (apply try_outcome_success; repeat split; assumption).
      rewrite Hs in Hrun. injection Hrun as <-. eauto. }
    apply all_successes_counts in Hall.
    rewrite run_trace_results in *.
    destruct (log_counters (init_results db total env)
                (log (run_trace db total timeoutMs adapter env evs)).*2
                eq_refl eq_refl eq_refl eq_refl)
      as (Hs & Hsf & Hlen & _ & He).
    cbv zeta in Hs, Hsf, Hlen, He. rewrite Hall in Hsf.
    assert (failed (foldl apply_action (init_results db total env)
                      (log (run_trace db total timeoutMs adapter env evs)).*2) = 0)
      as Hz by lia.
    repeat split; try lia.
    apply (no_failure_no_key _ He Hz).
  - intros Hcleanup Hsched.
    destruct (run_resolves db total timeoutMs adapter env sched) as [st Hst];
      [|assumption|].
    + intros i Hi. destruct (Hclean i Hi) as (_ & Hconn & Hrt & Hcl).
      unfold responsive, settles. rewrite Hconn, Hrt, Hcl.
      repeat split; try discriminate. now apply Hcleanup.
    + exists (summarize env (results st)). unfold run. now rewrite Hst.
Qed.

Lemma run_clean_batch_succeeds_witness :
  exists s,
    run mongodb 3 1000
      (fun i => if (i =? 1)%nat then cleanup_fails else steady) env0
      ([Timer 0 999; Settle 0; Timer 0 5000; Settle 0; Settle 0; Settle 0]
       ++ drain 1 ++ drain 2) = Some s /\
    failed (final s) = 0.
Proof.
  destruct (run_clean_batch_succeeds mongodb 3 1000
              (fun i => if (i =? 1)%nat then cleanup_fails else steady) env0
              ([Timer 0 999; Settle 0; Timer 0 5000; Settle 0; Settle 0; Settle 0]
               ++ drain 1 ++ drain 2)) as [Hsum Hlive].
  - intros i Hi. destruct i as [|[|[|i]]]; [| | |simpl in Hi; lia];
      repeat split; reflexivity.
  - intros i Hi. destruct i as [|[|[|i]]]; [| | |simpl in Hi; lia]; reflexivity.
  - destruct Hlive as [s Hs].
    + intros i Hi. destruct i as [|[|[|i]]]; [| | |simpl in Hi; lia]; discriminate.
    + intros i Hi. destruct i as [|[|[|i]]]; [| | |simpl in Hi; lia];
        vm_compute; lia.
    + exists s. split; [exact Hs | apply (Hsum s Hs)].
Defined.

(** ** The key of a timeout in [testDatabase] *)

(** In [testDatabase], once the outer promise of an attempt has timed out,
    the fixed key 'Connection Timeout' is in [results.errors] and
    [results.failed] is positive, whatever the batch does afterwards. *)
Theorem testDatabase_timeout_key_is_recorded total dbName adapter env evs i :
  let st := test_trace total dbName adapter env evs in
  (i, ARecord TimedOut) ∈ log st ->
  JStr "Connection Timeout" ∈ errors (results st) /\
  0 < failed (results st).
Proof.
  intros st Hin. subst st. rewrite test_trace_results.
  set (acts := (log (test_trace total dbName adapter env evs)).*2).
  assert (ARecord TimedOut ∈ acts) as Ha by now apply (log_snd_elem i).
  split.
  - destruct (log_errors (init_results dbName total env) acts eq_refl) as [-> _].
    apply first_seen_elem_of.
    now apply (recorded_key_elem _ TimedOut).
  - destruct (log_counters (init_results dbName total env) acts
                eq_refl eq_refl eq_refl eq_refl) as (Hs & Hsf & _).
    cbv zeta in Hs, Hsf.
    assert (sum_list_with success_count acts < sum_list_with outcome_count acts)%nat.
    { clear -Ha. induction acts as [|a acts IH]; [inversion Ha|].
      apply elem_of_cons in Ha as [<-|Ha].
      - cbn [sum_list_with outcome_count success_count].
        assert (sum_list_with success_count acts
                <= sum_list_with outcome_count acts)%nat; [|lia].
        clear. induction acts as [|a acts IH]; [simpl; lia|].
        cbn [sum_list_with]. destruct a as [op|[d|e|]|m]; simpl; lia.
      - specialize (IH Ha). cbn [sum_list_with].
        destruct a as [op|[d|e|]|m]; simpl; lia. }
    lia.
Qed.

Lemma testDatabase_timeout_key_is_recorded_witness :
  JStr "Connection Timeout"
  ∈ errors (results (test_trace 1 postgres (fun _ => steady) env0
                       [Timer 0 10000])).
Proof.
  apply (testDatabase_timeout_key_is_recorded 1 postgres (fun _ => steady) env0
           [Timer 0 10000] 0%nat).
  vm_compute. do 2 apply list_elem_of_further. apply list_elem_of_here.
Defined.

(** ** The average is a number *)

(** With elapsed times that are not negative, as a monotonic clock
    gives them, and fewer than 2^53 attempts, every latency [run]
    records and the average it returns are numbers that are not
    negative: never NaN, whatever the sum of the latencies comes to. *)
Theorem run_average_is_a_number db total timeoutMs adapter env sched s :
  run db total timeoutMs adapter env sched = Some s ->
  total < 2 ^ 53 ->
  (forall i, (i < Z.to_nat total)%nat -> 0 <= elapsed_ns (adapter i)) ->
  Forall nonnegative (responseTimes (final s)) /\
  nonnegative (avgResponseTime s) /\
  avgResponseTime s <> S754_nan.
Proof.
  intros H Htotal Hns. unfold run in H.
  destruct (run_state db total timeoutMs adapter env sched) as [st|] eqn:E;
    [|discriminate].
  injection H as <-. cbn [final avgResponseTime summarize].
  assert (Forall nonnegative (responseTimes (results st))) as Hall.
  { apply Forall_forall. intros d Hd.
    destruct (run_latency_origin _ _ _ _ _ _ _ d E Hd) as (i & Hi & _ & ->).
    apply js_div_nonneg; [apply Number_of_Z_nonneg, Hns, Hi|].
    now apply Number_of_Z_small. }
  assert (nonnegative (average (responseTimes (results st)))) as Havg.
  { unfold average.
    destruct (0 <? length (responseTimes (results st)))%nat eqn:El; [|exact I].
    apply Nat.ltb_lt in El.
    apply Math_round_double_nonneg, js_div_nonneg;
      [now apply sum_times_nonneg|].
    apply Number_of_Z_small. split; [lia|].
    pose proof (run_accounting _ _ _ _ _ _ _ E) as Hsum.
    apply run_state_trace in E as [_ [evs ->]].
    rewrite run_trace_results in *.
    destruct (log_counters (init_results db total env)
                (log (run_trace db total timeoutMs adapter env evs)).*2
                eq_refl eq_refl eq_refl eq_refl) as (_ & _ & Hlen & Hf & _).
    cbv zeta in Hlen, Hf. lia. }
  split; [exact Hall|]. split; [exact Havg|].
  intros Hnan. rewrite Hnan in Havg. exact Havg.
Qed.

Lemma run_average_is_a_number_witness :
  exists s,
    run postgres 4 1000 mixed_latencies env0 (flat_map drain (seq 0 4)) = Some s /\
    avgResponseTime s <> S754_nan.
Proof.
  destruct (run_average_is_a_number postgres 4 1000 mixed_latencies env0
              (flat_map drain (seq 0 4)) _ eq_refl) as (_ & _ & H).
  - reflexivity.
  - intros i Hi. destruct i as [|[|[|[|i]]]]; [| | | |simpl in Hi; lia];
      discriminate.
  - eexists. split; [reflexivity | exact H].
Defined.

(** ** The results object only grows *)

Lemma grows_refl (r : Results) : grows r r.
Proof. unfold grows. repeat split; (lia || reflexivity). Qed.

Lemma grows_trans (r1 r2 r3 : Results) : grows r1 r2 -> grows r2 r3 -> grows r1 r3.
Proof.
  unfold grows.
  intros (H1 & H2 & H3 & H4 & H5 & H6 & H7) (K1 & K2 & K3 & K4 & K5 & K6 & K7).
  repeat split; try lia; try congruence; etrans; eassumption.
Qed.

Lemma push_error_grows (k : JsVal) (r : Results) : grows r (push_error k r).
Proof.
  unfold push_error. destruct (includes (errors r) k); [apply grows_refl|].
  unfold grows. simpl. repeat split; try lia; try reflexivity.
  now apply prefix_app_r.
Qed.

Lemma apply_action_grows (r : Results) (a : Action) : grows r (apply_action r a).
Proof.
  destruct a as [op|[d|[|c m]|]|m]; cbn [apply_action].
  - apply grows_refl.
  - unfold grows, record_success. simpl. repeat split; try lia; try reflexivity.
    now apply prefix_app_r.
  - unfold grows, record_failure. simpl. repeat split; (lia || reflexivity).
  - unfold record_failure.
    apply grows_trans with (set_failed (failed r + 1) r); [|apply push_error_grows].
    unfold grows. simpl. repeat split; (lia || reflexivity).
  - unfold record_timeout.
    apply grows_trans with (set_failed (failed r + 1) r); [|apply push_error_grows].
    unfold grows. simpl. repeat split; (lia || reflexivity).
  - unfold sample_memory. destruct (peakMemory r <? m) eqn:E; [|apply grows_refl].
    apply Z.ltb_lt in E. unfold grows. simpl. repeat split; (lia || reflexivity).
Qed.

Lemma fold_grows (acts : list Action) (r : Results) :
  grows r (foldl apply_action r acts).
Proof.
  revert r. induction acts as [|a acts IH]; intros r; [apply grows_refl|].
  cbn [foldl]. eapply grows_trans; [apply apply_action_grows | apply IH].
Qed.

Section MachineGrowth.
Context {A : Type}.
Variable resume_attempt : nat -> A -> Event -> A * list Action.

Lemma steps_grow (evs : list Event) (st : State A) :
  grows (results st) (results (foldl (step resume_attempt) st evs)).
Proof.
  revert st. induction evs as [|ev evs IH]; intros st; [apply grows_refl|].
  cbn [foldl]. eapply grows_trans; [|apply IH].
  destruct (step_cases resume_attempt st ev)
    as [[_ ->]|(a & a' & acts & _ & _ & ->)]; [apply grows_refl|].
  cbn [results]. apply fold_grows.
Qed.

End MachineGrowth.

(** Whatever happens later in a batch of [run] or of [testDatabase], the
    shared results object only grows: no counter goes down, no error key
    and no latency is removed or reordered, the memory peak does not
    fall, and the start values are not touched. *)
Theorem results_only_grow :
  (forall db total timeoutMs adapter env evs more,
     grows (results (run_trace db total timeoutMs adapter env evs))
           (results (run_trace db total timeoutMs adapter env (evs ++ more)))) /\
  (forall total dbName adapter env evs more,
     grows (results (test_trace total dbName adapter env evs))
           (results (test_trace total dbName adapter env (evs ++ more)))).
Proof.
  split; intros; unfold run_trace, test_trace; rewrite foldl_app; apply steps_grow.
Qed.
